(** * dcrpulse: treasury-spend scanning, vote tallying, wallet loading

    A shallow embedding of two services of package [services] and of the
    handlers that call the second.

    The treasury service: the spend detector [isTreasurySpend], the
    vote-bits decoder [parseVoteBitsForTSpend] with [reverseHexBytes], the
    per-transaction decoder [parseTSpendVote], the extractors
    [extractTSpendInfo] and [extractTSpendHistory], the historical scanner
    ([TriggerHistoricalScan], [scanHistoricalTSpendsBackground],
    [GetScanProgress], [GetScanResults]), the mempool probe
    ([scanMempoolForTSpends], [FetchTreasuryInfo]) and the vote tally
    engine ([GetTSpendVotingInfo], [calculateTSpendVotes],
    [countTSpendVotesInRange], [calculateTSpendVotesAsync]).

    The wallet loader: [CheckWalletExists], [GenerateSeed],
    [CreateNewWallet], [OpenWallet], [CloseWallet], [OpenWalletWithRetry],
    and the handlers [WalletExistsHandler], [GenerateSeedHandler],
    [CreateWalletHandler] and [OpenWalletHandler].

    Conventions.
    - A Go [string] is a byte sequence: Rocq's [string] of 8-bit [ascii].
    - [int64] and [int] are [Z] with the 64-bit wrap-around written out
      ([wrap64]); lengths and indices are [nat].
    - A Go run-time panic (slice or index out of range, nil client) is
      [None] in the [option] monad; a function that cannot panic is a
      total function.
    - A [float64] is modelled by the rational number it denotes ([Q]);
      rounding to 53 bits is not modelled.  Where the code reads an
      integer off a [float64], the statements keep to the values for
      which the arithmetic is exact.
    - A decoded JSON document ([interface{}] after [json.Unmarshal]) is the
      tree [json]; [map[string]interface{}] is [gmap string json].
    - Code that runs in goroutines is a step function on the shared state:
      one step is the code up to and including the next critical section,
      so that schedules are lists of events and can be run.
    - What the wallet code does to the world (calls of the wallet's
      services, goroutines started, pauses) is the list of its [effect]s,
      returned next to its result. *)

From stdpp Require Import base gmap strings list.
From Stdlib Require Import Ascii ZArith QArith Lia ZifyNat DecimalString.

Set Warnings "-register-all,-clear-no-such-hyp".
#[local] Open Scope Z_scope.

(* ================================================================= *)
(** ** Bytes and Go string primitives *)

Definition code (c : ascii) : Z := Z.of_N (Ascii.N_of_ascii c).

Definition chr (z : Z) : ascii := Ascii.ascii_of_N (Z.to_N z).

Definition len (s : string) : nat := String.length s.

Definition bytes (s : string) : list ascii := String.list_ascii_of_string s.

Definition of_bytes (l : list ascii) : string := String.string_of_list_ascii l.

(** [s[lo:]]: panics when [lo > len s]. *)
Fixpoint slice_from (lo : nat) (s : string) : option string :=
  match lo, s with
  | O, _ => Some s
  | S lo', String _ s' => slice_from lo' s'
  | S _, EmptyString => None
  end.

(** [s[:hi]]: panics when [hi > len s]. *)
Fixpoint slice_to (hi : nat) (s : string) : option string :=
  match hi, s with
  | O, _ => Some EmptyString
  | S hi', String c s' => String c <$> slice_to hi' s'
  | S _, EmptyString => None
  end.

(** [s[lo:hi]]: panics unless [lo <= hi <= len s]. *)
Definition slice (lo hi : nat) (s : string) : option string :=
  slice_to hi s ≫= slice_from lo.

(** [b[i] = c] on a byte slice: panics when [i] is out of range. *)
Definition store (i : nat) (c : ascii) (b : list ascii) : option (list ascii) :=
  if decide (i < length b)%nat then Some (<[i:=c]> b) else None.

(** Value of one hexadecimal digit, either case. *)
Definition hexval (c : ascii) : option Z :=
  let n := code c in
  if (48 <=? n) && (n <=? 57) then Some (n - 48)
  else if (97 <=? n) && (n <=? 102) then Some (n - 87)
  else if (65 <=? n) && (n <=? 70) then Some (n - 55)
  else None.

(** [strings.ToLower] on the bytes of the string: the letters A-Z are
    lowered.  Go also rewrites non-ASCII runes (and replaces invalid UTF-8
    by U+FFFD); the only ones that lower to an ASCII letter are U+212A (to
    k) and U+0130 (to i), neither a letter of the word searched for below,
    so the search gives the same answer on the model. *)
Definition lower (c : ascii) : ascii :=
  let n := code c in
  if (65 <=? n) && (n <=? 90) then chr (n + 32) else c.

Fixpoint ToLower (s : string) : string :=
  match s with
  | EmptyString => EmptyString
  | String c s' => String (lower c) (ToLower s')
  end.

Fixpoint HasPrefix (s prefix : string) : bool :=
  match prefix, s with
  | EmptyString, _ => true
  | String a p', String b s' => bool_decide (a = b) && HasPrefix s' p'
  | String _ _, EmptyString => false
  end.

(** [strings.Contains s substr]. *)
Fixpoint Contains (s substr : string) : bool :=
  HasPrefix s substr ||
  match s with
  | EmptyString => false
  | String _ s' => Contains s' substr
  end.

Section EqualFold.
(** [strings.EqualFold] compares byte by byte while both strings are
    ASCII and hands over to Unicode simple folding at the first byte
    that is not; that second half works on Go's Unicode tables and is a
    parameter here. *)
Variable EqualFold_unicode : string → string → bool.

Fixpoint EqualFold (s t : string) : bool :=
  match s, t with
  | EmptyString, EmptyString => true
  | String sr s', String tr t' =>
      if 128 <=? Z.lor (code sr) (code tr) then EqualFold_unicode s t
      else if code tr =? code sr then EqualFold s' t'
      else
        let lo := Z.min (code sr) (code tr) in
        let hi := Z.max (code sr) (code tr) in
        if (65 <=? lo) && (lo <=? 90) && (hi =? lo + 32)
        then EqualFold s' t' else false
  | _, _ => false
  end.
End EqualFold.

(** [fmt.Sscanf(voteHex, "%02x", &voteByte)] with [voteByte] zero before
    the call; the result is [voteByte] after it (the error is dropped by
    the caller).  Leading blanks are skipped (a newline is an error), then
    at most two hexadecimal digits are read; when no digit can be read
    the byte keeps its zero. *)
Definition is_blank (c : ascii) : bool :=
  let n := code c in
  (n =? 9) || (n =? 11) || (n =? 12) || (n =? 13) || (n =? 32).

Definition scan_hex2 (s : string) : Z :=
  match s with
  | String a (String b _) =>
      match hexval a, hexval b with
      | Some x, Some y => 16 * x + y
      | Some x, None => x
      | None, _ => 0
      end
  | String a EmptyString => default 0 (hexval a)
  | EmptyString => 0
  end.

Fixpoint Sscanf_02x (s : string) : Z :=
  match s with
  | String c s' => if is_blank c then Sscanf_02x s' else scan_hex2 s
  | EmptyString => 0
  end.

(* ================================================================= *)
(** ** Vote-bits codec *)

(** [reverseHexBytes]: the loop over [i = 0, 2, 4, ...] runs [k] over
    [0 .. len/2 - 1] with [i = 2k]. *)
Definition reverseHexBytes_step (hexStr : list ascii) (acc : option (list ascii))
    (k : nat) : option (list ascii) :=
  result ← acc;
  let i := (2 * k)%nat in
  let srcPos := (length hexStr - i - 2)%nat in
  a ← hexStr !! srcPos;
  result ← store i a result;
  b ← hexStr !! (srcPos + 1)%nat;
  store (i + 1) b result.

Definition reverseHexBytes (hexStr : string) : option string :=
  if decide ((len hexStr) `mod` 2 ≠ 0)%nat then Some hexStr
  else
    of_bytes <$>
      foldl (reverseHexBytes_step (bytes hexStr))
        (Some (replicate (len hexStr) (chr 0)))
        (seq 0 (len hexStr / 2)).

Section Codec.
Variable EqualFold_unicode : string → string → bool.

Definition parseVoteBitsForTSpend (hexData tspendHash : string) : option string :=
  if decide (len hexData < 4)%nat then Some "unknown"
  else
    let dataStart := 4%nat in
    if decide (len hexData ≤ dataStart)%nat then Some "unknown"
    else
      dataHex ← slice_from dataStart hexData;
      if decide (len dataHex < 4)%nat then Some "unknown"
      else
        dataWithoutPrefix ← slice_from 4 dataHex;
        if decide (len dataWithoutPrefix < 64)%nat then Some "unknown"
        else
          hashHex ← slice_to 64 dataWithoutPrefix;
          reversedHash ← reverseHexBytes hashHex;
          if negb (EqualFold EqualFold_unicode reversedHash tspendHash)
          then Some "unknown"
          else if decide (len dataWithoutPrefix < 66)%nat then Some "unknown"
          else
            voteHex ← slice 64 66 dataWithoutPrefix;
            let voteByte := Sscanf_02x voteHex in
            let voteChoice := Z.land voteByte 3 in
            Some (if voteChoice =? 0 then "abstain"
                  else if voteChoice =? 1 then "yes"
                  else if voteChoice =? 2 then "no"
                  else if voteChoice =? 3 then "invalid"
                  else "unknown").
End Codec.

(* ================================================================= *)
(** ** Decoded JSON documents *)

Inductive json :=
  | JNull
  | JBool (b : bool)
  | JNum (x : Q)
  | JStr (s : string)
  | JArr (l : list json)
  | JObj (m : gmap string json).

(** Type assertions [v.(T)] in their comma-ok form, on the result of a map
    lookup (a missing key gives the nil interface, which fails them all). *)
Definition as_array (v : option json) : option (list json) :=
  match v with Some (JArr l) => Some l | _ => None end.

Definition as_object (v : option json) : option (gmap string json) :=
  match v with Some (JObj m) => Some m | _ => None end.

Definition as_string (v : option json) : option string :=
  match v with Some (JStr s) => Some s | _ => None end.

Definition as_float64 (v : option json) : option Q :=
  match v with Some (JNum x) => Some x | _ => None end.

(* ================================================================= *)
(** ** Spend detector *)

(** Method 1: the loop over [vin]. *)
Fixpoint isTreasurySpend_vin (vin : list json) : bool :=
  match vin with
  | [] => false
  | v :: rest =>
      match as_object (Some v) with
      | None => isTreasurySpend_vin rest
      | Some vinMap =>
          if decide (is_Some (vinMap !! "treasuryspend")) then true
          else isTreasurySpend_vin rest
      end
  end.

(** Method 2: the loop over [vout]. *)
Fixpoint isTreasurySpend_vout (tx : gmap string json) (vout : list json) : bool :=
  match vout with
  | [] => false
  | v :: rest =>
      match as_object (Some v) with
      | None => isTreasurySpend_vout tx rest
      | Some voutMap =>
          match as_object (voutMap !! "scriptPubKey") with
          | None => isTreasurySpend_vout tx rest
          | Some scriptPubKey =>
              match as_string (scriptPubKey !! "type") with
              | None => isTreasurySpend_vout tx rest
              | Some scriptType =>
                  if Contains (ToLower scriptType) "treasurygen" then
                    let version := default 0%Q (as_float64 (tx !! "version")) in
                    if Qeq_bool version 3 then true
                    else isTreasurySpend_vout tx rest
                  else isTreasurySpend_vout tx rest
              end
          end
      end
  end.

(** The guards [ok && len(vin) > 0] and [ok && len(vout) > 0] only skip
    loops that would not run. *)
Definition isTreasurySpend (tx : gmap string json) : bool :=
  if match as_array (tx !! "vin") with
     | Some vin => isTreasurySpend_vin vin
     | None => false
     end
  then true
  else
    match as_array (tx !! "vout") with
    | Some vout => isTreasurySpend_vout tx vout
    | None => false
    end.

(* ================================================================= *)
(** ** Per-transaction vote decoding *)

Definition isVoteTransaction (tx : gmap string json) : bool :=
  match as_array (tx !! "vin") with
  | None | Some [] => false
  | Some (v0 :: _) =>
      match as_object (Some v0) with
      | None => false
      | Some firstVin => bool_decide (is_Some (firstVin !! "stakebase"))
      end
  end.

Section Vote.
Variable EqualFold_unicode : string → string → bool.

Fixpoint parseTSpendVote_outputs (vout : list json) (tspendHash : string)
    : option string :=
  match vout with
  | [] => Some "unknown"
  | output :: rest =>
      match as_object (Some output) with
      | None => parseTSpendVote_outputs rest tspendHash
      | Some voutMap =>
          match as_object (voutMap !! "scriptPubKey") with
          | None => parseTSpendVote_outputs rest tspendHash
          | Some scriptPubKey =>
              let scriptType := default "" (as_string (scriptPubKey !! "type")) in
              if decide (scriptType ≠ "nulldata")
              then parseTSpendVote_outputs rest tspendHash
              else
                match as_string (scriptPubKey !! "hex") with
                | None => parseTSpendVote_outputs rest tspendHash
                | Some hexData =>
                    if decide (hexData = "")
                    then parseTSpendVote_outputs rest tspendHash
                    else
                      vote ← parseVoteBitsForTSpend EqualFold_unicode hexData tspendHash;
                      if decide (vote ≠ "unknown") then Some vote
                      else parseTSpendVote_outputs rest tspendHash
                end
          end
      end
  end.

Definition parseTSpendVote (tx : gmap string json) (tspendHash : string)
    : option string :=
  match as_array (tx !! "vout") with
  | None => Some "unknown"
  | Some vout =>
      if decide (length vout < 2)%nat then Some "unknown"
      else parseTSpendVote_outputs vout tspendHash
  end.
End Vote.

(* ================================================================= *)
(** ** Machine integers, slices, errors *)

(** Two's-complement wrap-around of [int64] (and of [int], 64 bits wide on
    the platforms the program is built for). *)
Definition wrap64 (z : Z) : Z := (z + 2 ^ 63) `mod` 2 ^ 64 - 2 ^ 63.

Definition add64 (a b : Z) : Z := wrap64 (a + b).
Definition sub64 (a b : Z) : Z := wrap64 (a - b).

(** [float64(n)] for an integer [n], and [int(x)], [int64(x)] for a float:
    truncation toward zero.  Go leaves the conversion of a value outside
    the integer range to the implementation; on amd64 it gives the
    smallest [int64].  [float64(n)] is [n] itself while [|n| <= 2^53];
    beyond that Go rounds to 53 bits and the model does not. *)
Definition float64_of_int (n : Z) : Q := inject_Z n.

Definition int_of_float64 (x : Q) : Z :=
  let n := Z.quot (Qnum x) (Z.pos (Qden x)) in
  if (- 2 ^ 63 <=? n) && (n <? 2 ^ 63) then n else - 2 ^ 63.

(** A Go slice is either nil or a (possibly empty) sequence. *)
Inductive goslice (A : Type) : Type :=
  | SNil
  | SOf (l : list A).
Arguments SNil {A}.
Arguments SOf {A} l.

Definition elems {A} (s : goslice A) : list A :=
  match s with SNil => [] | SOf l => l end.

(** [append(s, x)]. *)
Definition append {A} (s : goslice A) (x : A) : goslice A := SOf (elems s ++ [x]).

(** [make([]T, len(s))] followed by [copy]. *)
Definition copy_of {A} (s : goslice A) : goslice A := SOf (elems s).

(** A Go [error]: nil, or a message.  The text of a wrapped cause is not
    modelled. *)
Definition error := option string.

(** [%d]. *)
Definition itoa (n : Z) : string := NilZero.string_of_int (Z.to_int n).

(* ================================================================= *)
(** ** Ledger data source *)

(** The block fields [getblock] is decoded into. *)
Record Block := {
  Hash : string;
  Height : Z;
  Time : Z;
  Tx : list string;
  STx : list string
}.

(** The answers of the dcrd client at one moment.  [None] is a failed
    call; where the source decodes the raw answer with [json.Unmarshal]
    and treats a decoding failure like a failed call, the two are one
    [None]. *)
Record Ledger := {
  GetBlockCount : option Z;
  GetBlockHash : Z → option string;
  getblock : string → option Block;
  getrawtransaction : string → option (gmap string json);
  (** outer [None]: the request failed; inner [None]: the answer is not a
      JSON object *)
  getrawmempool : option (option (gmap string json));
  getblockheader : string → option Z;
  GetTreasuryBalance : option Z
}.

Definition getTransaction (c : Ledger) (txHash : string) : option (gmap string json) :=
  getrawtransaction c txHash.

(* ================================================================= *)
(** ** Spend records *)

(** [DetectedAt], the time of the probe, is left out. *)
Record TSpend := {
  TxHash : string;
  Amount : Q;
  Payee : string;
  ExpiryHeight : Z;
  CurrentHeight : Z;
  BlocksRemaining : Z;
  Status : string
}.

Record TSpendHistory := {
  hTxHash : string;
  hAmount : Q;
  hPayee : string;
  hBlockHeight : Z;
  hBlockHash : string;
  hTimestamp : Z;
  hVoteResult : string
}.

(** The loop over [vout] shared by the two extractors: the sum of the
    values and the last payee address found. *)
Definition extract_output (acc : Q * string) (v : json) : Q * string :=
  let voutMap := default ∅ (as_object (Some v)) in
  let value := default 0%Q (as_float64 (voutMap !! "value")) in
  let amount := (acc.1 + value)%Q in
  match as_object (voutMap !! "scriptPubKey") with
  | Some scriptPubKey =>
      match as_array (scriptPubKey !! "addresses") with
      | Some (a0 :: _) =>
          match as_string (Some a0) with
          | Some addr => (amount, addr)
          | None => (amount, acc.2)
          end
      | _ => (amount, acc.2)
      end
  | None => (amount, acc.2)
  end.

Definition extractTSpendInfo (tx : gmap string json) (currentHeight : Z) : TSpend :=
  let txid := default "" (as_string (tx !! "txid")) in
  let expiry := default 0%Q (as_float64 (tx !! "expiry")) in
  let vout := default [] (as_array (tx !! "vout")) in
  let '(amount, payee) := foldl extract_output (0%Q, "") vout in
  let expiryHeight := int_of_float64 expiry in
  let blocksRemaining := sub64 expiryHeight currentHeight in
  {| TxHash := txid; Amount := amount; Payee := payee;
     ExpiryHeight := expiryHeight; CurrentHeight := currentHeight;
     BlocksRemaining := blocksRemaining; Status := "voting" |}.

Definition extractTSpendHistory (tx : gmap string json) (blockHeight : Z)
    (blockHash : string) (blockTime : Z) : TSpendHistory :=
  let txid := default "" (as_string (tx !! "txid")) in
  let vout := default [] (as_array (tx !! "vout")) in
  let '(amount, payee) := foldl extract_output (0%Q, "") vout in
  {| hTxHash := txid; hAmount := amount; hPayee := payee;
     hBlockHeight := blockHeight; hBlockHash := blockHash;
     hTimestamp := blockTime; hVoteResult := "approved" |}.

(* ================================================================= *)
(** ** Mempool probe *)

(** One turn of the loop over the mempool. *)
Definition scanMempool_tx (c : Ledger) (currentHeight : Z)
    (tspends : goslice TSpend) (txHash : string) : goslice TSpend :=
  match getTransaction c txHash with
  | None => tspends
  | Some tx =>
      if isTreasurySpend tx
      then append tspends (extractTSpendInfo tx currentHeight)
      else tspends
  end.

(** [rpc.DcrdClient] is [None] when no client is configured.  Go ranges
    over the map in an unspecified order; the model takes the order of
    [map_to_list]. *)
Definition scanMempoolForTSpends (client : option Ledger) : goslice TSpend * error :=
  match client with
  | None => (SNil, Some "dcrd client not available")
  | Some c =>
      match getrawmempool c with
      | None => (SNil, Some "failed to get mempool")
      | Some None => (SNil, Some "failed to unmarshal mempool")
      | Some (Some mempoolMap) =>
          let currentHeight := default 0 (GetBlockCount c) in
          (foldl (scanMempool_tx c currentHeight) SNil (map_to_list mempoolMap).*1,
           None)
      end
  end.

Definition GetMempoolTSpends (client : option Ledger) : goslice TSpend * error :=
  scanMempoolForTSpends client.

Definition getTreasuryBalance (client : option Ledger) : Q * error :=
  match client with
  | None => (0%Q, Some "dcrd client not available")
  | Some c =>
      match GetTreasuryBalance c with
      | None => (0%Q, Some "failed to get treasury balance")
      | Some balance => ((float64_of_int balance / 100000000)%Q, None)
      end
  end.

Record TreasuryInfo := {
  Balance : Q;
  BalanceUSD : Q;
  TotalAdded : Q;
  TotalSpent : Q;
  ActiveTSpends : goslice TSpend;
  RecentTSpends : goslice TSpendHistory;
  LastUpdate : Z
}.

(** [now] stands for [time.Now()]. *)
Definition FetchTreasuryInfo (client : option Ledger) (now : Z) : TreasuryInfo * error :=
  let '(balance, err) := getTreasuryBalance client in
  let balance := if err is Some _ then 0%Q else balance in
  let '(activeTSpends, err) := scanMempoolForTSpends client in
  let activeTSpends := if err is Some _ then SOf [] else activeTSpends in
  let activeTSpends := if activeTSpends is SNil then SOf [] else activeTSpends in
  ({| Balance := balance; BalanceUSD := 0; TotalAdded := 0; TotalSpent := 0;
      ActiveTSpends := activeTSpends; RecentTSpends := SOf [];
      LastUpdate := now |}, None).

(* ================================================================= *)
(** ** Historical scanner *)

Definition TreasuryActivationHeight : Z := 552448.

(** The package-level scan state guarded by [scanMutex]. *)
Record ScanState := {
  isScanRunning : bool;
  currentScanHeight : Z;
  totalScanHeight : Z;
  tspendFoundCount : Z;
  scanResults : goslice TSpendHistory;
  newTSpendBuffer : goslice TSpendHistory
}.

(** The zero values the package starts with. *)
Definition scan_init : ScanState :=
  {| isScanRunning := false; currentScanHeight := 0; totalScanHeight := 0;
     tspendFoundCount := 0; scanResults := SNil; newTSpendBuffer := SNil |}.

(** [TriggerHistoricalScan]: the error returned, the state left behind when
    the mutex is released, and the argument of the goroutine started by
    [go scanHistoricalTSpendsBackground(startHeight)], if any. *)
Definition TriggerHistoricalScan (startHeight : Z) (st : ScanState)
    : error * ScanState * option Z :=
  if isScanRunning st then (Some "scan already in progress", st, None)
  else
    let startHeight :=
      if startHeight <? TreasuryActivationHeight
      then TreasuryActivationHeight else startHeight in
    (None,
     {| isScanRunning := true;
        currentScanHeight := startHeight;
        totalScanHeight := totalScanHeight st;
        tspendFoundCount := 0;
        scanResults := SOf [];
        newTSpendBuffer := SOf [] |},
     Some startHeight).

(** Where the goroutine of [scanHistoricalTSpendsBackground] stands; its
    local variables travel with it. *)
Inductive ScanTask :=
  | ScanStart (startHeight : Z)
  | ScanHeight (h currentHeight : Z)
  | ScanBlock (h currentHeight : Z)
  | ScanTxs (h currentHeight : Z) (block : Block) (txs : list string)
  | ScanDone.

(** One step of the goroutine: the code up to and including its next
    critical section, against the ledger as it answers at that moment.
    [None]: the goroutine has ended, or it panics (a call on a nil
    client). *)
Definition scan_step (client : option Ledger) (task : ScanTask) (st : ScanState)
    : option (ScanTask * ScanState) :=
  match task with
  | ScanStart startHeight =>
      c ← client;
      match GetBlockCount c with
      | None =>
          Some (ScanDone,
                {| isScanRunning := false;
                   currentScanHeight := currentScanHeight st;
                   totalScanHeight := totalScanHeight st;
                   tspendFoundCount := tspendFoundCount st;
                   scanResults := scanResults st;
                   newTSpendBuffer := newTSpendBuffer st |})
      | Some currentHeight =>
          Some (ScanHeight startHeight currentHeight,
                {| isScanRunning := isScanRunning st;
                   currentScanHeight := currentScanHeight st;
                   totalScanHeight := currentHeight;
                   tspendFoundCount := tspendFoundCount st;
                   scanResults := scanResults st;
                   newTSpendBuffer := newTSpendBuffer st |})
      end
  | ScanHeight h currentHeight =>
      if h <=? currentHeight then
        Some (ScanBlock h currentHeight,
              {| isScanRunning := isScanRunning st;
                 currentScanHeight := h;
                 totalScanHeight := totalScanHeight st;
                 tspendFoundCount := tspendFoundCount st;
                 scanResults := scanResults st;
                 newTSpendBuffer := newTSpendBuffer st |})
      else
        Some (ScanDone,
              {| isScanRunning := false;
                 currentScanHeight := currentScanHeight st;
                 totalScanHeight := totalScanHeight st;
                 tspendFoundCount := tspendFoundCount st;
                 scanResults := scanResults st;
                 newTSpendBuffer := newTSpendBuffer st |})
  | ScanBlock h currentHeight =>
      c ← client;
      match GetBlockHash c h ≫= getblock c with
      | None => Some (ScanHeight (add64 h 1) currentHeight, st)
      | Some block =>
          Some (ScanTxs h currentHeight block (Tx block ++ STx block), st)
      end
  | ScanTxs h currentHeight block [] =>
      Some (ScanHeight (add64 h 1) currentHeight, st)
  | ScanTxs h currentHeight block (txHash :: txs) =>
      c ← client;
      match getTransaction c txHash with
      | None => Some (ScanTxs h currentHeight block txs, st)
      | Some tx =>
          if isTreasurySpend tx then
            let history :=
              extractTSpendHistory tx (Height block) (Hash block) (Time block) in
            Some (ScanTxs h currentHeight block txs,
                  {| isScanRunning := isScanRunning st;
                     currentScanHeight := currentScanHeight st;
                     totalScanHeight := totalScanHeight st;
                     tspendFoundCount := add64 (tspendFoundCount st) 1;
                     scanResults := append (scanResults st) history;
                     newTSpendBuffer := append (newTSpendBuffer st) history |})
          else Some (ScanTxs h currentHeight block txs, st)
      end
  | ScanDone => None
  end.

Record TSpendScanProgress := {
  IsScanning : bool;
  pCurrentHeight : Z;
  pTotalHeight : Z;
  Progress : Q;
  TSpendFound : Z;
  NewTSpends : goslice TSpendHistory;
  Message : string
}.

(** [GetScanProgress]: the snapshot returned and the state left behind
    (the buffer of new finds is emptied). *)
Definition GetScanProgress (st : ScanState) : TSpendScanProgress * ScanState :=
  let progress :=
    if totalScanHeight st >? TreasuryActivationHeight then
      (float64_of_int (sub64 (currentScanHeight st) TreasuryActivationHeight)
       / float64_of_int (sub64 (totalScanHeight st) TreasuryActivationHeight)
       * 100)%Q
    else 0%Q in
  let message :=
    if negb (isScanRunning st) then
      if tspendFoundCount st >? 0
      then "Scan complete. Found " +:+ itoa (tspendFoundCount st) +:+ " treasury spends"
      else "No scan in progress"
    else "Scanning blockchain for treasury spends..." in
  let newTSpends := copy_of (newTSpendBuffer st) in
  ({| IsScanning := isScanRunning st;
      pCurrentHeight := currentScanHeight st;
      pTotalHeight := totalScanHeight st;
      Progress := progress;
      TSpendFound := tspendFoundCount st;
      NewTSpends := newTSpends;
      Message := message |},
   {| isScanRunning := isScanRunning st;
      currentScanHeight := currentScanHeight st;
      totalScanHeight := totalScanHeight st;
      tspendFoundCount := tspendFoundCount st;
      scanResults := scanResults st;
      newTSpendBuffer := SOf [] |}).

Definition GetScanResults (st : ScanState) : goslice TSpendHistory :=
  copy_of (scanResults st).

(** The scanner as a whole: the shared state and the goroutines started
    and not yet ended.  What can happen next: a trigger, a progress read,
    or one step of a goroutine. *)
Inductive ScanEvent :=
  | EvTrigger (startHeight : Z)
  | EvProgress
  | EvStep (n : nat) (client : option Ledger).

Definition scanner_step (ev : ScanEvent) (sys : ScanState * list ScanTask)
    : option (ScanState * list ScanTask) :=
  let '(st, tasks) := sys in
  match ev with
  | EvTrigger startHeight =>
      let '(_, st', spawned) := TriggerHistoricalScan startHeight st in
      Some (st', tasks ++ match spawned with Some h => [ScanStart h] | None => [] end)
  | EvProgress => Some ((GetScanProgress st).2, tasks)
  | EvStep n client =>
      task ← tasks !! n;
      '(task', st') ← scan_step client task st;
      Some (st', <[n := task']> tasks)
  end.

Fixpoint scanner_run (evs : list ScanEvent) (sys : ScanState * list ScanTask)
    : option (ScanState * list ScanTask) :=
  match evs with
  | [] => Some sys
  | ev :: evs' => scanner_step ev sys ≫= scanner_run evs'
  end.

(* ================================================================= *)
(** ** Vote tally *)

Record TSpendVotingInfo := {
  VotingStartBlock : Z;
  VotingEndBlock : Z;
  YesVotes : Z;
  NoVotes : Z;
  EligibleVotes : Z;
  VotesCast : Z;
  QuorumRequired : Z;
  ApprovalRate : Q;
  TurnoutRate : Q;
  QuorumAchieved : bool;
  VotingComplete : bool;
  InMempool : bool;
  (** [None] is the zero [time.Time] *)
  VotingStartTime : option Z;
  VotingEndTime : option Z
}.

Record VoteParsingProgress := {
  IsParsing : bool;
  vpProgress : Q;
  CurrentBlock : Z;
  TotalBlocks : Z;
  vpYesVotes : Z;
  vpNoVotes : Z;
  EstimatedTime : Z;
  vpMessage : string
}.

Definition getBlockTimestamps (c : Ledger) (startHeight endHeight : Z)
    : option Z * option Z :=
  (GetBlockHash c startHeight ≫= getblockheader c,
   GetBlockHash c endHeight ≫= getblockheader c).

(** The statistics both tally functions derive from the counts; they
    differ in the number of blocks they pass ([blocks]). *)
Definition approvalRate_of (yesVotes votesCast : Z) : Q :=
  if votesCast >? 0
  then (float64_of_int yesVotes / float64_of_int votesCast * 100)%Q else 0%Q.

(** [int(float64(blocks) * 5)]: the product is exact, and the value is the
    code's, while it does not exceed 2^53 in magnitude. *)
Definition eligibleVotes_of (blocks : Z) : Z :=
  int_of_float64 (float64_of_int blocks * 5)%Q.

Definition turnoutRate_of (votesCast eligibleVotes : Z) : Q :=
  if eligibleVotes >? 0
  then (float64_of_int votesCast / float64_of_int eligibleVotes * 100)%Q else 0%Q.

Section Tally.
Variable EqualFold_unicode : string → string → bool.

(** The loop over the stake transactions of one block.  [None]: a panic
    inside [parseTSpendVote]. *)
Fixpoint count_stxs (c : Ledger) (txHash : string) (stxs : list string)
    (votes : Z * Z) : option (Z * Z) :=
  match stxs with
  | [] => Some votes
  | stxHash :: rest =>
      match getTransaction c stxHash with
      | None => count_stxs c txHash rest votes
      | Some tx =>
          if negb (isVoteTransaction tx) then count_stxs c txHash rest votes
          else
            vote ← parseTSpendVote EqualFold_unicode tx txHash;
            if decide (vote = "yes")
            then count_stxs c txHash rest (add64 votes.1 1, votes.2)
            else if decide (vote = "no")
            then count_stxs c txHash rest (votes.1, add64 votes.2 1)
            else count_stxs c txHash rest votes
      end
  end.

(** The body of the loop over heights, shared by the two tally functions:
    a block that cannot be fetched or decoded is skipped. *)
Definition count_block (c : Ledger) (txHash : string) (height : Z)
    (votes : Z * Z) : option (Z * Z) :=
  match GetBlockHash c height ≫= getblock c with
  | None => Some votes
  | Some block => count_stxs c txHash (STx block) votes
  end.

Fixpoint count_heights (c : Ledger) (txHash : string) (n : nat) (height : Z)
    (votes : Z * Z) : option (Z * Z) :=
  match n with
  | O => Some votes
  | S n' =>
      votes' ← count_block c txHash height votes;
      count_heights c txHash n' (height + 1) votes'
  end.

(** [countTSpendVotesInRange]; its error is always nil.  [None]: no
    return, by a panic or because [height++] wraps around at the largest
    [int64] and the loop never ends. *)
Definition countTSpendVotesInRange (c : Ledger) (txHash : string)
    (startHeight endHeight : Z) : option (Z * Z) :=
  let maxScanRange := 3000 in
  let startHeight :=
    if sub64 endHeight startHeight >? maxScanRange
    then sub64 endHeight maxScanRange else startHeight in
  if decide (startHeight ≤ endHeight ∧ endHeight = 2 ^ 63 - 1) then None
  else count_heights c txHash (Z.to_nat (endHeight - startHeight + 1)) startHeight (0, 0).

(** [calculateTSpendVotes], against one snapshot of the ledger.  [expiry]
    is a [uint32]. *)
Definition calculateTSpendVotes (client : option Ledger) (txHash : string)
    (blockHeight expiry : Z) (inMempool : bool)
    : option (option TSpendVotingInfo * error) :=
  match client with
  | None => Some (None, Some "dcrd client not available")
  | Some c =>
      match GetBlockCount c with
      | None => Some (None, Some "failed to get current height")
      | Some currentHeight =>
          let '(votingStartBlock, votingEndBlock, votingComplete) :=
            if inMempool then
              let s := sub64 currentHeight 2880 in
              (if s <? 0 then 0 else s, expiry, false)
            else
              let s := sub64 blockHeight 2880 in
              (if s <? TreasuryActivationHeight then TreasuryActivationHeight else s,
               blockHeight, true) in
          '(yesVotes, noVotes) ←
            countTSpendVotesInRange c txHash votingStartBlock votingEndBlock;
          let votesCast := add64 yesVotes noVotes in
          let approvalRate := approvalRate_of yesVotes votesCast in
          let eligibleVotes :=
            eligibleVotes_of (sub64 votingEndBlock votingStartBlock) in
          let turnoutRate := turnoutRate_of votesCast eligibleVotes in
          let quorumRequired := Z.quot eligibleVotes 5 in
          let quorumAchieved := votesCast >=? quorumRequired in
          let '(startTime, endTime) :=
            getBlockTimestamps c votingStartBlock votingEndBlock in
          Some (Some {| VotingStartBlock := votingStartBlock;
                        VotingEndBlock := votingEndBlock;
                        YesVotes := yesVotes;
                        NoVotes := noVotes;
                        EligibleVotes := eligibleVotes;
                        VotesCast := votesCast;
                        QuorumRequired := quorumRequired;
                        ApprovalRate := approvalRate;
                        TurnoutRate := turnoutRate;
                        QuorumAchieved := quorumAchieved;
                        VotingComplete := votingComplete;
                        InMempool := inMempool;
                        VotingStartTime := startTime;
                        VotingEndTime := endTime |},
                None)
      end
  end.

(** *** [calculateTSpendVotesAsync], step by step *)

(** The voting period and [totalBlocks], computed before the scan range
    is limited. *)
Definition async_window (blockHeight : Z) : Z * Z * Z :=
  let s := sub64 blockHeight 2880 in
  let votingStartBlock :=
    if s <? TreasuryActivationHeight then TreasuryActivationHeight else s in
  let votingEndBlock := blockHeight in
  let totalBlocks := add64 (sub64 votingEndBlock votingStartBlock) 1 in
  (votingStartBlock, votingEndBlock, totalBlocks).

(** The final result, built after the loop from its local variables. *)
Definition async_final (c : Ledger) (votingStartBlock votingEndBlock totalBlocks
    yesVotes noVotes : Z) : TSpendVotingInfo :=
  let votesCast := add64 yesVotes noVotes in
  let approvalRate := approvalRate_of yesVotes votesCast in
  let eligibleVotes := eligibleVotes_of totalBlocks in
  let turnoutRate := turnoutRate_of votesCast eligibleVotes in
  let quorumRequired := Z.quot eligibleVotes 5 in
  let quorumAchieved := votesCast >=? quorumRequired in
  let '(startTm, endTime) := getBlockTimestamps c votingStartBlock votingEndBlock in
  {| VotingStartBlock := votingStartBlock;
     VotingEndBlock := votingEndBlock;
     YesVotes := yesVotes;
     NoVotes := noVotes;
     EligibleVotes := eligibleVotes;
     VotesCast := votesCast;
     QuorumRequired := quorumRequired;
     ApprovalRate := approvalRate;
     TurnoutRate := turnoutRate;
     QuorumAchieved := quorumAchieved;
     VotingComplete := true;
     InMempool := false;
     VotingStartTime := startTm;
     VotingEndTime := endTime |}.

(** Where a tally goroutine stands, with its local variables
    ([votingStartBlock] after the range limit). *)
Inductive JobPc :=
  | JobStart
  | JobLoop (votingStartBlock votingEndBlock totalBlocks height yesVotes noVotes : Z)
  | JobProgressDone (votingEndBlock totalBlocks yesVotes noVotes : Z)
  | JobCleanup
  | JobEnded.

(** Where a call of [GetTSpendVotingInfo] stands. *)
Inductive CallPc :=
  | CallStart
  | CallCheckJobs
  | CallReadProgress
  | CallDecide (isJobRunning : bool)
  | CallReturned (result : option TSpendVotingInfo) (err : error).

Inductive Thread :=
  | Call (txHash : string) (blockHeight expiry : Z) (inMempool : bool) (pc : CallPc)
  | Job (txHash : string) (blockHeight : Z) (pc : JobPc).

(** The three maps, each behind its own mutex, and the goroutines. *)
Record Engine := {
  votingCache : gmap string TSpendVotingInfo;
  voteParsingProgress : gmap string VoteParsingProgress;
  parsingJobs : gmap string bool;
  threads : list Thread
}.

Definition engine_init : Engine :=
  {| votingCache := ∅; voteParsingProgress := ∅; parsingJobs := ∅; threads := [] |}.

Definition set_cache (e : Engine) (m : gmap string TSpendVotingInfo) : Engine :=
  {| votingCache := m; voteParsingProgress := voteParsingProgress e;
     parsingJobs := parsingJobs e; threads := threads e |}.

Definition set_progress (e : Engine) (m : gmap string VoteParsingProgress) : Engine :=
  {| votingCache := votingCache e; voteParsingProgress := m;
     parsingJobs := parsingJobs e; threads := threads e |}.

Definition set_jobs (e : Engine) (m : gmap string bool) : Engine :=
  {| votingCache := votingCache e; voteParsingProgress := voteParsingProgress e;
     parsingJobs := m; threads := threads e |}.

Definition set_threads (e : Engine) (l : list Thread) : Engine :=
  {| votingCache := votingCache e; voteParsingProgress := voteParsingProgress e;
     parsingJobs := parsingJobs e; threads := l |}.

(** One step of a tally goroutine: the code up to and including its next
    critical section.  [elapsed] stands for [time.Since(startTime)] in
    seconds.  The result is the next position and the engine; [None]: the
    goroutine has ended, or it panics. *)
Definition job_step (client : option Ledger) (elapsed : Q) (txHash : string)
    (blockHeight : Z) (pc : JobPc) (e : Engine) : option (JobPc * Engine) :=
  match pc with
  | JobStart =>
      match client with
      | None => Some (JobCleanup, e)
      | Some _ =>
          let '(votingStartBlock, votingEndBlock, totalBlocks) :=
            async_window blockHeight in
          let e' := set_progress e
            (<[txHash :=
                 {| IsParsing := true; vpProgress := 0;
                    CurrentBlock := votingStartBlock;
                    TotalBlocks := totalBlocks;
                    vpYesVotes := 0; vpNoVotes := 0;
                    EstimatedTime := Z.quot totalBlocks 10;
                    vpMessage := "Starting vote count..." |}]>
               (voteParsingProgress e)) in
          let maxScanRange := 3000 in
          let votingStartBlock :=
            if sub64 votingEndBlock votingStartBlock >? maxScanRange
            then sub64 votingEndBlock maxScanRange else votingStartBlock in
          Some (JobLoop votingStartBlock votingEndBlock totalBlocks
                  votingStartBlock 0 0, e')
      end
  | JobLoop votingStartBlock votingEndBlock totalBlocks height yesVotes noVotes =>
      c ← client;
      if height <=? votingEndBlock then
        match GetBlockHash c height ≫= getblock c with
        | None =>
            (* [continue]: the progress update below is skipped as well *)
            Some (JobLoop votingStartBlock votingEndBlock totalBlocks
                    (add64 height 1) yesVotes noVotes, e)
        | Some block =>
            '(yesVotes, noVotes) ←
              count_stxs c txHash (STx block) (yesVotes, noVotes);
            let e' :=
              if (Z.rem height 50 =? 0) || (height =? votingEndBlock) then
                let blocksProcessed := add64 (sub64 height votingStartBlock) 1 in
                let progress :=
                  (float64_of_int blocksProcessed / float64_of_int totalBlocks
                   * 100)%Q in
                let blocksRemaining := sub64 votingEndBlock height in
                let estimatedTime :=
                  if blocksProcessed >? 0 then
                    let timePerBlock :=
                      (elapsed / float64_of_int blocksProcessed)%Q in
                    int_of_float64
                      (float64_of_int blocksRemaining * timePerBlock)%Q
                  else 0 in
                set_progress e
                  (<[txHash :=
                       {| IsParsing := height <? votingEndBlock;
                          vpProgress := progress;
                          CurrentBlock := height;
                          TotalBlocks := totalBlocks;
                          vpYesVotes := yesVotes; vpNoVotes := noVotes;
                          EstimatedTime := estimatedTime;
                          vpMessage := "Scanning block " +:+ itoa height
                                       +:+ " of " +:+ itoa votingEndBlock
                                       +:+ "..." |}]>
                     (voteParsingProgress e))
              else e in
            Some (JobLoop votingStartBlock votingEndBlock totalBlocks
                    (add64 height 1) yesVotes noVotes, e')
        end
      else
        let finalResult :=
          async_final c votingStartBlock votingEndBlock totalBlocks
            yesVotes noVotes in
        Some (JobProgressDone votingEndBlock totalBlocks yesVotes noVotes,
              set_cache e (<[txHash := finalResult]> (votingCache e)))
  | JobProgressDone votingEndBlock totalBlocks yesVotes noVotes =>
      Some (JobCleanup,
            set_progress e
              (<[txHash :=
                   {| IsParsing := false; vpProgress := 100;
                      CurrentBlock := votingEndBlock;
                      TotalBlocks := totalBlocks;
                      vpYesVotes := yesVotes; vpNoVotes := noVotes;
                      EstimatedTime := 0;
                      vpMessage := "Vote counting complete" |}]>
                 (voteParsingProgress e)))
  | JobCleanup => Some (JobEnded, set_jobs e (delete txHash (parsingJobs e)))
  | JobEnded => None
  end.

(** One step of a call of [GetTSpendVotingInfo]: the next position, the
    engine, and the goroutine started by the [go] statement, if any.  The
    start block of the snapshot a call returns while a job publishes
    progress passes through a [float64] quotient and product; their
    rounding is not modelled, and the model's start block can differ from
    the code's by one. *)
Definition call_step (client : option Ledger) (txHash : string)
    (blockHeight expiry : Z) (inMempool : bool) (pc : CallPc) (e : Engine)
    : option (CallPc * Engine * list Thread) :=
  match pc with
  | CallStart =>
      if negb inMempool then
        match votingCache e !! txHash with
        | Some cached => Some (CallReturned (Some cached) None, e, [])
        | None => Some (CallCheckJobs, e, [])
        end
      else Some (CallCheckJobs, e, [])
  | CallCheckJobs =>
      let isJobRunning := default false (parsingJobs e !! txHash) in
      Some (if isJobRunning then CallReadProgress else CallDecide false, e, [])
  | CallReadProgress =>
      match voteParsingProgress e !! txHash with
      | Some progress =>
          Some (CallReturned
                  (Some {| VotingStartBlock :=
                             sub64 (CurrentBlock progress)
                               (int_of_float64
                                  (float64_of_int
                                     (add64 (sub64 (CurrentBlock progress) blockHeight) 2880)
                                   * (vpProgress progress / 100))%Q);
                           VotingEndBlock := blockHeight;
                           YesVotes := vpYesVotes progress;
                           NoVotes := vpNoVotes progress;
                           EligibleVotes := 0;
                           VotesCast := add64 (vpYesVotes progress) (vpNoVotes progress);
                           QuorumRequired := 0;
                           ApprovalRate := 0;
                           TurnoutRate := 0;
                           QuorumAchieved := false;
                           VotingComplete := negb (IsParsing progress);
                           InMempool := inMempool;
                           VotingStartTime := None;
                           VotingEndTime := None |})
                  None, e, [])
      | None => Some (CallDecide true, e, [])
      end
  | CallDecide isJobRunning =>
      if negb inMempool && negb isJobRunning then
        Some (CallReturned
                (Some {| VotingStartBlock := sub64 blockHeight 2880;
                         VotingEndBlock := blockHeight;
                         YesVotes := 0; NoVotes := 0; EligibleVotes := 0;
                         VotesCast := 0; QuorumRequired := 0;
                         ApprovalRate := 0; TurnoutRate := 0;
                         QuorumAchieved := false;
                         VotingComplete := false;
                         InMempool := inMempool;
                         VotingStartTime := None;
                         VotingEndTime := None |})
                None,
              set_jobs e (<[txHash := true]> (parsingJobs e)),
              [Job txHash blockHeight JobStart])
      else
        '(votingInfo, err) ←
          calculateTSpendVotes client txHash blockHeight expiry inMempool;
        Some (match err with
              | Some _ => CallReturned None err
              | None => CallReturned votingInfo None
              end, e, [])
  | CallReturned _ _ => None
  end.

(** What can happen next in the engine: a new call arrives, or the
    goroutine at position [n] takes one step, against the ledger as it
    answers at that moment. *)
Inductive EngineEvent :=
  | EvCall (txHash : string) (blockHeight expiry : Z) (inMempool : bool)
  | EvRun (n : nat) (client : option Ledger) (elapsed : Q).

Definition engine_step (ev : EngineEvent) (e : Engine) : option Engine :=
  match ev with
  | EvCall txHash blockHeight expiry inMempool =>
      Some (set_threads e
              (threads e ++ [Call txHash blockHeight expiry inMempool CallStart]))
  | EvRun n client elapsed =>
      t ← threads e !! n;
      match t with
      | Call txHash blockHeight expiry inMempool pc =>
          '(pc', e', spawned) ←
            call_step client txHash blockHeight expiry inMempool pc e;
          Some (set_threads e'
                  (<[n := Call txHash blockHeight expiry inMempool pc']> (threads e)
                   ++ spawned))
      | Job txHash blockHeight pc =>
          '(pc', e') ← job_step client elapsed txHash blockHeight pc e;
          Some (set_threads e' (<[n := Job txHash blockHeight pc']> (threads e)))
      end
  end.

Fixpoint engine_run (evs : list EngineEvent) (e : Engine) : option Engine :=
  match evs with
  | [] => Some e
  | ev :: evs' => engine_step ev e ≫= engine_run evs'
  end.

End Tally.

(** The tally goroutines of a hash that have started and not ended. *)
Definition is_active_job (txHash : string) (t : Thread) : bool :=
  match t with
  | Job h _ JobEnded => false
  | Job h _ _ => bool_decide (h = txHash)
  | Call _ _ _ _ _ => false
  end.

Definition active_jobs (txHash : string) (e : Engine) : list Thread :=
  List.filter (is_active_job txHash) (threads e).

(* ================================================================= *)
(** ** Calls served one at a time *)

(** A schedule in which every call of [GetTSpendVotingInfo] runs from its
    first step to its return without another call in between, while the
    tally goroutines take their steps at any time. *)
Section Serial.
Variable EqualFold_unicode : string → string → bool.

Fixpoint call_complete (fuel : nat) (client : option Ledger) (txHash : string)
    (blockHeight expiry : Z) (inMempool : bool) (pc : CallPc) (e : Engine)
    : option (CallPc * Engine * list Thread) :=
  match pc, fuel with
  | CallReturned _ _, _ => Some (pc, e, [])
  | _, O => None
  | _, S fuel' =>
      '(pc', e', spawned) ←
        call_step EqualFold_unicode client txHash blockHeight expiry inMempool pc e;
      '(pc'', e'', spawned') ←
        call_complete fuel' client txHash blockHeight expiry inMempool pc' e';
      Some (pc'', e'', spawned ++ spawned')
  end.

Inductive SerialEvent :=
  | SerialCall (txHash : string) (blockHeight expiry : Z) (inMempool : bool)
      (client : option Ledger)
  | SerialJob (n : nat) (client : option Ledger) (elapsed : Q).

Definition serial_step (ev : SerialEvent) (e : Engine) : option Engine :=
  match ev with
  | SerialCall txHash blockHeight expiry inMempool client =>
      '(pc, e', spawned) ←
        call_complete 4 client txHash blockHeight expiry inMempool CallStart e;
      Some (set_threads e'
              (threads e ++ Call txHash blockHeight expiry inMempool pc :: spawned))
  | SerialJob n client elapsed =>
      match threads e !! n with
      | Some (Job _ _ _) => engine_step EqualFold_unicode (EvRun n client elapsed) e
      | _ => None
      end
  end.

Fixpoint serial_run (evs : list SerialEvent) (e : Engine) : option Engine :=
  match evs with
  | [] => Some e
  | ev :: evs' => serial_step ev e ≫= serial_run evs'
  end.

End Serial.

(** A goroutine that has not ended, and one that has yet to reach its
    cache write. *)
Definition job_active (pc : JobPc) : bool :=
  match pc with JobEnded => false | _ => true end.

Definition writes_cache (pc : JobPc) : bool :=
  match pc with JobStart | JobLoop _ _ _ _ _ _ => true | _ => false end.

(** Single flight: a hash has at most one active tally goroutine, an
    active goroutine's hash is registered, and a hash in the cache has no
    goroutine with a cache write ahead of it. *)
Record single_flight (e : Engine) : Prop := {
  sf_unique : ∀ i j h bh bh' pc pc',
    threads e !! i = Some (Job h bh pc) → threads e !! j = Some (Job h bh' pc') →
    job_active pc = true → job_active pc' = true → i = j;
  sf_registered : ∀ i h bh pc,
    threads e !! i = Some (Job h bh pc) → job_active pc = true →
    parsingJobs e !! h = Some true;
  sf_cached : ∀ i h bh pc,
    threads e !! i = Some (Job h bh pc) → is_Some (votingCache e !! h) →
    writes_cache pc = false
}.

(** What a call knows at each of its positions: past the cache check of a
    confirmed spend the hash was not cached, and at the decision with
    [isJobRunning] false it was not registered. *)
Definition call_ok (h : string) (inM : bool) (pc : CallPc) (e : Engine) : Prop :=
  match pc with
  | CallCheckJobs => inM = false → votingCache e !! h = None
  | CallDecide false =>
      (inM = false → votingCache e !! h = None) ∧ parsingJobs e !! h ≠ Some true
  | _ => True
  end.

(** The outcome of a call, or of a step of it, on the engine [e]: nothing
    happens to the cache; and either nothing to the registry, or, the
    hash being neither cached nor registered, it is registered and one
    goroutine is started. *)
Definition call_outcome (h : string) (bh : Z) (e e' : Engine)
    (spawned : list Thread) : Prop :=
  votingCache e' = votingCache e ∧ threads e' = threads e ∧
  ((parsingJobs e' = parsingJobs e ∧ spawned = []) ∨
   (votingCache e !! h = None ∧ parsingJobs e !! h ≠ Some true ∧
    parsingJobs e' = <[h := true]> (parsingJobs e) ∧
    spawned = [Job h bh JobStart])).

(* ================================================================= *)
(** ** Wallet loader *)

(** [hex.DecodeString] (Go 1.21): the bytes decoded before the first
    fault, and the fault: a byte that is no hexadecimal digit, or, when
    all are digits, an odd length. *)
Inductive hex_error :=
  | ErrLength
  | InvalidByteError (b : ascii).

Fixpoint hex_DecodeString (s : string) : list Z * option hex_error :=
  match s with
  | EmptyString => ([], None)
  | String p EmptyString =>
      match hexval p with
      | None => ([], Some (InvalidByteError p))
      | Some _ => ([], Some ErrLength)
      end
  | String p (String q rest) =>
      match hexval p, hexval q with
      | None, _ => ([], Some (InvalidByteError p))
      | Some _, None => ([], Some (InvalidByteError q))
      | Some a, Some b =>
          let '(bs, err) := hex_DecodeString rest in
          (Z.lor (Z.shiftl a 4) b :: bs, err)
      end
  end.

(** What the wallet code does to the world, in order: the calls of the
    wallet's gRPC services, the goroutine that keeps the wallet in sync
    with dcrd, and the pauses. *)
Inductive effect :=
  | RpcWalletExists
  | RpcGenerateRandomSeed (seedLength : Z)
  | RpcCreateWallet (publicPass privatePass : string) (seed : list Z)
  | RpcOpenWallet (publicPass : string)
  | RpcCloseWallet
  | GoRpcSync (discoverAccounts : bool)
  | Sleep (milliseconds : Z).

(** The answers of the wallet's services at one moment.  An error is the
    text of its [Error()]. *)
Record WalletLoader := {
  rpc_WalletExists : string + bool;
  rpc_CreateWallet : string → string → list Z → option string;
  rpc_OpenWallet : string → option string;
  rpc_CloseWallet : option string
}.

Record SeedService := {
  (** the mnemonic and the hexadecimal seed *)
  rpc_GenerateRandomSeed : Z → string + (string * string)
}.

(** The body of a request to create a wallet, decoded. *)
Record CreateWalletRequest := {
  PublicPassphrase : string;
  PrivatePassphrase : string;
  SeedHex : string
}.

(** What a handler writes: [http.Error] with a status and a text, or a
    status and the JSON of a response. *)
Inductive response (A : Type) :=
  | HttpError (status : Z) (text : string)
  | Json (status : Z) (body : A).
Arguments HttpError {A} status text.
Arguments Json {A} status body.

(** [Success] and [Message] of [CreateWalletResponse] and of
    [OpenWalletResponse]. *)
Definition outcome : Type := bool * string.

Section WalletLoader.
(** The text of a [hex.InvalidByteError], which [fmt] prints with [%#U]. *)
Variable InvalidByteError_text : ascii → string.

Definition hex_error_text (e : hex_error) : string :=
  match e with
  | ErrLength => "encoding/hex: odd length hex string"
  | InvalidByteError b => InvalidByteError_text b
  end.

Definition CheckWalletExists (client : option WalletLoader)
    : option bool * error * list effect :=
  match client with
  | None => (None, Some "wallet loader client not initialized", [])
  | Some c =>
      match rpc_WalletExists c with
      | inl err =>
          (None, Some ("failed to check wallet existence: " +:+ err), [RpcWalletExists])
      | inr exists_ => (Some exists_, None, [RpcWalletExists])
      end
  end.

(** [seedLength] is a [uint32]. *)
Definition GenerateSeed (client : option SeedService) (seedLength : Z)
    : option (string * string) * error * list effect :=
  match client with
  | None => (None, Some "seed service client not initialized", [])
  | Some c =>
      let seedLength := if seedLength =? 0 then 33 else seedLength in
      match rpc_GenerateRandomSeed c seedLength with
      | inl err =>
          (None, Some ("failed to generate seed: " +:+ err),
           [RpcGenerateRandomSeed seedLength])
      | inr seed => (Some seed, None, [RpcGenerateRandomSeed seedLength])
      end
  end.

Definition CreateNewWallet (client : option WalletLoader)
    (publicPass privatePass seedHex : string) : error * list effect :=
  match client with
  | None => (Some "wallet loader client not initialized", [])
  | Some c =>
      match hex_DecodeString seedHex with
      | (_, Some err) => (Some ("invalid seed hex: " +:+ hex_error_text err), [])
      | (seedBytes, None) =>
          match rpc_CreateWallet c publicPass privatePass seedBytes with
          | Some err =>
              (Some ("failed to create wallet: " +:+ err),
               [RpcCreateWallet publicPass privatePass seedBytes])
          | None =>
              (None,
               [RpcCreateWallet publicPass privatePass seedBytes;
                GoRpcSync false; Sleep 100])
          end
      end
  end.

Definition OpenWallet (client : option WalletLoader) (publicPass : string)
    : error * list effect :=
  match client with
  | None => (Some "wallet loader client not initialized", [])
  | Some c =>
      match rpc_OpenWallet c publicPass with
      | Some err =>
          if Contains err "already opened"
          then (None, [RpcOpenWallet publicPass; GoRpcSync false; Sleep 100])
          else (Some ("failed to open wallet: " +:+ err), [RpcOpenWallet publicPass])
      | None => (None, [RpcOpenWallet publicPass; GoRpcSync false; Sleep 100])
      end
  end.

Definition CloseWallet (client : option WalletLoader) : error * list effect :=
  match client with
  | None => (Some "wallet loader client not initialized", [])
  | Some c =>
      match rpc_CloseWallet c with
      | Some err => (Some ("failed to close wallet: " +:+ err), [RpcCloseWallet])
      | None => (None, [RpcCloseWallet])
      end
  end.

(** [OpenWalletWithRetry]: the loop [for i := 0; i < maxRetries; i++],
    with [clients i] the wallet client as it answers at the attempt
    [i]. *)
Fixpoint OpenWalletWithRetry_loop (clients : nat → option WalletLoader)
    (publicPass : string) (maxRetries : Z) (fuel : nat) (i : nat)
    : error * list effect :=
  match fuel with
  | O => (None, [])
  | S fuel' =>
      let '(err, effects) := OpenWallet (clients i) publicPass in
      match err with
      | None => (None, effects)
      | Some msg =>
          if Z.of_nat i <? maxRetries - 1 then
            let '(err', effects') :=
              OpenWalletWithRetry_loop clients publicPass maxRetries fuel' (S i) in
            (err', effects ++ Sleep 2000 :: effects')
          else
            (Some ("failed to open wallet after " +:+ itoa maxRetries
                   +:+ " attempts: " +:+ msg),
             effects)
      end
  end.

Definition OpenWalletWithRetry (clients : nat → option WalletLoader)
    (publicPass : string) (maxRetries : Z) : error * list effect :=
  OpenWalletWithRetry_loop clients publicPass maxRetries (Z.to_nat maxRetries) 0.

(** *** The handlers of the wallet loader *)

Definition WalletExistsHandler (client : option WalletLoader)
    : response (option bool) * list effect :=
  match CheckWalletExists client with
  | (_, Some err, effects) => (HttpError 500 err, effects)
  | (resp, None, effects) => (Json 200 resp, effects)
  end.

(** [req] is the decoded request body, [None] when it cannot be decoded;
    for this handler it is the [seedLength] of the request, zero when the
    field is left out. *)
Definition GenerateSeedHandler (client : option SeedService) (req : option Z)
    : response (option (string * string)) * list effect :=
  let seedLength := default 33 req in
  match GenerateSeed client seedLength with
  | (_, Some err, effects) => (HttpError 500 err, effects)
  | (resp, None, effects) => (Json 200 resp, effects)
  end.

Definition CreateWalletHandler (client : option WalletLoader)
    (req : option CreateWalletRequest) : response outcome * list effect :=
  match req with
  | None => (HttpError 400 "Invalid request body", [])
  | Some req =>
      if decide (PrivatePassphrase req = "")
      then (HttpError 400 "Private passphrase is required", [])
      else if decide (SeedHex req = "")
      then (HttpError 400 "Seed is required", [])
      else
        match CreateNewWallet client (PublicPassphrase req) (PrivatePassphrase req)
                (SeedHex req) with
        | (Some err, effects) => (Json 500 (false, err), effects)
        | (None, effects) => (Json 200 (true, "Wallet created successfully"), effects)
        end
  end.

Definition OpenWalletHandler (client : option WalletLoader) (req : option string)
    : response outcome * list effect :=
  match req with
  | None => (HttpError 400 "Invalid request body", [])
  | Some publicPassphrase =>
      match OpenWallet client publicPassphrase with
      | (Some err, effects) => (Json 401 (false, err), effects)
      | (None, effects) => (Json 200 (true, "Wallet opened successfully"), effects)
      end
  end.

End WalletLoader.

(* ================================================================= *)
(** ** Vocabulary of the statements *)

(** A string of hexadecimal digits (either case) read as bytes, two digits
    each. *)
Fixpoint hex_decode (s : string) : option (list Z) :=
  match s with
  | EmptyString => Some []
  | String a (String b r) =>
      x ← hexval a; y ← hexval b; bs ← hex_decode r; Some (16 * x + y :: bs)
  | String _ EmptyString => None
  end.

(** Go's [hex.EncodeToString]: two lower-case digits per byte. *)
Definition hex_digit (n : Z) : ascii := chr (if n <? 10 then 48 + n else 87 + n).

Fixpoint hex_encode (bs : list Z) : string :=
  match bs with
  | [] => EmptyString
  | b :: r => String (hex_digit (b `div` 16)) (String (hex_digit (b `mod` 16)) (hex_encode r))
  end.

(** The byte pairs of a list, last pair first. *)
Fixpoint rev_pairs (l : list ascii) : list ascii :=
  match l with
  | a :: b :: r => rev_pairs r ++ [a; b]
  | _ => []
  end.

(** The four vote choices and their two-bit encoding. *)
Inductive choice := Abstain | Yes | No | Invalid.

Definition choice_bits (c : choice) : Z :=
  match c with Abstain => 0 | Yes => 1 | No => 2 | Invalid => 3 end.

Definition choice_label (c : choice) : string :=
  match c with
  | Abstain => "abstain" | Yes => "yes" | No => "no" | Invalid => "invalid"
  end.

Definition vote_labels : list string :=
  ["yes"; "no"; "abstain"; "invalid"; "unknown"].

(** All 256 bytes, for properties of single bytes settled by enumeration. *)
Definition all_bytes : list ascii := (λ n, chr (Z.of_nat n)) <$> seq 0 256.

(** Two ASCII bytes that [EqualFold] lets pass: equal, or the same letter
    in the two cases. *)
Definition same_letter (sr tr : ascii) : bool :=
  (code tr =? code sr) ||
  let lo := Z.min (code sr) (code tr) in
  let hi := Z.max (code sr) (code tr) in
  (65 <=? lo) && (lo <=? 90) && (hi =? lo + 32).

(** [w] occurs in [s] up to the case of the letters A-Z: [s] has a
    substring as long as [w] that agrees with it byte by byte, two bytes
    agreeing when they are equal or are the two cases of one letter. *)
Definition contains_nocase (s w : string) : Prop :=
  ∃ pre mid post, s = pre +:+ mid +:+ post ∧
    Forall2 (λ a b, same_letter a b = true) (bytes mid) (bytes w).

(** The two signals of the spend detector. *)
Definition input_marker (tx : gmap string json) : Prop :=
  ∃ vin i vinMap,
    tx !! "vin" = Some (JArr vin) ∧ vin !! i = Some (JObj vinMap) ∧
    is_Some (vinMap !! "treasuryspend").

Definition treasurygen_output (tx : gmap string json) : Prop :=
  ∃ vout i voutMap scriptPubKey scriptType,
    tx !! "vout" = Some (JArr vout) ∧ vout !! i = Some (JObj voutMap) ∧
    voutMap !! "scriptPubKey" = Some (JObj scriptPubKey) ∧
    scriptPubKey !! "type" = Some (JStr scriptType) ∧
    contains_nocase scriptType "treasurygen".

Definition version_is_3 (tx : gmap string json) : Prop :=
  ∃ v, tx !! "version" = Some (JNum v) ∧ (v == 3)%Q.

(** A version-3 transaction without inputs whose only output has a script
    type that spells the word in mixed case. *)
Definition mixed_case_output : json :=
  JObj {[ "scriptPubKey" := JObj {[ "type" := JStr "TreasuryGen-PubKeyHash" ]} ]}.

Definition mixed_case_tx : gmap string json :=
  <["version" := JNum 3]> {[ "vout" := JArr [mixed_case_output] ]}.

(** Sample data for the closed instances below: a target hash, a vote
    payload for it with choice yes, and a data-carrying output holding
    that payload. *)
Definition sample_hash : string :=
  "201f1e1d1c1b1a191817161514131211100f0e0d0c0b0a090807060504030201".

Definition sample_hash_bytes : list Z :=
  [32; 31; 30; 29; 28; 27; 26; 25; 24; 23; 22; 21; 20; 19; 18; 17;
   16; 15; 14; 13; 12; 11; 10; 9; 8; 7; 6; 5; 4; 3; 2; 1].

Definition sample_payload : string :=
  "6a2354530102030405060708090a0b0c0d0e0f101112131415161718191a1b1c1d1e1f2001".

Definition sample_vote_output : json :=
  JObj {[ "scriptPubKey" :=
            JObj (<["type" := JStr "nulldata"]> {[ "hex" := JStr sample_payload ]}) ]}.

Definition ascii_only : string → string → bool := λ _ _, false.

(** A ledger that answers nothing but the chain height. *)
Definition ledger_at (height : Z) : Ledger :=
  {| GetBlockCount := Some height;
     GetBlockHash := λ _, None;
     getblock := λ _, None;
     getrawtransaction := λ _, None;
     getrawmempool := None;
     getblockheader := λ _, None;
     GetTreasuryBalance := None |}.

(** A ledger whose mempool lists one transaction that cannot be fetched. *)
Definition unfetchable_mempool : Ledger :=
  {| GetBlockCount := Some 560000;
     GetBlockHash := λ _, None;
     getblock := λ _, None;
     getrawtransaction := λ _, None;
     getrawmempool := Some (Some {[ "a" := JObj ∅ ]});
     getblockheader := λ _, None;
     GetTreasuryBalance := None |}.

(** A scan triggered above the chain tip, run to its end. *)
Definition overshoot_events : list ScanEvent :=
  [EvTrigger 2000000; EvStep 0 (Some (ledger_at 900000));
   EvStep 0 (Some (ledger_at 900000))].

Definition overshoot_state : ScanState :=
  {| isScanRunning := false; currentScanHeight := 2000000;
     totalScanHeight := 900000; tspendFoundCount := 0;
     scanResults := SOf []; newTSpendBuffer := SOf [] |}.

(** A vote transaction (stakebase input, two outputs) carrying a payload. *)
Definition vote_tx (payload : string) : gmap string json :=
  <["vin" := JArr [JObj {[ "stakebase" := JStr "0000" ]}]]>
    {[ "vout" :=
         JArr [JObj ∅;
               JObj {[ "scriptPubKey" :=
                         JObj (<["type" := JStr "nulldata"]>
                                 {[ "hex" := JStr payload ]}) ]}] ]}.

Definition sample_payload_no : string :=
  "6a2354530102030405060708090a0b0c0d0e0f101112131415161718191a1b1c1d1e1f2002".

(** The example of the specification: chain tip 560000, and in the window
    [557120, 560000] one thousand blocks with one yes vote each, then five
    hundred with one no vote each. *)
Definition example_ledger : Ledger :=
  {| GetBlockCount := Some 560000;
     GetBlockHash := λ h,
       Some (if (557120 <=? h) && (h <? 558120) then "Y"
             else if (558120 <=? h) && (h <? 558620) then "N" else "E");
     getblock := λ hash,
       Some {| Hash := hash; Height := 0; Time := 0; Tx := [];
               STx := if decide (hash = "Y") then ["y"]
                      else if decide (hash = "N") then ["n"] else [] |};
     getrawtransaction := λ txid,
       if decide (txid = "y") then Some (vote_tx sample_payload)
       else if decide (txid = "n") then Some (vote_tx sample_payload_no)
       else None;
     getrawmempool := None;
     getblockheader := λ _, None;
     GetTreasuryBalance := None |}.

(** What the synchronous tally returns on that ledger for the confirmed
    spend at height 560000 (the path a call takes when a job is registered
    and has not yet published progress). *)
Definition example_sync_tally : TSpendVotingInfo :=
  {| VotingStartBlock := 557120; VotingEndBlock := 560000;
     YesVotes := 1000; NoVotes := 500;
     EligibleVotes := 14400; VotesCast := 1500; QuorumRequired := 2880;
     ApprovalRate := 100000 # 1500; TurnoutRate := 150000 # 14400;
     QuorumAchieved := false; VotingComplete := true; InMempool := false;
     VotingStartTime := None; VotingEndTime := None |}.

(** A ledger with the single block 552448, holding one yes vote or none. *)
Definition floor_ledger (voted : bool) : Ledger :=
  {| GetBlockCount := Some 552448;
     GetBlockHash := λ h, if decide (h = 552448) then Some "B" else None;
     getblock := λ hash,
       Some {| Hash := hash; Height := 552448; Time := 0; Tx := [];
               STx := if voted then ["y"] else [] |};
     getrawtransaction := λ txid,
       if decide (txid = "y") then Some (vote_tx sample_payload) else None;
     getrawmempool := None;
     getblockheader := λ _, None;
     GetTreasuryBalance := None |}.

(** Two calls for the same confirmed spend, interleaved: both miss the
    cache, both read [parsingJobs] before either writes it, and both
    register and start a goroutine. *)
Definition race_events : list EngineEvent :=
  [EvCall sample_hash 552448 0 false; EvCall sample_hash 552448 0 false;
   EvRun 0 None 0%Q; EvRun 1 None 0%Q;
   EvRun 0 None 0%Q; EvRun 1 None 0%Q;
   EvRun 0 None 0%Q; EvRun 1 None 0%Q].

(** The first goroutine (thread 2) runs to its cache write while the
    block holds a yes vote. *)
Definition first_job_events : list EngineEvent :=
  replicate 3 (EvRun 2 (Some (floor_ledger true)) 0%Q).

(** A third call reads the cache; then the second goroutine (thread 3)
    runs to its cache write after the block has changed; then a fourth
    call reads the cache. *)
Definition third_call_events : list EngineEvent :=
  [EvCall sample_hash 552448 0 false; EvRun 4 None 0%Q].

Definition second_job_events : list EngineEvent :=
  replicate 3 (EvRun 3 (Some (floor_ledger false)) 0%Q).

Definition fourth_call_events : list EngineEvent :=
  [EvCall sample_hash 552448 0 false; EvRun 5 None 0%Q].

Definition tally_of (yesVotes : Z) : TSpendVotingInfo :=
  {| VotingStartBlock := 552448; VotingEndBlock := 552448;
     YesVotes := yesVotes; NoVotes := 0; EligibleVotes := 5;
     VotesCast := yesVotes; QuorumRequired := 1;
     ApprovalRate := approvalRate_of yesVotes yesVotes;
     TurnoutRate := turnoutRate_of yesVotes 5;
     QuorumAchieved := yesVotes >=? 1;
     VotingComplete := true; InMempool := false;
     VotingStartTime := None; VotingEndTime := None |}.

(** What a call has returned, if it has. *)
Definition returned (t : Thread) : option (option TSpendVotingInfo * error) :=
  match t with
  | Call _ _ _ _ (CallReturned result err) => Some (result, err)
  | _ => None
  end.

(** After the events [evs] from the initial engine: the cache entry of
    the sample hash and what the call at position [n] has returned. *)
Definition cache_and_answer (evs : list EngineEvent) (n : nat)
    : option (option TSpendVotingInfo * option (option TSpendVotingInfo * error)) :=
  e ← engine_run ascii_only evs engine_init;
  Some (votingCache e !! sample_hash, threads e !! n ≫= returned).

(** An output that carries a vote: a data-carrying ("nulldata") output
    whose script decodes to [label] for the target hash. *)
Definition vote_output (f : string → string → bool) (output : json)
    (tspendHash label : string) : Prop :=
  ∃ voutMap scriptPubKey hexData,
    output = JObj voutMap ∧
    voutMap !! "scriptPubKey" = Some (JObj scriptPubKey) ∧
    scriptPubKey !! "type" = Some (JStr "nulldata") ∧
    scriptPubKey !! "hex" = Some (JStr hexData) ∧
    parseVoteBitsForTSpend f hexData tspendHash = Some label.

(** What one output contributes to a spend record: its numeric "value",
    and the first of its addresses when that is a string. *)
Definition output_value (v : json) : Q :=
  match v with
  | JObj voutMap => default 0%Q (as_float64 (voutMap !! "value"))
  | _ => 0%Q
  end.

Definition output_payee (v : json) : option string :=
  match v with
  | JObj voutMap =>
      match voutMap !! "scriptPubKey" with
      | Some (JObj scriptPubKey) =>
          match scriptPubKey !! "addresses" with
          | Some (JArr (JStr addr :: _)) => Some addr
          | _ => None
          end
      | _ => None
      end
  | _ => None
  end.

(** The record the mempool probe makes of one mempool entry, if any: the
    transaction can be fetched and is a treasury spend. *)
Definition mempool_spend (c : Ledger) (currentHeight : Z) (txHash : string)
    : option TSpend :=
  tx ← getTransaction c txHash;
  if isTreasurySpend tx then Some (extractTSpendInfo tx currentHeight) else None.

(** A scanner goroutine that has not ended. *)
Definition scan_active (task : ScanTask) : bool :=
  match task with ScanDone => false | _ => true end.

(** The spends handed out by the progress reads of a run, in order. *)
Fixpoint scanner_polls (evs : list ScanEvent) (sys : ScanState * list ScanTask)
    : list TSpendHistory :=
  match evs with
  | [] => []
  | ev :: evs' =>
      match ev with
      | EvProgress => elems (NewTSpends (GetScanProgress sys.1).1)
      | _ => []
      end ++
      match scanner_step ev sys with
      | Some sys' => scanner_polls evs' sys'
      | None => []
      end
  end.

Definition is_trigger (ev : ScanEvent) : bool :=
  match ev with EvTrigger _ => true | _ => false end.

(** Heights as the program can meet them: a start height is an [int64],
    and the chain height a ledger reports is below the largest one. *)
Definition event_in_range (ev : ScanEvent) : Prop :=
  match ev with
  | EvTrigger startHeight => startHeight < 2 ^ 63
  | EvStep _ (Some c) =>
      match GetBlockCount c with Some tip => tip < 2 ^ 63 - 1 | None => True end
  | _ => True
  end.

(** The heights a scanner goroutine carries lie between the activation
    height and the height it scans up to. *)
Definition task_in_range (task : ScanTask) : Prop :=
  match task with
  | ScanStart startHeight => TreasuryActivationHeight ≤ startHeight < 2 ^ 63
  | ScanHeight h currentHeight =>
      TreasuryActivationHeight ≤ h < 2 ^ 63 ∧ currentHeight < 2 ^ 63 - 1
  | ScanBlock h currentHeight | ScanTxs h currentHeight _ _ =>
      TreasuryActivationHeight ≤ h ≤ currentHeight ∧ currentHeight < 2 ^ 63 - 1
  | ScanDone => True
  end.

Definition heights_inv (sys : ScanState * list ScanTask) : Prop :=
  Forall task_in_range sys.2 ∧ totalScanHeight sys.1 < 2 ^ 63 ∧
  ((sys.2 = [] ∧ totalScanHeight sys.1 = 0) ∨
   TreasuryActivationHeight ≤ currentScanHeight sys.1 < 2 ^ 63).

(** What holds of the scanner after every run from its initial state:
    the running flag counts the active goroutines, the found counter
    counts the results, and the buffer is a tail of the results. *)
Definition scanner_inv (sys : ScanState * list ScanTask) : Prop :=
  length (List.filter scan_active sys.2)
    = (if isScanRunning sys.1 then 1%nat else 0%nat) ∧
  tspendFoundCount sys.1 = wrap64 (Z.of_nat (length (elems (scanResults sys.1)))) ∧
  ∃ delivered, elems (scanResults sys.1) = delivered ++ elems (newTSpendBuffer sys.1).

(** A goroutine of the scanner run on its own for [k] steps against a
    ledger that does not change. *)
Fixpoint scan_steps (client : option Ledger) (k : nat) (x : ScanTask * ScanState)
    : option (ScanTask * ScanState) :=
  match k with
  | O => Some x
  | S k' => scan_step client x.1 x.2 ≫= scan_steps client k'
  end.

(** The spends of a ledger, as the scanner records them: those of one
    transaction, of the block at one height (regular transactions before
    stake transactions), and of [n] heights from [start] on. *)
Definition tx_find (c : Ledger) (block : Block) (txHash : string)
    : option TSpendHistory :=
  tx ← getTransaction c txHash;
  if isTreasurySpend tx
  then Some (extractTSpendHistory tx (Height block) (Hash block) (Time block))
  else None.

Definition block_finds (c : Ledger) (h : Z) : list TSpendHistory :=
  match GetBlockHash c h ≫= getblock c with
  | None => []
  | Some block => omap (tx_find c block) (Tx block ++ STx block)
  end.

Fixpoint range_finds (c : Ledger) (start : Z) (n : nat) : list TSpendHistory :=
  match n with
  | O => []
  | S n' => block_finds c start ++ range_finds c (start + 1) n'
  end.

(** A scan state whose lists are not nil and whose counter is [n]. *)
Definition scanning (running : bool) (cur total : Z) (n : nat)
    (results buffer : list TSpendHistory) : ScanState :=
  {| isScanRunning := running; currentScanHeight := cur; totalScanHeight := total;
     tspendFoundCount := wrap64 (Z.of_nat n);
     scanResults := SOf results; newTSpendBuffer := SOf buffer |}.

(** A treasury spend paying 100 coins, and a ledger of height 552449
    whose block 552449 holds it between two other transactions. *)
Definition spend_tx : gmap string json :=
  <["txid" := JStr "s"]>
    (<["vin" := JArr [JObj {[ "treasuryspend" := JStr "c1" ]}]]>
       {[ "vout" :=
            JArr [JObj (<["value" := JNum 100]>
                          {[ "scriptPubKey" :=
                               JObj {[ "addresses" := JArr [JStr "Dsa"] ]} ]})] ]}).

Definition spend_ledger : Ledger :=
  {| GetBlockCount := Some 552449;
     GetBlockHash := λ h, if decide (h = 552449) then Some "B" else None;
     getblock := λ hash,
       Some {| Hash := hash; Height := 552449; Time := 1620000000;
               Tx := ["a"; "s"]; STx := ["y"] |};
     getrawtransaction := λ txid,
       if decide (txid = "s") then Some spend_tx
       else if decide (txid = "y") then Some (vote_tx sample_payload)
       else None;
     getrawmempool := Some (Some {[ "s" := JObj ∅ ]});
     getblockheader := λ _, Some 1620000000;
     GetTreasuryBalance := Some 75000000000000 |}.

Definition spend_record : TSpendHistory :=
  {| hTxHash := "s"; hAmount := 0 + 100; hPayee := "Dsa"; hBlockHeight := 552449;
     hBlockHash := "B"; hTimestamp := 1620000000; hVoteResult := "approved" |}.

(** A scan of [spend_ledger] from the state a trigger leaves, with one
    progress read after the find, and where it ends. *)
Definition delivery_start : ScanState * list ScanTask :=
  (scanning true 552449 0 0 [] [], [ScanStart 552449]).

Definition delivery_events : list ScanEvent :=
  replicate 6 (EvStep 0 (Some spend_ledger)) ++ [EvProgress]
    ++ replicate 2 (EvStep 0 (Some spend_ledger)).

Definition delivery_end : ScanState * list ScanTask :=
  (scanning false 552449 552449 1 [spend_record] [], [ScanDone]).

(** How the tally reads one stake transaction: the label of its vote on
    the spend, "unknown" when it cannot be fetched or is no vote. *)
Definition stx_vote (f : string → string → bool) (c : Ledger)
    (txHash stxHash : string) : string :=
  match getTransaction c stxHash with
  | Some tx =>
      if isVoteTransaction tx then default "unknown" (parseTSpendVote f tx txHash)
      else "unknown"
  | None => "unknown"
  end.

(** The number of stake transactions among [stxs] read as [label]. *)
Definition votes_for (f : string → string → bool) (c : Ledger)
    (txHash label : string) (stxs : list string) : Z :=
  Z.of_nat (length (List.filter (λ stx, bool_decide (stx_vote f c txHash stx = label)) stxs)).

(** The stake transactions of the blocks at [n] heights from [start] on
    that can be fetched. *)
Definition block_stxs (c : Ledger) (h : Z) : list string :=
  match GetBlockHash c h ≫= getblock c with
  | Some block => STx block
  | None => []
  end.

Fixpoint range_stxs (c : Ledger) (start : Z) (n : nat) : list string :=
  match n with
  | O => []
  | S n' => block_stxs c start ++ range_stxs c (start + 1) n'
  end.

(** A tally goroutine run on its own against a ledger that does not
    change, one step for each of the elapsed times read. *)
Fixpoint job_steps (f : string → string → bool) (client : option Ledger)
    (els : list Q) (txHash : string) (blockHeight : Z) (x : JobPc * Engine)
    : option (JobPc * Engine) :=
  match els with
  | [] => Some x
  | elapsed :: els' =>
      job_step f client elapsed txHash blockHeight x.1 x.2
        ≫= job_steps f client els' txHash blockHeight
  end.

(** The progress record a finished goroutine leaves. *)
Definition progress_complete (votingEndBlock totalBlocks yesVotes noVotes : Z)
    : VoteParsingProgress :=
  {| IsParsing := false; vpProgress := 100; CurrentBlock := votingEndBlock;
     TotalBlocks := totalBlocks; vpYesVotes := yesVotes; vpNoVotes := noVotes;
     EstimatedTime := 0; vpMessage := "Vote counting complete" |}.

(** The voting period the synchronous tally scans, by the chain height
    it reads: for a spend in the mempool the last 2880 blocks up to the
    expiry, for a confirmed spend the 2880 blocks before its block, not
    below the activation height. *)
Definition sync_window (tip blockHeight expiry : Z) (inMempool : bool) : Z * Z :=
  if inMempool then (Z.max 0 (tip - 2880), expiry)
  else (Z.max TreasuryActivationHeight (blockHeight - 2880), blockHeight).

(** The placeholder a first call for a confirmed spend returns while the
    count runs in the background. *)
Definition tally_placeholder (blockHeight : Z) : TSpendVotingInfo :=
  {| VotingStartBlock := sub64 blockHeight 2880; VotingEndBlock := blockHeight;
     YesVotes := 0; NoVotes := 0; EligibleVotes := 0; VotesCast := 0;
     QuorumRequired := 0; ApprovalRate := 0; TurnoutRate := 0;
     QuorumAchieved := false; VotingComplete := false; InMempool := false;
     VotingStartTime := None; VotingEndTime := None |}.

(** The engine after two racing calls and the run of the first of their
    goroutines to its cache write, on a block that holds a yes vote; and
    the engine after the second goroutine has then run to its cache
    write, on a block that holds none. *)
Definition evict_start : Engine :=
  default engine_init
    (engine_run ascii_only (race_events ++ first_job_events) engine_init).

Definition evict_end : Engine :=
  default engine_init (engine_run ascii_only second_job_events evict_start).

(** Where a call for a spend in the mempool ends when run on its own. *)
Definition mempool_call_pc : CallPc :=
  (default (CallStart, engine_init, [])
     (call_complete ascii_only 4 (Some (ledger_at 560000)) sample_hash 0 560100 true
        CallStart engine_init)).1.1.

(** The attempt [i] of [OpenWalletWithRetry]: what [OpenWallet] returns
    and does then. *)
Definition attempt (clients : nat → option WalletLoader) (publicPass : string)
    (i : nat) : error * list effect :=
  OpenWallet (clients i) publicPass.

(** A wallet client that refuses to open, one that opens, and a schedule
    of clients that opens at the third attempt. *)
Definition wallet_answering (open : option string) : WalletLoader :=
  {| rpc_WalletExists := inr true;
     rpc_CreateWallet := λ _ _ _, None;
     rpc_OpenWallet := λ _, open;
     rpc_CloseWallet := None |}.

Definition third_time_lucky (i : nat) : option WalletLoader :=
  match i with
  | 0%nat => None
  | 1%nat => Some (wallet_answering (Some "wallet not ready"))
  | _ => Some (wallet_answering (Some "wallet already opened"))
  end.

(* ================================================================= *)
(** * Properties *)

(** Division and remainder by constants, on [nat] and [Z], are linear. *)
Ltac Zify.zify_post_hook ::= Z.div_mod_to_equations.

(* ----------------------------------------------------------------- *)
(** *** Strings *)

Lemma len_app (s t : string) : len (s +:+ t) = (len s + len t)%nat.
Proof. induction s as [|c s IH]; simpl; [done | by rewrite IH]. Qed.

Lemma length_bytes (s : string) : length (bytes s) = len s.
Proof. induction s as [|c s IH]; simpl; [done | by rewrite IH]. Qed.

Lemma of_bytes_app (l k : list ascii) :
  of_bytes (l ++ k) = of_bytes l +:+ of_bytes k.
Proof. induction l as [|c l IH]; simpl; [done | by rewrite IH]. Qed.

Lemma str_app_cons (c : ascii) (s t : string) :
  String c s +:+ t = String c (s +:+ t).
Proof. done. Qed.

Lemma str_app_assoc (s t u : string) : (s +:+ t) +:+ u = s +:+ t +:+ u.
Proof.
  induction s as [|c s IH]; [done |].
  by rewrite !str_app_cons, IH.
Qed.

Lemma slice_from_is_Some (lo : nat) (s : string) :
  (lo ≤ len s)%nat → ∃ t, slice_from lo s = Some t ∧ len t = (len s - lo)%nat.
Proof.
  revert s. induction lo as [|lo IH]; intros s Hlo.
  - exists s. split; [done | simpl; lia].
  - destruct s as [|c s]; simpl in *; [lia |].
    apply IH. lia.
Qed.

Lemma slice_to_is_Some (hi : nat) (s : string) :
  (hi ≤ len s)%nat → ∃ t, slice_to hi s = Some t ∧ len t = hi.
Proof.
  revert s. induction hi as [|hi IH]; intros s Hhi.
  - by exists EmptyString.
  - destruct s as [|c s]; simpl in *; [lia |].
    destruct (IH s) as (t & -> & Ht); [lia |].
    exists (String c t). split; [done | simpl; by rewrite Ht].
Qed.

Lemma slice_is_Some (lo hi : nat) (s : string) :
  (lo ≤ hi ≤ len s)%nat → ∃ t, slice lo hi s = Some t ∧ len t = (hi - lo)%nat.
Proof.
  intros [Hlo Hhi]. unfold slice.
  destruct (slice_to_is_Some hi s Hhi) as (t & -> & Ht). simpl.
  destruct (slice_from_is_Some lo t) as (u & -> & Hu); [lia |].
  exists u. split; [done | lia].
Qed.

Lemma slice_from_app (s t : string) : slice_from (len s) (s +:+ t) = Some t.
Proof. induction s as [|c s IH]; simpl; [by destruct t | done]. Qed.

Lemma slice_to_app (s t : string) : slice_to (len s) (s +:+ t) = Some s.
Proof. induction s as [|c s IH]; simpl; [done | by rewrite IH]. Qed.

(* ----------------------------------------------------------------- *)
(** *** Single bytes *)

Lemma chr_code (c : ascii) : chr (code c) = c.
Proof. unfold chr, code. by rewrite N2Z.id, ascii_N_embedding. Qed.

Lemma code_range (c : ascii) : 0 ≤ code c < 256.
Proof.
  unfold code. pose proof (N_ascii_bounded c). lia.
Qed.

Lemma elem_of_all_bytes (c : ascii) : c ∈ all_bytes.
Proof.
  unfold all_bytes. apply list_elem_of_fmap.
  exists (Z.to_nat (code c)). pose proof (code_range c). split.
  - by rewrite Z2Nat.id, chr_code by lia.
  - apply elem_of_seq. lia.
Qed.

Lemma forall_bytes (P : ascii → bool) :
  forallb P all_bytes = true → ∀ c, P c = true.
Proof.
  intros H c. rewrite forallb_forall in H.
  apply H, list_elem_of_In, elem_of_all_bytes.
Qed.

Lemma forall_bytes2 (P : ascii → ascii → bool) :
  forallb (λ a, forallb (P a) all_bytes) all_bytes = true → ∀ a b, P a b = true.
Proof.
  intros H a b.
  apply (forall_bytes (P a)), (forall_bytes (λ a, forallb (P a) all_bytes) H).
Qed.

(* ----------------------------------------------------------------- *)
(** *** [reverseHexBytes] reverses the byte pairs *)

Lemma list_pair_ind {A} (P : list A → Prop) :
  P [] → (∀ a, P [a]) → (∀ a b l, P l → P (a :: b :: l)) → ∀ l, P l.
Proof.
  intros H0 H1 H2 l.
  cut (P l ∧ ∀ a, P (a :: l)); [by intros [? _] |].
  induction l as [|a l [IH1 IH2]]; split; auto.
Qed.

Lemma length_rev_pairs (l : list ascii) :
  (length l `mod` 2 = 0)%nat → length (rev_pairs l) = length l.
Proof.
  induction l as [|a|a b l IH] using list_pair_ind; intros Hev.
  - done.
  - done.
  - simpl rev_pairs. rewrite length_app. simpl length in *.
    rewrite IH; lia.
Qed.

Lemma store_lt (i : nat) (c : ascii) (b : list ascii) :
  (i < length b)%nat → store i c b = Some (<[i:=c]> b).
Proof. intros Hi. unfold store. by rewrite decide_True. Qed.

Lemma reverseHexBytes_loop (l : list ascii) (j : nat) :
  (length l `mod` 2 = 0)%nat → (2 * j ≤ length l)%nat →
  foldl (reverseHexBytes_step l) (Some (replicate (length l) (chr 0))) (seq 0 j)
  = Some (rev_pairs (drop (length l - 2 * j) l)
          ++ replicate (length l - 2 * j) (chr 0)).
Proof.
  intros Hev. induction j as [|j IH]; intros Hj.
  - simpl. rewrite Nat.sub_0_r, drop_all. done.
  - rewrite seq_S, foldl_app, IH by lia. cbn [foldl Nat.add].
    set (n := length l) in *.
    assert (Hlen : length (rev_pairs (drop (n - 2 * j) l)) = (2 * j)%nat).
    { rewrite length_rev_pairs; rewrite length_drop; fold n; [lia |].
      lia. }
    unfold reverseHexBytes_step. fold n. cbn [mbind option_bind].
    destruct (lookup_lt_is_Some_2 l (n - 2 * j - 2)%nat) as [a Ha]; [lia |].
    destruct (lookup_lt_is_Some_2 l (n - 2 * j - 2 + 1)%nat) as [b Hb]; [lia |].
    rewrite Ha. cbn [mbind option_bind].
    rewrite store_lt by (rewrite length_app, length_replicate, Hlen; lia).
    cbn [mbind option_bind]. rewrite Hb. cbn [mbind option_bind].
    rewrite store_lt
      by (rewrite length_insert, length_app, length_replicate, Hlen; lia).
    f_equal.
    replace (n - 2 * S j)%nat with (n - 2 * j - 2)%nat by lia.
    rewrite (drop_S l a (n - 2 * j - 2)) by done.
    rewrite (drop_S l b (S (n - 2 * j - 2))) by (by rewrite <- Nat.add_1_r).
    replace (S (S (n - 2 * j - 2))) with (n - 2 * j)%nat by lia.
    cbn [rev_pairs]. rewrite <- app_assoc.
    set (P := rev_pairs (drop (n - 2 * j) l)) in *.
    rewrite insert_app_r_alt by lia.
    rewrite (insert_app_r_alt _ _ (2 * j + 1)) by lia.
    rewrite Hlen.
    replace (2 * j - 2 * j)%nat with 0%nat by lia.
    replace (2 * j + 1 - 2 * j)%nat with 1%nat by lia.
    set (m := (n - 2 * j - 2)%nat).
    replace (n - 2 * j)%nat with (S (S m)) by lia.
    done.
Qed.

Lemma reverseHexBytes_even (s : string) :
  (len s `mod` 2 = 0)%nat →
  reverseHexBytes s = Some (of_bytes (rev_pairs (bytes s))).
Proof.
  intros Hev. unfold reverseHexBytes.
  rewrite decide_False by (intros ?; done).
  rewrite <- length_bytes in *.
  rewrite reverseHexBytes_loop; [| done |].
  - replace (length (bytes s) - 2 * (length (bytes s) / 2))%nat with 0%nat by lia.
    simpl. by rewrite app_nil_r.
  - lia.
Qed.

(* ----------------------------------------------------------------- *)
(** *** Hexadecimal strings *)

Lemma string_pair_ind (P : string → Prop) :
  P EmptyString → (∀ a, P (String a EmptyString)) →
  (∀ a b s, P s → P (String a (String b s))) → ∀ s, P s.
Proof.
  intros H0 H1 H2 s.
  cut (P s ∧ ∀ a, P (String a s)); [by intros [? _] |].
  induction s as [|a s [IH1 IH2]]; split; auto.
Qed.

Lemma hexval_range (c : ascii) (x : Z) : hexval c = Some x → 0 ≤ x < 16.
Proof.
  unfold hexval. intros H.
  repeat case_match; simplify_eq; lia.
Qed.

Lemma hex_decode_cons (a b : ascii) (s : string) (bs : list Z) :
  hex_decode (String a (String b s)) = Some bs ↔
  ∃ x y bs', hexval a = Some x ∧ hexval b = Some y ∧
             hex_decode s = Some bs' ∧ bs = 16 * x + y :: bs'.
Proof.
  cbn [hex_decode]. split.
  - intros H.
    destruct (hexval a) as [x|]; [|done].
    destruct (hexval b) as [y|]; [|done].
    destruct (hex_decode s) as [bs'|]; [|done].
    simpl in H. simplify_eq. by exists x, y, bs'.
  - intros (x & y & bs' & -> & -> & -> & ->). done.
Qed.

Lemma hexval_hex_digit (n : Z) : 0 ≤ n < 16 → hexval (hex_digit n) = Some n.
Proof.
  intros Hn. rewrite <- (Z2Nat.id n) by lia.
  assert (Z.to_nat n < 16)%nat as Hm by lia.
  revert Hm. generalize (Z.to_nat n). intros m Hm.
  do 16 (destruct m as [|m]; [reflexivity |]). lia.
Qed.

(** Every byte string has a hexadecimal rendering: the one Go prints. *)
Lemma hex_decode_encode (bs : list Z) :
  Forall (λ b, 0 ≤ b < 256) bs → hex_decode (hex_encode bs) = Some bs.
Proof.
  induction 1 as [|b bs Hb _ IH]; [done |].
  cbn [hex_encode]. apply hex_decode_cons.
  exists (b `div` 16), (b `mod` 16), bs.
  split_and!; [apply hexval_hex_digit; lia.. | done | f_equal; lia].
Qed.

Lemma hex_decode_len (s : string) (bs : list Z) :
  hex_decode s = Some bs → len s = (2 * length bs)%nat.
Proof.
  revert bs. induction s as [|a|a b s IH] using string_pair_ind; intros bs H.
  - by simplify_eq/=.
  - done.
  - apply hex_decode_cons in H as (x & y & bs' & _ & _ & H & ->).
    apply IH in H. simpl in *. lia.
Qed.

Lemma hex_decode_app (s t : string) (A B : list Z) :
  hex_decode s = Some A → hex_decode t = Some B →
  hex_decode (s +:+ t) = Some (A ++ B).
Proof.
  revert A. induction s as [|a|a b s IH] using string_pair_ind; intros A Hs Ht.
  - by simplify_eq/=.
  - done.
  - apply hex_decode_cons in Hs as (x & y & A' & Hx & Hy & Hs & ->).
    rewrite !str_app_cons. apply hex_decode_cons.
    exists x, y, (A' ++ B). eauto using IH.
Qed.

Lemma hex_decode_split (s : string) (A B : list Z) :
  hex_decode s = Some (A ++ B) →
  ∃ s1 s2, s = s1 +:+ s2 ∧ hex_decode s1 = Some A ∧ hex_decode s2 = Some B.
Proof.
  revert s. induction A as [|v A IH]; intros s H.
  - by exists EmptyString, s.
  - destruct s as [|a [|b s]]; [done.. |].
    apply hex_decode_cons in H as (x & y & bs' & Hx & Hy & H & Heq).
    simplify_eq/=. destruct (IH _ H) as (s1 & s2 & -> & H1 & H2).
    exists (String a (String b s1)), s2. split_and!; [done | | done].
    apply hex_decode_cons. by exists x, y, A.
Qed.

Lemma hex_decode_rev_pairs (s : string) (bs : list Z) :
  hex_decode s = Some bs →
  hex_decode (of_bytes (rev_pairs (bytes s))) = Some (rev bs).
Proof.
  revert bs. induction s as [|a|a b s IH] using string_pair_ind; intros bs H.
  - by simplify_eq/=.
  - done.
  - apply hex_decode_cons in H as (x & y & bs' & Hx & Hy & H & ->).
    cbn [bytes String.list_ascii_of_string rev_pairs rev].
    rewrite of_bytes_app. apply hex_decode_app; [by apply IH |].
    simpl. by rewrite Hx, Hy.
Qed.

(* ----------------------------------------------------------------- *)
(** *** [EqualFold] on hexadecimal strings *)

Lemma EqualFold_cons (f : string → string → bool) (sr tr : ascii) (s t : string) :
  EqualFold f (String sr s) (String tr t) =
  if 128 <=? Z.lor (code sr) (code tr) then f (String sr s) (String tr t)
  else if same_letter sr tr then EqualFold f s t else false.
Proof.
  cbn [EqualFold]. unfold same_letter.
  destruct (128 <=? _); [done |].
  destruct (code tr =? code sr); [done |]. simpl.
  by destruct (_ && _).
Qed.

Lemma hex_digits_fold (a b : ascii) :
  match hexval a, hexval b with
  | Some x, Some y =>
      negb (128 <=? Z.lor (code a) (code b)) && Bool.eqb (same_letter a b) (x =? y)
  | _, _ => true
  end = true.
Proof. revert a b. apply forall_bytes2. vm_compute. reflexivity. Qed.

Lemma EqualFold_hex (f : string → string → bool) (s t : string) (A B : list Z) :
  hex_decode s = Some A → hex_decode t = Some B →
  EqualFold f s t = bool_decide (A = B).
Proof.
  revert t A B.
  induction s as [|a|a1 a2 s IH] using string_pair_ind; intros t A B Hs Ht.
  - destruct t as [|b [|b' t]]; [by simplify_eq/= | done |].
    apply hex_decode_cons in Ht as (? & ? & ? & _ & _ & _ & ->).
    by simplify_eq/=.
  - done.
  - apply hex_decode_cons in Hs as (x1 & x2 & A' & Hx1 & Hx2 & Hs & ->).
    destruct t as [|b1 [|b2 t]]; [by simplify_eq/= | done |].
    apply hex_decode_cons in Ht as (y1 & y2 & B' & Hy1 & Hy2 & Ht & ->).
    pose proof (hex_digits_fold a1 b1) as H1.
    pose proof (hex_digits_fold a2 b2) as H2.
    rewrite Hx1, Hy1 in H1. rewrite Hx2, Hy2 in H2.
    apply andb_true_iff in H1 as [N1 E1]. apply andb_true_iff in H2 as [N2 E2].
    apply negb_true_iff in N1, N2. apply Bool.eqb_prop in E1, E2.
    apply hexval_range in Hx1, Hx2, Hy1, Hy2.
    rewrite !EqualFold_cons, N1, E1.
    destruct (Z.eqb_spec x1 y1) as [->|Hne1].
    + rewrite N2, E2. destruct (Z.eqb_spec x2 y2) as [->|Hne2].
      * rewrite (IH t A' B' Hs Ht).
        apply bool_decide_ext. split; [by intros -> | by intros [=]].
      * symmetry. apply bool_decide_eq_false. intros [=]. lia.
    + symmetry. apply bool_decide_eq_false. intros [=]. lia.
Qed.

(* ----------------------------------------------------------------- *)
(** *** The vote-bits decoder *)

Lemma reverseHexBytes_is_Some (s : string) :
  ∃ r, reverseHexBytes s = Some r.
Proof.
  destruct (decide (len s `mod` 2 = 0)%nat) as [Hev|Hodd].
  - rewrite reverseHexBytes_even by done. eauto.
  - unfold reverseHexBytes. rewrite decide_True by done. eauto.
Qed.

Lemma slice_to_all (s : string) : slice_to (len s) s = Some s.
Proof. induction s as [|c s IH]; simpl; [done | by rewrite IH]. Qed.

Lemma slice_tail (s t : string) :
  slice (len s) (len s + len t) (s +:+ t) = Some t.
Proof.
  unfold slice. rewrite <- len_app, slice_to_all. simpl. apply slice_from_app.
Qed.

Lemma hex_digit_not_blank (c : ascii) :
  match hexval c with Some _ => negb (is_blank c) | None => true end = true.
Proof. revert c. apply forall_bytes. vm_compute. reflexivity. Qed.

Lemma Sscanf_02x_hex (s : string) (v : Z) :
  hex_decode s = Some [v] → Sscanf_02x s = v.
Proof.
  destruct s as [|a [|b s]]; [done.. |].
  intros (x & y & bs & Hx & Hy & Hs & Heq)%hex_decode_cons.
  pose proof (hex_digit_not_blank a) as Ha. rewrite Hx in Ha.
  apply negb_true_iff in Ha.
  cbn [Sscanf_02x scan_hex2]. rewrite Ha, Hx, Hy. by simplify_eq.
Qed.

(** C3, as stated, fails: the decoder checks lengths, never contents.  A
    payload of full length whose opcode, length and prefix places hold no
    hexadecimal digits decodes to the vote behind its hash, and one whose
    vote byte holds none decodes to "abstain" ([Sscanf] fails, its error
    is dropped and the byte keeps its zero). *)
Lemma parseVoteBitsForTSpend_malformed :
  parseVoteBitsForTSpend ascii_only
    "zzzzzzzz0102030405060708090a0b0c0d0e0f101112131415161718191a1b1c1d1e1f2001"
    sample_hash = Some "yes" ∧
  parseVoteBitsForTSpend ascii_only
    "6a2354530102030405060708090a0b0c0d0e0f101112131415161718191a1b1c1d1e1f20zz"
    sample_hash = Some "abstain".
Proof. split; vm_compute; reflexivity. Qed.

(** C3, amended.  The decoder never panics and always returns one of the
    five labels; every input too short at some stage of the fixed layout
    (4 characters of opcode and length, 4 of prefix, 64 of hash, 2 of vote
    byte: 74 in all) decodes to "unknown", whatever the target hash. *)
Theorem parseVoteBitsForTSpend_total (f : string → string → bool)
    (hexData tspendHash : string) :
  ∃ label, parseVoteBitsForTSpend f hexData tspendHash = Some label ∧
           label ∈ vote_labels ∧
           ((len hexData < 74)%nat → label = "unknown").
Proof.
  assert (Hunk : ∃ label, Some "unknown" = Some label ∧ label ∈ vote_labels ∧
                          ((len hexData < 74)%nat → label = "unknown")).
  { exists "unknown". split_and!; [done | repeat constructor | done]. }
  unfold parseVoteBitsForTSpend.
  case_decide; [done |]. case_decide; [done |].
  destruct (slice_from_is_Some 4 hexData) as (dataHex & -> & HdataHex); [lia |].
  cbn [mbind option_bind]. case_decide; [done |].
  destruct (slice_from_is_Some 4 dataHex) as (rest & -> & Hrest); [lia |].
  cbn [mbind option_bind]. case_decide; [done |].
  destruct (slice_to_is_Some 64 rest) as (hashHex & -> & HhashHex); [lia |].
  cbn [mbind option_bind].
  destruct (reverseHexBytes_is_Some hashHex) as (reversedHash & ->).
  cbn [mbind option_bind].
  destruct (EqualFold f reversedHash tspendHash); [|done]. cbn [negb].
  case_decide; [done |].
  destruct (slice_is_Some 64 66 rest) as (voteHex & -> & HvoteHex); [lia |].
  cbn [mbind option_bind].
  eexists. split; [done |]. split; [| lia].
  unfold vote_labels. repeat destruct (_ =? _); repeat constructor.
Qed.

(** C1.  Round trip: [payload] is any hexadecimal rendering of the bytes
    (opcode, length, two prefix bytes, the 32 bytes of [H] reversed, a vote
    byte whose low two bits are the choice [c]); [target] is any
    hexadecimal rendering of a hash [H'].  Decoding gives the label of [c]
    when [H'] is [H], and "unknown" for every other hash. *)
Theorem parseVoteBitsForTSpend_roundtrip (f : string → string → bool)
    (payload target : string) (op ln p1 p2 vb : Z) (H H' : list Z) (c : choice) :
  length H = 32%nat →
  hex_decode payload = Some ([op; ln; p1; p2] ++ rev H ++ [vb]) →
  Z.land vb 3 = choice_bits c →
  hex_decode target = Some H' →
  parseVoteBitsForTSpend f payload target =
    Some (if decide (H' = H) then choice_label c else "unknown").
Proof.
  intros HlenH Hpayload Hbits Htarget.
  change ([op; ln; p1; p2] ++ rev H ++ [vb])
    with ([op; ln] ++ [p1; p2] ++ rev H ++ [vb]) in Hpayload.
  apply hex_decode_split in Hpayload as (sA & s1 & -> & HsA & Hpayload).
  apply hex_decode_split in Hpayload as (sB & s2 & -> & HsB & Hpayload).
  apply hex_decode_split in Hpayload as (sH & sV & -> & HsH & HsV).
  pose proof (hex_decode_len _ _ HsA) as LA.
  pose proof (hex_decode_len _ _ HsB) as LB.
  pose proof (hex_decode_len _ _ HsH) as LH.
  pose proof (hex_decode_len _ _ HsV) as LV.
  rewrite length_rev, HlenH in LH. simpl in LA, LB, LH, LV.
  unfold parseVoteBitsForTSpend.
  rewrite decide_False by (rewrite !len_app; lia).
  rewrite decide_False by (rewrite !len_app; lia).
  replace 4%nat with (len sA) at 1 by done.
  rewrite slice_from_app. cbn [mbind option_bind].
  rewrite decide_False by (rewrite !len_app; lia).
  replace 4%nat with (len sB) at 1 by done.
  rewrite slice_from_app. cbn [mbind option_bind].
  rewrite decide_False by (rewrite !len_app; lia).
  replace 64%nat with (len sH) at 1 by done.
  rewrite slice_to_app. cbn [mbind option_bind].
  rewrite reverseHexBytes_even by (rewrite LH; done).
  cbn [mbind option_bind].
  apply hex_decode_rev_pairs in HsH. rewrite rev_involutive in HsH.
  rewrite (EqualFold_hex f _ _ _ _ HsH Htarget).
  destruct (decide (H' = H)) as [->|Hne].
  - rewrite bool_decide_eq_true_2 by done. cbn [negb].
    rewrite decide_False by (rewrite !len_app; lia).
    replace 66%nat with (len sH + len sV)%nat by lia.
    replace 64%nat with (len sH) by done.
    rewrite slice_tail. cbn [mbind option_bind].
    rewrite (Sscanf_02x_hex _ _ HsV), Hbits.
    by destruct c.
  - rewrite bool_decide_eq_false_2 by congruence. done.
Qed.

(* ----------------------------------------------------------------- *)
(** *** Searching a word up to case *)

Lemma HasPrefix_spec (s p : string) :
  HasPrefix s p = true ↔ ∃ post, s = p +:+ post.
Proof.
  revert s. induction p as [|a p IH]; intros [|b s]; simpl.
  - split; [by exists EmptyString | done].
  - split; [by exists (String b s) | done].
  - split; [done | by intros [post ?]].
  - rewrite andb_true_iff, bool_decide_eq_true, IH. split.
    + intros [-> [post ->]]. by exists post.
    + intros [post Heq]. rewrite str_app_cons in Heq. simplify_eq. eauto.
Qed.

Lemma Contains_spec (s w : string) :
  Contains s w = true ↔ ∃ pre post, s = pre +:+ w +:+ post.
Proof.
  induction s as [|c s IH]; cbn [Contains]; rewrite orb_true_iff, HasPrefix_spec.
  - split.
    + intros [[post ->]|?]; [|done]. by exists EmptyString, post.
    + intros (pre & post & Heq). left. exists post.
      destruct pre; [exact Heq |]. by rewrite str_app_cons in Heq.
  - rewrite IH. split.
    + intros [[post ->]|(pre & post & ->)].
      * by exists EmptyString, post.
      * by exists (String c pre), post.
    + intros ([|c' pre] & post & Heq).
      * left. by exists post.
      * right. rewrite str_app_cons in Heq. simplify_eq. by exists pre, post.
Qed.

Lemma ToLower_app (s t : string) : ToLower (s +:+ t) = ToLower s +:+ ToLower t.
Proof.
  induction s as [|c s IH]; [done |].
  rewrite str_app_cons. simpl. by rewrite IH.
Qed.

Lemma ToLower_split (s a b : string) :
  ToLower s = a +:+ b →
  ∃ s1 s2, s = s1 +:+ s2 ∧ ToLower s1 = a ∧ ToLower s2 = b.
Proof.
  revert s. induction a as [|c a IH]; intros s H.
  - by exists EmptyString, s.
  - destruct s as [|d s]; [done |].
    rewrite str_app_cons in H. simpl in H. simplify_eq.
    destruct (IH s) as (s1 & s2 & -> & <- & <-); [done |].
    by exists (String d s1), s2.
Qed.

Lemma lower_same_letter (a b : ascii) :
  lower a = lower b ↔ same_letter a b = true.
Proof.
  assert (H : Bool.eqb (bool_decide (lower a = lower b)) (same_letter a b) = true).
  { revert a b. apply forall_bytes2. vm_compute. reflexivity. }
  apply Bool.eqb_prop in H. rewrite <- H. apply symmetry, bool_decide_eq_true.
Qed.

Lemma ToLower_same_letter (s w : string) :
  ToLower s = ToLower w ↔
  Forall2 (λ a b, same_letter a b = true) (bytes s) (bytes w).
Proof.
  revert w. induction s as [|a s IH]; intros [|b w]; simpl.
  - split; [constructor | done].
  - split; [done | by intros ?%Forall2_nil_cons_inv].
  - split; [done | by intros ?%Forall2_cons_nil_inv].
  - rewrite Forall2_cons, <- IH, <- lower_same_letter.
    split; [by intros [= -> ->] | by intros [-> ->]].
Qed.

Lemma Contains_ToLower (s w : string) :
  Contains (ToLower s) (ToLower w) = true ↔ contains_nocase s w.
Proof.
  rewrite Contains_spec. split.
  - intros (pre & post & H).
    apply ToLower_split in H as (s1 & s' & -> & <- & H).
    apply ToLower_split in H as (s2 & s3 & -> & H & <-).
    exists s1, s2, s3. split; [done |]. by apply ToLower_same_letter.
  - intros (pre & mid & post & -> & H%ToLower_same_letter).
    exists (ToLower pre), (ToLower post). by rewrite !ToLower_app, H.
Qed.

(* ----------------------------------------------------------------- *)
(** *** The spend detector *)

Lemma isTreasurySpend_vin_spec (vin : list json) :
  isTreasurySpend_vin vin = true ↔
  ∃ i vinMap, vin !! i = Some (JObj vinMap) ∧ is_Some (vinMap !! "treasuryspend").
Proof.
  induction vin as [|v vin IH]; cbn [isTreasurySpend_vin].
  - split; [done | by intros (i & m & ? & _)].
  - assert (Htail : isTreasurySpend_vin vin = true →
      ∃ i vinMap, (v :: vin) !! i = Some (JObj vinMap) ∧
                  is_Some (vinMap !! "treasuryspend")).
    { intros (i & m & ? & ?)%IH. by exists (S i), m. }
    destruct v as [| | | | |m]; cbn [as_object];
      try (split; [exact Htail | intros ([|i] & m' & Hi & Hm); simplify_eq/=;
                                 apply IH; eauto]).
    case_decide as Hm.
    + split; [| done]. intros _. by exists 0%nat, m.
    + split; [exact Htail |].
      intros ([|i] & m' & Hi & Hm'); simplify_eq/=; [done | apply IH; eauto].
Qed.

Lemma isTreasurySpend_vout_spec (tx : gmap string json) (vout : list json) :
  isTreasurySpend_vout tx vout = true ↔
  (∃ i voutMap scriptPubKey scriptType,
     vout !! i = Some (JObj voutMap) ∧
     voutMap !! "scriptPubKey" = Some (JObj scriptPubKey) ∧
     scriptPubKey !! "type" = Some (JStr scriptType) ∧
     contains_nocase scriptType "treasurygen") ∧
  version_is_3 tx.
Proof.
  assert (Hver : Qeq_bool (default 0%Q (as_float64 (tx !! "version"))) 3 = true
                 ↔ version_is_3 tx).
  { rewrite Qeq_bool_iff. unfold version_is_3.
    destruct (tx !! "version") as [[| |v| | |]|]; simpl;
      try (split; [done | by intros (? & ? & _)]).
    split; [by exists v | by intros (? & [= ->] & ?)]. }
  induction vout as [|v vout IH]; cbn [isTreasurySpend_vout].
  - split; [done | by intros [(i & ? & ? & ? & ? & _) _]].
  - assert (Htail : isTreasurySpend_vout tx vout = true →
      (∃ i voutMap scriptPubKey scriptType,
         (v :: vout) !! i = Some (JObj voutMap) ∧
         voutMap !! "scriptPubKey" = Some (JObj scriptPubKey) ∧
         scriptPubKey !! "type" = Some (JStr scriptType) ∧
         contains_nocase scriptType "treasurygen") ∧ version_is_3 tx).
    { intros [(i & m & spk & ty & ? & ?) ?]%IH. split; [|done].
      by exists (S i), m, spk, ty. }
    assert (Hskip :
      ¬ (∃ voutMap scriptPubKey scriptType,
           v = JObj voutMap ∧
           voutMap !! "scriptPubKey" = Some (JObj scriptPubKey) ∧
           scriptPubKey !! "type" = Some (JStr scriptType) ∧
           contains_nocase scriptType "treasurygen") →
      (∃ i voutMap scriptPubKey scriptType,
         (v :: vout) !! i = Some (JObj voutMap) ∧
         voutMap !! "scriptPubKey" = Some (JObj scriptPubKey) ∧
         scriptPubKey !! "type" = Some (JStr scriptType) ∧
         contains_nocase scriptType "treasurygen") ∧ version_is_3 tx →
      isTreasurySpend_vout tx vout = true).
    { intros Hno [([|i] & m & spk & ty & Hi & Hrest) Hv]; simplify_eq/=.
      - destruct Hno. by exists m, spk, ty.
      - apply IH. split; [|done]. by exists i, m, spk, ty. }
    destruct (as_object (Some v)) as [voutMap|] eqn:Hv; cycle 1.
    { split; [done |]. apply Hskip. intros (? & ? & ? & -> & _). done. }
    destruct v as [| | | | |m]; simplify_eq/=.
    destruct (as_object (voutMap !! "scriptPubKey")) as [spk|] eqn:Hspk; cycle 1.
    { split; [done |]. apply Hskip. intros (? & ? & ? & [= <-] & Hs & _).
      by rewrite Hs in Hspk. }
    assert (voutMap !! "scriptPubKey" = Some (JObj spk)) as Hspk'.
    { by destruct (voutMap !! "scriptPubKey") as [[]|]; simplify_eq/=. }
    destruct (as_string (spk !! "type")) as [ty|] eqn:Hty; cycle 1.
    { split; [done |]. apply Hskip. intros (? & ? & ? & [= <-] & Hs & Ht & _).
      rewrite Hspk' in Hs. simplify_eq. by rewrite Ht in Hty. }
    assert (spk !! "type" = Some (JStr ty)) as Hty'.
    { by destruct (spk !! "type") as [[]|]; simplify_eq/=. }
    destruct (Contains (ToLower ty) "treasurygen") eqn:Hc; cycle 1.
    { split; [done |]. apply Hskip.
      intros (? & ? & ? & [= <-] & Hs & Ht & Hcn).
      rewrite Hspk' in Hs. injection Hs as <-.
      rewrite Hty' in Ht. injection Ht as <-.
      apply (Contains_ToLower _ "treasurygen") in Hcn.
      change (ToLower "treasurygen") with "treasurygen" in Hcn. congruence. }
    apply (Contains_ToLower _ "treasurygen") in Hc.
    destruct (Qeq_bool _ 3) eqn:Hq.
    + split; [|done]. intros _. split; [|by apply Hver].
      by exists 0%nat, voutMap, spk, ty.
    + split; [done |]. intros [_ Hv3]. apply Hver in Hv3. congruence.
Qed.

Lemma option_exists_true {X} (o : option X) (P : X → bool) :
  (∃ x, o = Some x ∧ P x = true) ↔
  match o with Some x => P x | None => false end = true.
Proof.
  destruct o as [x|].
  - split; [by intros (? & [= <-] & ?) | by exists x].
  - split; [by intros (? & ? & _) | done].
Qed.

(** C4.  A transaction with the input marker is a spend whatever else it
    holds; without the marker, an output whose script type contains
    "treasurygen" up to case together with version 3 makes it a spend;
    with neither signal it is not one.  "Up to case" is [contains_nocase]:
    eleven consecutive bytes of the type that are the letters of the
    word, each in either case.  The detector is a total function: it uses
    no operation that can panic. *)
Theorem isTreasurySpend_classifier (tx : gmap string json) :
  (input_marker tx → isTreasurySpend tx = true) ∧
  (¬ input_marker tx → treasurygen_output tx ∧ version_is_3 tx →
     isTreasurySpend tx = true) ∧
  (¬ input_marker tx → ¬ (treasurygen_output tx ∧ version_is_3 tx) →
     isTreasurySpend tx = false).
Proof.
  assert (Hin : input_marker tx ↔
    ∃ vin, as_array (tx !! "vin") = Some vin ∧ isTreasurySpend_vin vin = true).
  { unfold input_marker. split.
    - intros (vin & i & m & -> & ? & ?). exists vin. split; [done |].
      apply isTreasurySpend_vin_spec. eauto.
    - intros (vin & Hvin & (i & m & ? & ?)%isTreasurySpend_vin_spec).
      exists vin, i, m. split; [|done].
      by destruct (tx !! "vin") as [[]|]; simplify_eq/=. }
  assert (Hout : treasurygen_output tx ∧ version_is_3 tx ↔
    ∃ vout, as_array (tx !! "vout") = Some vout ∧
            isTreasurySpend_vout tx vout = true).
  { unfold treasurygen_output. split.
    - intros [(vout & i & m & spk & ty & -> & ?) ?]. exists vout.
      split; [done |]. apply isTreasurySpend_vout_spec. split; [|done].
      by exists i, m, spk, ty.
    - intros (vout & Hvout & [(i & m & spk & ty & ?) ?]%isTreasurySpend_vout_spec).
      split; [|done]. exists vout, i, m, spk, ty. split; [|done].
      by destruct (tx !! "vout") as [[]|]; simplify_eq/=. }
  rewrite Hin, Hout, !option_exists_true. unfold isTreasurySpend.
  destruct (match as_array (tx !! "vin") with
            | Some vin => isTreasurySpend_vin vin | None => false end),
           (match as_array (tx !! "vout") with
            | Some vout => isTreasurySpend_vout tx vout | None => false end);
    intuition congruence.
Qed.

Lemma isTreasurySpend_classifier_witness :
  isTreasurySpend mixed_case_tx = true.
Proof.
  apply (proj1 (proj2 (isTreasurySpend_classifier mixed_case_tx))).
  - intros (vin & i & vinMap & Hvin & _). vm_compute in Hvin. discriminate.
  - split.
    + exists [mixed_case_output], 0%nat,
        {[ "scriptPubKey" := JObj {[ "type" := JStr "TreasuryGen-PubKeyHash" ]} ]},
        {[ "type" := JStr "TreasuryGen-PubKeyHash" ]}, "TreasuryGen-PubKeyHash".
      split_and!; [reflexivity.. |].
      exists "", "TreasuryGen", "-PubKeyHash". split; [reflexivity |].
      repeat constructor.
    + exists 3%Q. split; reflexivity.
Defined.

Lemma parseVoteBitsForTSpend_roundtrip_witness :
  parseVoteBitsForTSpend ascii_only sample_payload sample_hash = Some "yes".
Proof.
  apply (parseVoteBitsForTSpend_roundtrip ascii_only sample_payload sample_hash
           106 35 84 83 1 sample_hash_bytes sample_hash_bytes Yes);
    reflexivity.
Defined.

(* ----------------------------------------------------------------- *)
(** *** Per-transaction decoding *)

(** C10.  When the output list is absent, is not a list, or holds fewer
    than two entries, the vote of the transaction is "unknown" for every
    target hash, whatever the outputs hold. *)
Theorem parseTSpendVote_short_vout (f : string → string → bool)
    (tx : gmap string json) (tspendHash : string) :
  match tx !! "vout" with
  | Some (JArr vout) => (length vout < 2)%nat
  | _ => True
  end →
  parseTSpendVote f tx tspendHash = Some "unknown".
Proof.
  unfold parseTSpendVote.
  destruct (tx !! "vout") as [[| | | |vout|]|]; simpl; try done.
  intros Hlen. by rewrite decide_True.
Qed.

Lemma parseTSpendVote_short_vout_witness :
  parseTSpendVote ascii_only {[ "vout" := JArr [sample_vote_output] ]} sample_hash
  = Some "unknown".
Proof.
  apply (parseTSpendVote_short_vout ascii_only
           {[ "vout" := JArr [sample_vote_output] ]} sample_hash).
  vm_compute. lia.
Defined.

(** The same output next to any second one is decoded. *)
Example parseTSpendVote_two_outputs :
  parseTSpendVote ascii_only
    {[ "vout" := JArr [JNull; sample_vote_output] ]} sample_hash = Some "yes".
Proof. vm_compute. reflexivity. Qed.

(* ----------------------------------------------------------------- *)
(** *** Historical scanner *)

(** C5.  The trigger fails with "scan already in progress" exactly when a
    scan is running, and then leaves the state as it is and starts
    nothing; otherwise it returns no error and, before the mutex is
    released, has marked the scan running, set the current height to the
    start height raised to the activation floor, zeroed the found counter
    and emptied both the result list and the buffer of new finds. *)
Theorem TriggerHistoricalScan_guard (startHeight : Z) (st : ScanState) :
  let '(err, st', spawned) := TriggerHistoricalScan startHeight st in
  (err = Some "scan already in progress" ↔ isScanRunning st = true) ∧
  (err = None ↔ isScanRunning st = false) ∧
  (isScanRunning st = true → st' = st ∧ spawned = None) ∧
  (isScanRunning st = false →
     isScanRunning st' = true ∧
     currentScanHeight st' = Z.max startHeight 552448 ∧
     totalScanHeight st' = totalScanHeight st ∧
     tspendFoundCount st' = 0 ∧
     scanResults st' = SOf [] ∧
     newTSpendBuffer st' = SOf [] ∧
     spawned = Some (Z.max startHeight 552448)).
Proof.
  unfold TriggerHistoricalScan. destruct (isScanRunning st) eqn:Hrun.
  - by split_and!.
  - cbn [isScanRunning currentScanHeight totalScanHeight tspendFoundCount
         scanResults newTSpendBuffer].
    unfold TreasuryActivationHeight.
    assert ((if startHeight <? 552448 then 552448 else startHeight)
            = Z.max startHeight 552448) as ->.
    { destruct (Z.ltb_spec startHeight 552448); lia. }
    by split_and!.
Qed.

Lemma wrap64_small (z : Z) : - 2 ^ 63 ≤ z < 2 ^ 63 → wrap64 z = z.
Proof. unfold wrap64. intros Hz. rewrite Z.mod_small; lia. Qed.

(** C6, as stated, fails: a scan triggered above the chain tip ends in a
    state that reports more than 100 percent. *)
Lemma GetScanProgress_overshoot :
  scanner_run overshoot_events (scan_init, []) = Some (overshoot_state, [ScanDone]) ∧
  (100 < Progress (GetScanProgress overshoot_state).1)%Q.
Proof. split; reflexivity. Qed.

(** C6, amended.  In every state the percentage is the quotient of the
    distances of the current height and of the target height from the
    activation floor, times 100, when the target lies above the floor,
    and 0 otherwise: it is not clamped.  (The heights are [int64] values;
    the current height is taken at least 552448 above the smallest one,
    below which its distance from the floor wraps around.)  It lies
    between 0 and 100 whenever the current height lies between the floor
    and the target. *)
Theorem GetScanProgress_percent (st : ScanState) :
  - 2 ^ 63 + TreasuryActivationHeight ≤ currentScanHeight st < 2 ^ 63 →
  - 2 ^ 63 ≤ totalScanHeight st < 2 ^ 63 →
  let p := Progress (GetScanProgress st).1 in
  (p == if totalScanHeight st >? TreasuryActivationHeight
        then inject_Z (currentScanHeight st - TreasuryActivationHeight)
             / inject_Z (totalScanHeight st - TreasuryActivationHeight) * 100
        else 0)%Q ∧
  (TreasuryActivationHeight ≤ currentScanHeight st ≤ totalScanHeight st →
   (0 <= p <= 100)%Q).
Proof.
  intros Hcur Htot. unfold TreasuryActivationHeight in *.
  cbn [GetScanProgress Progress fst]. unfold float64_of_int, sub64.
  unfold TreasuryActivationHeight.
  destruct (Z.gtb_spec (totalScanHeight st) 552448) as [Hgt|Hle].
  - rewrite !wrap64_small by lia.
    split; [reflexivity |]. intros [Hlo Hhi].
    set (a := currentScanHeight st - 552448) in *.
    set (b := totalScanHeight st - 552448) in *.
    assert (0 < inject_Z b)%Q as Hb.
    { change 0%Q with (inject_Z 0). rewrite <- Zlt_Qlt. lia. }
    assert (0 <= inject_Z a / inject_Z b)%Q as H0.
    { apply Qle_shift_div_l; [done |]. rewrite Qmult_0_l.
      change 0%Q with (inject_Z 0). rewrite <- Zle_Qle. lia. }
    assert (inject_Z a / inject_Z b <= 1)%Q as H1.
    { apply Qle_shift_div_r; [done |]. rewrite Qmult_1_l.
      rewrite <- Zle_Qle. lia. }
    split.
    + apply Qmult_le_0_compat; [done | done].
    + apply (Qle_trans _ (1 * 100)); [| vm_compute; congruence].
      apply Qmult_le_compat_r; [done | vm_compute; congruence].
  - split; [reflexivity | done].
Qed.

Lemma GetScanProgress_percent_witness :
  (Progress (GetScanProgress
     {| isScanRunning := true; currentScanHeight := 600000;
        totalScanHeight := 900000; tspendFoundCount := 0;
        scanResults := SOf []; newTSpendBuffer := SOf [] |}).1
   == inject_Z 47552 / inject_Z 347552 * 100)%Q ∧
  (Progress (GetScanProgress overshoot_state).1
   == inject_Z 1447552 / inject_Z 347552 * 100)%Q.
Proof.
  split.
  - apply (GetScanProgress_percent
       {| isScanRunning := true; currentScanHeight := 600000;
          totalScanHeight := 900000; tspendFoundCount := 0;
          scanResults := SOf []; newTSpendBuffer := SOf [] |});
      vm_compute; split; congruence.
  - apply (GetScanProgress_percent overshoot_state); vm_compute; split; congruence.
Defined.

(* ----------------------------------------------------------------- *)
(** *** Mempool probe *)

(** C8, as stated, fails: without a client the probe returns the nil
    slice (next to its error), and when the only transaction of the
    mempool cannot be fetched it returns the nil slice and no error. *)
Lemma GetMempoolTSpends_nil :
  GetMempoolTSpends None = (SNil, Some "dcrd client not available") ∧
  GetMempoolTSpends (Some unfetchable_mempool) = (SNil, None).
Proof. split; vm_compute; reflexivity. Qed.

(** C8, amended.  [FetchTreasuryInfo] never hands on a nil list: when the
    probe fails as a whole (it then returns nil and an error) the list of
    active spends is empty and not nil, and when it does not, the list
    holds the spends the probe found. *)
Theorem FetchTreasuryInfo_ActiveTSpends (client : option Ledger) (now : Z) :
  let probe := scanMempoolForTSpends client in
  let info := (FetchTreasuryInfo client now).1 in
  (∃ l, ActiveTSpends info = SOf l) ∧
  (probe.2 ≠ None → probe.1 = SNil ∧ ActiveTSpends info = SOf []) ∧
  (probe.2 = None → elems (ActiveTSpends info) = elems probe.1).
Proof.
  cbv zeta. unfold FetchTreasuryInfo.
  destruct (getTreasuryBalance client) as [balance berr].
  destruct (scanMempoolForTSpends client) as [tspends err] eqn:Hprobe.
  cbn [fst snd ActiveTSpends].
  destruct err as [msg|].
  - split_and!; [by exists [] | | done].
    intros _. split; [|done].
    unfold scanMempoolForTSpends in Hprobe.
    repeat case_match; by simplify_eq.
  - destruct tspends as [|l]; (split_and!; [eauto | done | done]).
Qed.


(* ----------------------------------------------------------------- *)
(** *** Vote tally *)

Lemma eligibleVotes_of_small (blocks : Z) :
  - 2 ^ 50 ≤ blocks ≤ 2 ^ 50 → eligibleVotes_of blocks = blocks * 5.
Proof.
  intros Hb. unfold eligibleVotes_of, int_of_float64, float64_of_int.
  cbn [Qmult Qnum Qden inject_Z Pos.mul]. rewrite Z.quot_1_r.
  destruct (Z.leb_spec (- 2 ^ 63) (blocks * 5)); [| lia].
  destruct (Z.ltb_spec (blocks * 5) (2 ^ 63)); [done | lia].
Qed.

(** The synchronous tally takes the eligible votes from the difference of
    the two ends of the voting period. *)
Lemma calculateTSpendVotes_eligible (f : string → string → bool)
    (client : option Ledger) (txHash : string) (blockHeight expiry : Z)
    (inMempool : bool) (info : TSpendVotingInfo) :
  calculateTSpendVotes f client txHash blockHeight expiry inMempool
    = Some (Some info, None) →
  EligibleVotes info
    = eligibleVotes_of (sub64 (VotingEndBlock info) (VotingStartBlock info)) ∧
  QuorumRequired info = Z.quot (EligibleVotes info) 5 ∧
  QuorumAchieved info = (VotesCast info >=? QuorumRequired info) ∧
  ApprovalRate info = approvalRate_of (YesVotes info) (VotesCast info).
Proof.
  unfold calculateTSpendVotes. intros H.
  destruct client as [c|]; [|done].
  destruct (GetBlockCount c) as [currentHeight|]; [|done].
  destruct inMempool;
    (destruct (countTSpendVotesInRange _ _ _ _ _) as [[yes no]|]; [|done]);
    simpl in H; by simplify_eq.
Qed.

(** The asynchronous tally takes them from [totalBlocks], which counts
    both ends. *)
Lemma async_final_eligible (c : Ledger) (blockHeight yesVotes noVotes : Z) :
  TreasuryActivationHeight ≤ blockHeight < 2 ^ 62 →
  let '(votingStartBlock, votingEndBlock, totalBlocks) := async_window blockHeight in
  let info :=
    async_final c votingStartBlock votingEndBlock totalBlocks yesVotes noVotes in
  totalBlocks = votingEndBlock - votingStartBlock + 1 ∧
  EligibleVotes info = totalBlocks * 5 ∧
  QuorumRequired info = totalBlocks ∧
  QuorumAchieved info = (VotesCast info >=? totalBlocks) ∧
  ApprovalRate info = approvalRate_of yesVotes (VotesCast info).
Proof.
  unfold TreasuryActivationHeight. intros Hb.
  unfold async_window, async_final, sub64, add64, TreasuryActivationHeight.
  rewrite (wrap64_small (blockHeight - 2880)) by lia.
  destruct (getBlockTimestamps _ _ _) as [startTm endTime].
  cbn [EligibleVotes QuorumRequired QuorumAchieved VotesCast ApprovalRate].
  destruct (Z.ltb_spec (blockHeight - 2880) 552448);
    rewrite !wrap64_small by (rewrite ?wrap64_small; lia);
    rewrite eligibleVotes_of_small by lia;
    rewrite Z.quot_mul by lia; done.
Qed.

(** C2 fails on the synchronous path.  On the example of the
    specification (window [557120, 560000], 1000 yes and 500 no votes)
    the synchronous tally reports 2880 x 5 = 14400 eligible votes and a
    quorum of 2880, where the claim and the asynchronous tally of the same
    window have 2881 x 5 = 14405 and 2881. *)
Lemma tally_paths_disagree :
  calculateTSpendVotes ascii_only (Some example_ledger) sample_hash 560000 0 false
    = Some (Some example_sync_tally, None) ∧
  EligibleVotes example_sync_tally = 2880 * 5 ∧
  QuorumRequired example_sync_tally = 2880 ∧
  async_window 560000 = (557120, 560000, 2881) ∧
  EligibleVotes (async_final example_ledger 557120 560000 2881 1000 500) = 2881 * 5 ∧
  QuorumRequired (async_final example_ledger 557120 560000 2881 1000 500) = 2881.
Proof. split_and!; vm_compute; reflexivity. Qed.

(* ----------------------------------------------------------------- *)
(** *** Tally engine *)

(** C9 fails.  Two calls for the same confirmed hash with no cache entry,
    interleaved so that both read the job registry before either writes
    it, each register the hash and each start a goroutine: two tally jobs
    of the hash are active at once. *)
Lemma tally_single_flight_race :
  active_jobs sample_hash <$> engine_run ascii_only race_events engine_init
  = Some [Job sample_hash 552448 JobStart; Job sample_hash 552448 JobStart].
Proof. vm_compute. reflexivity. Qed.

Lemma engine_run_app (f : string → string → bool) (evs1 evs2 : list EngineEvent)
    (e : Engine) :
  engine_run f (evs1 ++ evs2) e = engine_run f evs1 e ≫= engine_run f evs2.
Proof.
  revert e. induction evs1 as [|ev evs1 IH]; intros e; simpl; [done |].
  destruct (engine_step f ev e) as [e'|]; simpl; [apply IH | done].
Qed.

(** C7 fails, by the same race.  The first goroutine writes its tally
    (one yes vote) into the cache and a third call is served that value;
    the second goroutine, started by the racing call, then overwrites the
    entry with its own tally (no vote, the block having changed), and a
    fourth call is served the new value. *)
Lemma cache_entry_overwritten :
  cache_and_answer (race_events ++ first_job_events ++ third_call_events) 4
    = Some (Some (tally_of 1), Some (Some (tally_of 1), None)) ∧
  cache_and_answer
    ((race_events ++ first_job_events ++ third_call_events)
     ++ second_job_events ++ fourth_call_events) 5
    = Some (Some (tally_of 0), Some (Some (tally_of 0), None)) ∧
  tally_of 1 ≠ tally_of 0.
Proof.
  split_and!; [vm_compute; reflexivity.. |].
  intros H. apply (f_equal YesVotes) in H. done.
Qed.

(** A call that finds the hash in the cache returns the cached value in
    its first step, changes nothing and starts nothing. *)
Lemma call_step_cached (f : string → string → bool) (client : option Ledger)
    (txHash : string) (blockHeight expiry : Z) (e : Engine)
    (cached : TSpendVotingInfo) :
  votingCache e !! txHash = Some cached →
  call_step f client txHash blockHeight expiry false CallStart e
    = Some (CallReturned (Some cached) None, e, []).
Proof. intros H. simpl. by rewrite H. Qed.

(* ----------------------------------------------------------------- *)
(** *** Calls served one at a time keep the engine single-flight *)

(** The five parts of [call_step_effect], case by case. *)
Ltac call_cases Hok :=
  split_and!;
  [ done
  | done
  | first [ left; done | right; split_and!; done ]
  | intros Hnil; cbn [call_ok] in *;
    first [ discriminate Hnil | done | exact Hok
          | split; [exact Hok | congruence] ]
  | intros Hne; first [ by destruct Hne | eauto ] ].

Section SerialFacts.
Variable f : string → string → bool.

(** What one step of a goroutine does to the cache and the registry. *)
Lemma job_step_effect (client : option Ledger) (elapsed : Q) (h : string)
    (bh : Z) (pc pc' : JobPc) (e e' : Engine) :
  job_step f client elapsed h bh pc e = Some (pc', e') →
  threads e' = threads e ∧ job_active pc = true ∧
  ((votingCache e' = votingCache e ∧ parsingJobs e' = parsingJobs e ∧
    job_active pc' = true ∧ (writes_cache pc' = true → writes_cache pc = true)) ∨
   (∃ v, votingCache e' = <[h := v]> (votingCache e) ∧
         parsingJobs e' = parsingJobs e ∧
         writes_cache pc = true ∧ job_active pc' = true ∧
         writes_cache pc' = false) ∨
   (votingCache e' = votingCache e ∧ parsingJobs e' = delete h (parsingJobs e) ∧
    pc' = JobEnded)).
Proof.
  intros H. destruct pc; simpl in H.
  - destruct client; simplify_eq/=; (split; [done | split; [done |]]); left; done.
  - destruct client as [c|]; simplify_eq/=.
    destruct (height <=? votingEndBlock).
    + destruct (GetBlockHash c height ≫= getblock c) as [block|].
      * destruct (count_stxs f c h (STx block) (yesVotes, noVotes))
          as [[yes no]|]; simplify_eq/=.
        destruct ((height `rem` 50 =? 0) || (height =? votingEndBlock));
          simplify_eq/=; (split; [done | split; [done |]]); left; done.
      * simplify_eq/=. (split; [done | split; [done |]]); left; done.
    + simplify_eq/=. (split; [done | split; [done |]]). right. left. eauto 10.
  - simplify_eq/=. (split; [done | split; [done |]]). left. done.
  - simplify_eq/=. (split; [done | split; [done |]]). right. right. done.
  - done.
Qed.

Lemma call_step_effect (client : option Ledger) (h : string) (bh exp : Z)
    (inM : bool) (pc pc' : CallPc) (e e' : Engine) (spawned : list Thread) :
  call_step f client h bh exp inM pc e = Some (pc', e', spawned) →
  call_ok h inM pc e →
  call_outcome h bh e e' spawned ∧
  (spawned = [] → call_ok h inM pc' e') ∧
  (spawned ≠ [] → ∃ r err, pc' = CallReturned r err).
Proof.
  unfold call_outcome. intros H Hok. destruct pc; cbn [call_step] in H.
  - destruct inM; cbn [negb] in H.
    + simplify_eq. call_cases Hok.
    + destruct (votingCache e !! h) eqn:Hc; simplify_eq; call_cases Hok.
  - cbn [call_ok] in Hok.
    destruct (parsingJobs e !! h) as [[]|] eqn:Hreg; cbn [default id] in H;
      simplify_eq; call_cases Hok.
  - destruct (voteParsingProgress e !! h); simplify_eq; call_cases Hok.
  - destruct (negb inM && negb isJobRunning) eqn:Hb.
    + destruct inM, isJobRunning; simplify_eq/=. destruct Hok as [Hmiss Hreg].
      specialize (Hmiss eq_refl). call_cases Hmiss.
    + destruct (calculateTSpendVotes f client h bh exp inM) as [[info err]|];
        [| done].
      cbn [mbind option_bind] in H. destruct err; simplify_eq; call_cases Hok.
  - done.
Qed.

Lemma call_complete_unfold (fuel : nat) (client : option Ledger) (h : string)
    (bh exp : Z) (inM : bool) (pc : CallPc) (e : Engine) :
  call_complete f fuel client h bh exp inM pc e =
  match pc, fuel with
  | CallReturned _ _, _ => Some (pc, e, [])
  | _, O => None
  | _, S fuel' =>
      '(pc', e', spawned) ← call_step f client h bh exp inM pc e;
      '(pc'', e'', spawned') ← call_complete f fuel' client h bh exp inM pc' e';
      Some (pc'', e'', spawned ++ spawned')
  end.
Proof. by destruct fuel, pc. Qed.

Lemma call_complete_inv (fuel : nat) (client : option Ledger) (h : string)
    (bh exp : Z) (inM : bool) (pc pc' : CallPc) (e e' : Engine)
    (spawned : list Thread) :
  call_complete f fuel client h bh exp inM pc e = Some (pc', e', spawned) →
  (pc' = pc ∧ e' = e ∧ spawned = [] ∧ ∃ r err, pc = CallReturned r err) ∨
  (∃ fuel' pc1 e1 sp1 sp2,
     fuel = S fuel' ∧
     call_step f client h bh exp inM pc e = Some (pc1, e1, sp1) ∧
     call_complete f fuel' client h bh exp inM pc1 e1 = Some (pc', e', sp2) ∧
     spawned = sp1 ++ sp2).
Proof.
  rewrite call_complete_unfold. intros H.
  destruct pc as [| | | b | r err];
    [| | | | left; cbn in H; simplify_eq; split_and!; by eauto];
    (destruct fuel as [|fuel']; [done |]; right;
     destruct (call_step f client h bh exp inM _ e) as [[[pc1 e1] sp1]|];
       [| done]; cbn [mbind option_bind] in H;
     destruct (call_complete f fuel' client h bh exp inM pc1 e1)
       as [[[pc2 e2] sp2]|] eqn:Hrest; [| done];
     cbn [mbind option_bind] in H; simplify_eq;
     by exists fuel', pc1, e1, sp1, sp2).
Qed.

Lemma call_complete_effect (fuel : nat) (client : option Ledger) (h : string)
    (bh exp : Z) (inM : bool) (pc pc' : CallPc) (e e' : Engine)
    (spawned : list Thread) :
  call_complete f fuel client h bh exp inM pc e = Some (pc', e', spawned) →
  call_ok h inM pc e →
  call_outcome h bh e e' spawned.
Proof.
  revert pc e spawned. induction fuel as [|fuel IH]; intros pc e spawned H Hok;
    apply call_complete_inv in H
      as [(-> & -> & -> & _)|(k & pc1 & e1 & sp1 & sp2 & Hk & Hstep & Hrest & ->)];
    try (unfold call_outcome; by eauto); try done.
  injection Hk as <-.
  destruct (call_step_effect _ _ _ _ _ _ _ _ _ _ Hstep Hok)
    as ((Hc1 & Ht1 & Hj1) & Hok1 & Hret1).
  destruct Hj1 as [[Hj1 ->]|(Hmiss & Hreg & Hj1 & ->)].
  - destruct (IH _ _ _ Hrest (Hok1 eq_refl)) as (Hc2 & Ht2 & Hj2).
    unfold call_outcome. rewrite Hc2, Ht2, Hc1, Ht1.
    split; [done |]. split; [done |].
    destruct Hj2 as [[Hj2 ->]|(Hmiss2 & Hreg2 & Hj2 & ->)].
    + left. by rewrite Hj2, Hj1.
    + right. rewrite <- Hc1, <- Hj1. by rewrite Hj2.
  - destruct Hret1 as (r & err & ->); [done |].
    rewrite call_complete_unfold in Hrest. simplify_eq.
    unfold call_outcome. split; [done |]. split; [done |]. right. done.
Qed.

Lemma single_flight_init : single_flight engine_init.
Proof. split; intros *; cbn; by rewrite lookup_nil. Qed.

(** A step of a goroutine keeps the engine single-flight and leaves every
    cache entry as it is. *)
Lemma job_event_single_flight (n : nat) (client : option Ledger) (elapsed : Q)
    (e e' : Engine) (h : string) (bh : Z) (pc : JobPc) :
  single_flight e →
  threads e !! n = Some (Job h bh pc) →
  engine_step f (EvRun n client elapsed) e = Some e' →
  single_flight e' ∧
  ∀ h0 v0, votingCache e !! h0 = Some v0 → votingCache e' !! h0 = Some v0.
Proof.
  intros [Huniq Hreg Hcached] Hn Hstep.
  cbn [engine_step] in Hstep. rewrite Hn in Hstep. cbn [mbind option_bind] in Hstep.
  destruct (job_step f client elapsed h bh pc e) as [[pc' e0]|] eqn:Hjob; [| done].
  cbn [mbind option_bind] in Hstep. injection Hstep as <-.
  destruct (job_step_effect _ _ _ _ _ _ _ _ Hjob) as (Ht & Hact & Hcases).
  assert (Hlook : ∀ i h1 bh1 pc1,
    <[n := Job h bh pc']> (threads e) !! i = Some (Job h1 bh1 pc1) →
    (i = n ∧ h1 = h ∧ pc1 = pc') ∨
    (i ≠ n ∧ threads e !! i = Some (Job h1 bh1 pc1))).
  { intros i h1 bh1 pc1 [(-> & [= -> -> ->] & _)|[? ?]]%list_lookup_insert_Some;
      eauto. }
  assert (Hother : ∀ i h1 bh1 pc1,
    i ≠ n → threads e !! i = Some (Job h1 bh1 pc1) → job_active pc1 = true →
    h1 ≠ h).
  { intros i h1 bh1 pc1 Hi Hti Hacti ->. apply Hi. by eapply Huniq. }
  destruct Hcases as [(Hc & Hj & Hact' & Hw)
                     |[(v & Hc & Hj & Hw & Hact' & Hw')|(Hc & Hj & ->)]].
  - (* the cache and the registry are untouched *)
    split; [split |]; cbn [threads votingCache parsingJobs set_threads].
    + intros i j h1 bh1 bh1' pc1 pc1' Hi Hj' Ha Ha'.
      apply Hlook in Hi as [(-> & -> & ->)|[Hin Hi]],
                     Hj' as [(-> & ? & ->)|[Hjn Hj']]; subst; try done.
      * destruct (Hother _ _ _ _ Hjn Hj' Ha' eq_refl).
      * destruct (Hother _ _ _ _ Hin Hi Ha eq_refl).
      * by eapply Huniq.
    + intros i h1 bh1 pc1 Hi Ha. rewrite Hj.
      apply Hlook in Hi as [(-> & -> & ->)|[Hin Hi]]; by eapply Hreg.
    + intros i h1 bh1 pc1 Hi Hsome. rewrite Hc in Hsome.
      apply Hlook in Hi as [(-> & -> & ->)|[Hin Hi]]; [| by eapply Hcached].
      destruct (writes_cache pc') eqn:Hwc; [| done].
      rewrite <- (Hcached _ _ _ _ Hn Hsome). symmetry. by apply Hw.
    + intros h0 v0. by rewrite Hc.
  - (* the cache write *)
    assert (Hfresh : votingCache e !! h = None).
    { destruct (votingCache e !! h) eqn:Hold; [| done].
      pose proof (Hcached _ _ _ _ Hn (mk_is_Some _ _ Hold)). congruence. }
    split; [split |]; cbn [threads votingCache parsingJobs set_threads].
    + intros i j h1 bh1 bh1' pc1 pc1' Hi Hj' Ha Ha'.
      apply Hlook in Hi as [(-> & -> & ->)|[Hin Hi]],
                     Hj' as [(-> & ? & ->)|[Hjn Hj']]; subst; try done.
      * destruct (Hother _ _ _ _ Hjn Hj' Ha' eq_refl).
      * destruct (Hother _ _ _ _ Hin Hi Ha eq_refl).
      * by eapply Huniq.
    + intros i h1 bh1 pc1 Hi Ha. rewrite Hj.
      apply Hlook in Hi as [(-> & -> & ->)|[Hin Hi]]; by eapply Hreg.
    + intros i h1 bh1 pc1 Hi Hsome. rewrite Hc in Hsome.
      apply Hlook in Hi as [(-> & -> & ->)|[Hin Hi]]; [done |].
      destruct (decide (h1 = h)) as [->|Hne].
      * destruct (writes_cache pc1) eqn:Hwc; [| done].
        destruct (Hother _ _ _ _ Hin Hi) ; [by destruct pc1 | done].
      * rewrite lookup_insert_ne in Hsome by done. by eapply Hcached.
    + intros h0 v0 H0. rewrite Hc.
      rewrite lookup_insert_ne; [done |]. intros ->. congruence.
  - (* the goroutine ends and the hash is deregistered *)
    split; [split |]; cbn [threads votingCache parsingJobs set_threads].
    + intros i j h1 bh1 bh1' pc1 pc1' Hi Hj' Ha Ha'.
      apply Hlook in Hi as [(-> & -> & ->)|[Hin Hi]],
                     Hj' as [(-> & ? & ->)|[Hjn Hj']]; subst; try done.
      by eapply Huniq.
    + intros i h1 bh1 pc1 Hi Ha. rewrite Hj.
      apply Hlook in Hi as [(-> & -> & ->)|[Hin Hi]]; [done |].
      rewrite lookup_delete_ne by (symmetry; by eapply Hother).
      by eapply Hreg.
    + intros i h1 bh1 pc1 Hi Hsome. rewrite Hc in Hsome.
      apply Hlook in Hi as [(-> & -> & ->)|[Hin Hi]]; [done |].
      by eapply Hcached.
    + intros h0 v0. by rewrite Hc.
Qed.

(** So does a whole call. *)
Lemma call_event_single_flight (client : option Ledger) (h : string) (bh exp : Z)
    (inM : bool) (e e' : Engine) :
  single_flight e →
  serial_step f (SerialCall h bh exp inM client) e = Some e' →
  single_flight e' ∧ votingCache e' = votingCache e.
Proof.
  intros [Huniq Hreg Hcached] Hstep. cbn [serial_step] in Hstep.
  destruct (call_complete f 4 client h bh exp inM CallStart e)
    as [[[pc e1] sp]|] eqn:Hcall; [| done].
  cbn [mbind option_bind] in Hstep. injection Hstep as <-.
  destruct (call_complete_effect _ _ _ _ _ _ _ _ _ _ _ Hcall I)
    as (Hc & _ & Hcases).
  destruct Hcases as [[Hj ->]|(Hmiss & Hnot & Hj & ->)].
  - assert (Hlook : ∀ i h1 bh1 pc1,
      (threads e ++ [Call h bh exp inM pc]) !! i = Some (Job h1 bh1 pc1) →
      threads e !! i = Some (Job h1 bh1 pc1)).
    { intros i h1 bh1 pc1 [?|[_ Hi]]%lookup_app_Some; [done |].
      by destruct (i - length (threads e))%nat as [|[|?]]. }
    split; [split |]; cbn [threads votingCache parsingJobs set_threads];
      [| | | done].
    + intros i j h1 bh1 bh1' pc1 pc1' Hi%Hlook Hj'%Hlook. by eapply Huniq.
    + intros i h1 bh1 pc1 Hi%Hlook. rewrite Hj. by eapply Hreg.
    + intros i h1 bh1 pc1 Hi%Hlook. rewrite Hc. by eapply Hcached.
  - assert (Hlook : ∀ i h1 bh1 pc1,
      (threads e ++ [Call h bh exp inM pc; Job h bh JobStart]) !! i
        = Some (Job h1 bh1 pc1) →
      threads e !! i = Some (Job h1 bh1 pc1) ∨
      (i = S (length (threads e)) ∧ h1 = h ∧ pc1 = JobStart)).
    { intros i h1 bh1 pc1 [?|[Hge Hi]]%lookup_app_Some; [by left |].
      destruct (i - length (threads e))%nat as [|[|?]] eqn:Hd;
        cbn in Hi; [done | | done].
      injection Hi as <- <- <-. right. split; [lia | done]. }
    assert (Hnone : ∀ i bh1 pc1,
      threads e !! i = Some (Job h bh1 pc1) → job_active pc1 = true → False).
    { intros i bh1 pc1 Hi Ha. apply Hnot. by eapply Hreg. }
    split; [split |]; cbn [threads votingCache parsingJobs set_threads];
      [| | | done].
    + intros i j h1 bh1 bh1' pc1 pc1' Hi Hj' Ha Ha'.
      apply Hlook in Hi as [Hi|(-> & -> & ->)],
                     Hj' as [Hj'|(-> & ? & ->)]; subst; try done.
      * by eapply Huniq.
      * destruct (Hnone _ _ _ Hi Ha).
      * destruct (Hnone _ _ _ Hj' Ha').
    + intros i h1 bh1 pc1 Hi Ha. rewrite Hj.
      apply Hlook in Hi as [Hi|(-> & -> & ->)]; [| by rewrite lookup_insert_eq].
      destruct (decide (h1 = h)) as [->|Hne]; [by rewrite lookup_insert_eq |].
      rewrite lookup_insert_ne by done. by eapply Hreg.
    + intros i h1 bh1 pc1 Hi Hsome. rewrite Hc in Hsome.
      apply Hlook in Hi as [Hi|(-> & -> & ->)]; [by eapply Hcached |].
      rewrite Hmiss in Hsome. by destruct Hsome.
Qed.

Lemma serial_step_single_flight (ev : SerialEvent) (e e' : Engine) :
  single_flight e → serial_step f ev e = Some e' →
  single_flight e' ∧
  ∀ h v, votingCache e !! h = Some v → votingCache e' !! h = Some v.
Proof.
  intros Hsf Hstep. destruct ev as [h bh exp inM client|n client elapsed].
  - destruct (call_event_single_flight _ _ _ _ _ _ _ Hsf Hstep) as [Hsf' Hc].
    split; [done |]. intros h0 v0. by rewrite Hc.
  - cbn [serial_step] in Hstep.
    destruct (threads e !! n) as [[|h bh pc]|] eqn:Hn; [done | | done].
    by eapply job_event_single_flight.
Qed.

Lemma serial_run_single_flight (evs : list SerialEvent) (e e' : Engine) :
  single_flight e → serial_run f evs e = Some e' →
  single_flight e' ∧
  ∀ h v, votingCache e !! h = Some v → votingCache e' !! h = Some v.
Proof.
  revert e. induction evs as [|ev evs IH]; intros e Hsf Hrun; cbn in Hrun.
  - by simplify_eq.
  - destruct (serial_step f ev e) as [e1|] eqn:Hstep; [| done].
    destruct (serial_step_single_flight _ _ _ Hsf Hstep) as [Hsf1 Hc1].
    destruct (IH _ Hsf1 Hrun) as [Hsf' Hc']. eauto.
Qed.

(** *** A serial schedule is a schedule of the engine *)

Lemma call_step_set_threads (client : option Ledger) (h : string) (bh exp : Z)
    (inM : bool) (pc : CallPc) (e : Engine) (l : list Thread) :
  call_step f client h bh exp inM pc (set_threads e l) =
  match call_step f client h bh exp inM pc e with
  | Some (pc', e', spawned) => Some (pc', set_threads e' l, spawned)
  | None => None
  end.
Proof.
  destruct pc; cbn [call_step set_threads votingCache voteParsingProgress
                    parsingJobs].
  - destruct (negb inM); [destruct (votingCache e !! h) |]; done.
  - done.
  - by destruct (voteParsingProgress e !! h).
  - destruct (negb inM && negb isJobRunning); [done |].
    destruct (calculateTSpendVotes f client h bh exp inM) as [[info err]|];
      [| done].
    by destruct err.
  - done.
Qed.

Lemma call_complete_engine_run (fuel : nat) (client : option Ledger) (h : string)
    (bh exp : Z) (inM : bool) (pc pc' : CallPc) (e e' : Engine)
    (spawned : list Thread) (l others : list Thread) :
  call_complete f fuel client h bh exp inM pc e = Some (pc', e', spawned) →
  ∃ k, engine_run f (replicate k (EvRun (length l) client 0%Q))
         (set_threads e (l ++ Call h bh exp inM pc :: others))
       = Some (set_threads e' (l ++ Call h bh exp inM pc' :: others ++ spawned)).
Proof.
  revert pc e spawned others.
  induction fuel as [|fuel IH]; intros pc e spawned others H;
    apply call_complete_inv in H
      as [(-> & -> & -> & _)|(k & pc1 & e1 & sp1 & sp2 & Hk & Hstep & Hrest & ->)];
    try (exists 0%nat; by rewrite app_nil_r); try done.
  injection Hk as <-.
  destruct (IH _ _ _ (others ++ sp1) Hrest) as [k Hrun].
  exists (S k). cbn [replicate engine_run engine_step threads set_threads].
  rewrite list_lookup_middle by done. cbn [mbind option_bind].
  rewrite call_step_set_threads, Hstep. cbn [mbind option_bind].
  rewrite insert_app_r_alt, Nat.sub_diag by done. cbn [insert list_insert].
  rewrite <- !app_assoc. cbn [app].
  rewrite <- app_assoc in Hrun. exact Hrun.
Qed.

Lemma serial_step_engine_run (ev : SerialEvent) (e e' : Engine) :
  serial_step f ev e = Some e' → ∃ evs, engine_run f evs e = Some e'.
Proof.
  destruct ev as [h bh exp inM client|n client elapsed]; cbn [serial_step];
    intros H.
  - destruct (call_complete f 4 client h bh exp inM CallStart e)
      as [[[pc e1] sp]|] eqn:Hcall; [| done].
    cbn [mbind option_bind] in H. injection H as <-.
    destruct (call_complete_engine_run _ _ _ _ _ _ _ _ _ _ _ (threads e) [] Hcall)
      as [k Hrun].
    exists (EvCall h bh exp inM :: replicate k (EvRun (length (threads e)) client 0%Q)).
    cbn [engine_run engine_step mbind option_bind]. exact Hrun.
  - destruct (threads e !! n) as [[]|]; [done | | done].
    exists [EvRun n client elapsed]. cbn [engine_run].
    by destruct (engine_step f _ e).
Qed.

Lemma serial_run_engine_run (evs : list SerialEvent) (e e' : Engine) :
  serial_run f evs e = Some e' → ∃ evs', engine_run f evs' e = Some e'.
Proof.
  revert e. induction evs as [|ev evs IH]; intros e H; cbn in H.
  - exists []. done.
  - destruct (serial_step f ev e) as [e1|] eqn:Hstep; [| done].
    destruct (serial_step_engine_run _ _ _ Hstep) as [evs1 H1].
    destruct (IH _ H) as [evs2 H2].
    exists (evs1 ++ evs2). by rewrite engine_run_app, H1.
Qed.

(** *** Single flight and cache stability under serial calls *)

Lemma is_active_job_spec (h : string) (t : Thread) :
  is_active_job h t = true ↔ ∃ bh pc, t = Job h bh pc ∧ job_active pc = true.
Proof.
  destruct t as [|h' bh pc]; cbn [is_active_job].
  - split; [done | by intros (? & ? & ? & _)].
  - split.
    + destruct pc; try done; intros ->%bool_decide_eq_true; eauto.
    + intros (? & ? & [= -> <- <-] & Ha).
      destruct pc; try done; by apply bool_decide_eq_true.
Qed.

Lemma filter_at_most_one {A} (P : A → bool) (l : list A) :
  (∀ i j x y, l !! i = Some x → l !! j = Some y →
              P x = true → P y = true → i = j) →
  (length (List.filter P l) ≤ 1)%nat.
Proof.
  induction l as [|a l IH]; intros Huniq; cbn [List.filter]; [cbn; lia |].
  destruct (P a) eqn:Ha.
  - assert (List.filter P l = []) as ->; [| cbn; lia].
    clear IH. induction l as [|b l IHl]; [done |]. cbn [List.filter].
    destruct (P b) eqn:Hb.
    + specialize (Huniq 0%nat 1%nat a b eq_refl eq_refl Ha Hb). done.
    + apply IHl. intros [|i] [|j] x y Hi Hj Hx Hy; try done.
      * specialize (Huniq 0%nat (S (S j)) x y Hi Hj Hx Hy). done.
      * specialize (Huniq (S (S i)) 0%nat x y Hi Hj Hx Hy). done.
      * specialize (Huniq (S (S i)) (S (S j)) x y Hi Hj Hx Hy). lia.
  - apply IH. intros i j x y Hi Hj Hx Hy.
    specialize (Huniq (S i) (S j) x y Hi Hj Hx Hy). lia.
Qed.

(** When calls are served one at a time, no hash ever has two active
    tally goroutines. *)
Lemma serial_single_flight (evs : list SerialEvent) (e : Engine) (h : string) :
  serial_run f evs engine_init = Some e →
  (length (active_jobs h e) ≤ 1)%nat.
Proof.
  intros Hrun.
  destruct (serial_run_single_flight _ _ _ single_flight_init Hrun) as [[Huniq _ _] _].
  apply filter_at_most_one. intros i j x y Hi Hj Hx Hy.
  apply is_active_job_spec in Hx as (bh & pc & -> & Ha).
  apply is_active_job_spec in Hy as (bh' & pc' & -> & Ha').
  by eapply Huniq.
Qed.

(** When calls are served one at a time, a cache entry once written
    stays as it is, and a later call for a confirmed spend returns it
    and starts nothing. *)
Lemma serial_cache_stable (evs1 evs2 : list SerialEvent) (e1 e2 e3 : Engine)
    (h : string) (v : TSpendVotingInfo) (bh exp : Z) (client : option Ledger) :
  serial_run f evs1 engine_init = Some e1 →
  votingCache e1 !! h = Some v →
  serial_run f evs2 e1 = Some e2 →
  serial_step f (SerialCall h bh exp false client) e2 = Some e3 →
  votingCache e2 !! h = Some v ∧
  votingCache e3 !! h = Some v ∧
  threads e3 = threads e2 ++ [Call h bh exp false (CallReturned (Some v) None)].
Proof.
  intros Hrun1 Hv Hrun2 Hcall.
  destruct (serial_run_single_flight _ _ _ single_flight_init Hrun1) as [Hsf1 _].
  destruct (serial_run_single_flight _ _ _ Hsf1 Hrun2) as [Hsf2 Hkeep].
  specialize (Hkeep _ _ Hv). split; [done |].
  cbn [serial_step call_complete] in Hcall.
  rewrite (call_step_cached f client h bh exp e2 v Hkeep) in Hcall.
  cbn [mbind option_bind call_complete] in Hcall. injection Hcall as <-.
  done.
Qed.

End SerialFacts.

(* ================================================================= *)
(** * Further properties of the code *)

(* ----------------------------------------------------------------- *)
(** *** More on the vote-bits codec *)

Lemma rev_pairs_app (l k : list ascii) :
  (length l `mod` 2 = 0)%nat → rev_pairs (l ++ k) = rev_pairs k ++ rev_pairs l.
Proof.
  induction l as [|a|a b l IH] using list_pair_ind; intros Hev.
  - by rewrite app_nil_r.
  - done.
  - cbn [app rev_pairs]. rewrite IH, app_assoc; [done |]. simpl length in Hev. lia.
Qed.

Lemma rev_pairs_involutive (l : list ascii) :
  (length l `mod` 2 = 0)%nat → rev_pairs (rev_pairs l) = l.
Proof.
  induction l as [|a|a b l IH] using list_pair_ind; intros Hev.
  - done.
  - done.
  - assert (length l `mod` 2 = 0)%nat as Hl by (simpl length in Hev; lia).
    cbn [rev_pairs]. rewrite rev_pairs_app by (by rewrite length_rev_pairs).
    by rewrite IH.
Qed.

Lemma bytes_of_bytes (l : list ascii) : bytes (of_bytes l) = l.
Proof. apply String.list_ascii_of_string_of_list_ascii. Qed.

Lemma of_bytes_bytes (s : string) : of_bytes (bytes s) = s.
Proof. apply String.string_of_list_ascii_of_string. Qed.

(** X1.  [reverseHexBytes] never panics, keeps the length, and undoes itself:
    applied twice it gives the string back (a string of odd length is
    returned as it is by each application). *)
Theorem reverseHexBytes_involutive (s : string) :
  ∃ r, reverseHexBytes s = Some r ∧ len r = len s ∧ reverseHexBytes r = Some s.
Proof.
  destruct (decide (len s `mod` 2 = 0)%nat) as [Hev|Hodd].
  - exists (of_bytes (rev_pairs (bytes s))).
    assert (Hlen : len (of_bytes (rev_pairs (bytes s))) = len s).
    { by rewrite <- length_bytes, bytes_of_bytes, length_rev_pairs, length_bytes
        by (by rewrite length_bytes). }
    split_and!; [by apply reverseHexBytes_even | done |].
    rewrite reverseHexBytes_even by (by rewrite Hlen).
    rewrite bytes_of_bytes, rev_pairs_involutive by (by rewrite length_bytes).
    by rewrite of_bytes_bytes.
  - exists s. unfold reverseHexBytes. by rewrite decide_True.
Qed.

(** X2.  On a hexadecimal string [reverseHexBytes] reverses the order of the
    bytes the string denotes. *)
Theorem reverseHexBytes_byte_order (s : string) (bs : list Z) :
  hex_decode s = Some bs →
  ∃ r, reverseHexBytes s = Some r ∧ hex_decode r = Some (rev bs).
Proof.
  intros Hs. exists (of_bytes (rev_pairs (bytes s))). split.
  - apply reverseHexBytes_even. apply hex_decode_len in Hs. lia.
  - by apply hex_decode_rev_pairs.
Qed.

Lemma reverseHexBytes_byte_order_witness :
  ∃ r, reverseHexBytes "abcd1234" = Some r ∧ hex_decode r = Some (rev [171; 205; 18; 52]).
Proof. apply (reverseHexBytes_byte_order "abcd1234" [171; 205; 18; 52]). reflexivity. Defined.


Lemma slice_to_app_le (n : nat) (s t : string) :
  (n ≤ len s)%nat → slice_to n (s +:+ t) = slice_to n s.
Proof.
  revert s. induction n as [|n IH]; intros [|c s] Hn; simpl in *; try done; try lia.
  rewrite IH; [done | lia].
Qed.

Lemma len_8_inv (s : string) :
  len s = 8%nat →
  ∃ c1 c2 c3 c4 c5 c6 c7 c8,
    s = String c1 (String c2 (String c3 (String c4
          (String c5 (String c6 (String c7 (String c8 EmptyString))))))).
Proof.
  intros H. do 8 (destruct s as [|? s]; [done |]).
  destruct s; [| done]. eauto 10.
Qed.

(** What the decoder does once the eight characters of opcode, length and
    prefix are passed; it never looks at them. *)
Lemma parseVoteBitsForTSpend_body (f : string → string → bool)
    (pre body tspendHash : string) :
  len pre = 8%nat → (66 ≤ len body)%nat →
  parseVoteBitsForTSpend f (pre +:+ body) tspendHash =
    hashHex ← slice_to 64 body;
    reversedHash ← reverseHexBytes hashHex;
    if negb (EqualFold f reversedHash tspendHash) then Some "unknown"
    else
      voteHex ← slice 64 66 body;
      let voteChoice := Z.land (Sscanf_02x voteHex) 3 in
      Some (if voteChoice =? 0 then "abstain"
            else if voteChoice =? 1 then "yes"
            else if voteChoice =? 2 then "no"
            else if voteChoice =? 3 then "invalid"
            else "unknown").
Proof.
  intros (c1 & c2 & c3 & c4 & c5 & c6 & c7 & c8 & ->)%len_8_inv Hbody.
  unfold parseVoteBitsForTSpend. rewrite !str_app_cons.
  change ("" +:+ body) with body. cbn [len String.length]. fold (len body).
  rewrite decide_False by lia. rewrite decide_False by lia.
  cbn [slice_from mbind option_bind len String.length]. fold (len body).
  rewrite decide_False by lia.
  cbn [slice_from mbind option_bind].
  rewrite decide_False by lia.
  destruct (slice_to 64 body) as [hashHex|]; [| done]. cbn [mbind option_bind].
  destruct (reverseHexBytes hashHex) as [reversedHash|]; [| done].
  cbn [mbind option_bind].
  destruct (negb _); [done |].
  by rewrite decide_False by lia.
Qed.

(** X3.  The decoder reads the 66 characters after the first eight and nothing
    else: the opcode, the push length and the two prefix bytes are never
    checked, and whatever follows the vote byte is ignored. *)
Theorem parseVoteBitsForTSpend_reads_66 (f : string → string → bool)
    (pre pre' body rest tspendHash : string) :
  len pre = 8%nat → len pre' = 8%nat → len body = 66%nat →
  parseVoteBitsForTSpend f (pre +:+ body +:+ rest) tspendHash =
  parseVoteBitsForTSpend f (pre' +:+ body) tspendHash.
Proof.
  intros Hpre Hpre' Hbody.
  rewrite !parseVoteBitsForTSpend_body by (rewrite ?len_app; lia).
  unfold slice. by rewrite !slice_to_app_le by lia.
Qed.

Lemma parseVoteBitsForTSpend_reads_66_witness :
  parseVoteBitsForTSpend ascii_only
    ("6a235453" +:+ "0102030405060708090a0b0c0d0e0f101112131415161718191a1b1c1d1e1f2001"
       +:+ "ffff") sample_hash =
  parseVoteBitsForTSpend ascii_only
    ("00000000" +:+ "0102030405060708090a0b0c0d0e0f101112131415161718191a1b1c1d1e1f2001")
    sample_hash.
Proof.
  apply (parseVoteBitsForTSpend_reads_66 ascii_only "6a235453" "00000000"
           "0102030405060708090a0b0c0d0e0f101112131415161718191a1b1c1d1e1f2001"
           "ffff" sample_hash); reflexivity.
Defined.

(** X4.  A vote byte that does not start with a hexadecimal digit (nor with a
    blank) is read as zero: behind a matching hash it counts as
    "abstain", not as "unknown". *)
Theorem parseVoteBitsForTSpend_unreadable_vote_byte (f : string → string → bool)
    (pre hashHex rest target : string) (a : ascii) (H : list Z) :
  len pre = 8%nat →
  hex_decode hashHex = Some (rev H) → length H = 32%nat →
  hex_decode target = Some H →
  hexval a = None → is_blank a = false → (1 ≤ len rest)%nat →
  parseVoteBitsForTSpend f (pre +:+ hashHex +:+ String a rest) target
    = Some "abstain".
Proof.
  intros Hpre Hhash HlenH Htarget Ha Hblank Hrest.
  pose proof (hex_decode_len _ _ Hhash) as Hlen.
  rewrite length_rev, HlenH in Hlen. simpl in Hlen.
  rewrite parseVoteBitsForTSpend_body
    by (rewrite ?len_app; unfold len in *; cbn [String.length]; lia).
  replace 64%nat with (len hashHex) at 1 by done.
  rewrite slice_to_app. cbn [mbind option_bind].
  rewrite reverseHexBytes_even by (rewrite Hlen; done).
  cbn [mbind option_bind].
  apply hex_decode_rev_pairs in Hhash. rewrite rev_involutive in Hhash.
  rewrite (EqualFold_hex f _ _ _ _ Hhash Htarget).
  rewrite bool_decide_eq_true_2 by done. cbn [negb].
  destruct rest as [|b rest]; [cbn in Hrest; lia |].
  assert (slice 64 66 (hashHex +:+ String a (String b rest))
          = Some (String a (String b EmptyString))) as ->.
  { unfold slice.
    change (String a (String b rest))
      with (String a (String b EmptyString) +:+ rest).
    rewrite <- str_app_assoc.
    replace 66%nat with (len (hashHex +:+ String a (String b EmptyString)))
      by (rewrite len_app; unfold len in *; cbn [String.length]; lia).
    rewrite slice_to_app. cbn [mbind option_bind].
    replace 64%nat with (len hashHex) by done. apply slice_from_app. }
  cbn [mbind option_bind Sscanf_02x scan_hex2]. by rewrite Hblank, Ha.
Qed.

Lemma parseVoteBitsForTSpend_unreadable_vote_byte_witness :
  parseVoteBitsForTSpend ascii_only
    ("6a235453" +:+ "0102030405060708090a0b0c0d0e0f101112131415161718191a1b1c1d1e1f20"
       +:+ String "z" "1") sample_hash
  = Some "abstain".
Proof.
  apply (parseVoteBitsForTSpend_unreadable_vote_byte ascii_only "6a235453"
           "0102030405060708090a0b0c0d0e0f101112131415161718191a1b1c1d1e1f20"
           "1" sample_hash "z" sample_hash_bytes);
    first [reflexivity | cbn; lia].
Defined.

(* ----------------------------------------------------------------- *)
(** *** More on the per-transaction decoder *)

Lemma parseVoteBitsForTSpend_label (f : string → string → bool)
    (hexData tspendHash : string) :
  ∃ label, parseVoteBitsForTSpend f hexData tspendHash = Some label ∧
           label ∈ vote_labels.
Proof.
  assert (Hunk : ∃ label, Some "unknown" = Some label ∧ label ∈ vote_labels).
  { exists "unknown". split; [done | repeat constructor]. }
  unfold parseVoteBitsForTSpend.
  case_decide; [done |]. case_decide; [done |].
  destruct (slice_from_is_Some 4 hexData) as (dataHex & -> & HdataHex); [lia |].
  cbn [mbind option_bind]. case_decide; [done |].
  destruct (slice_from_is_Some 4 dataHex) as (rest & -> & Hrest); [lia |].
  cbn [mbind option_bind]. case_decide; [done |].
  destruct (slice_to_is_Some 64 rest) as (hashHex & -> & HhashHex); [lia |].
  cbn [mbind option_bind].
  destruct (reverseHexBytes_is_Some hashHex) as (reversedHash & ->).
  cbn [mbind option_bind].
  destruct (EqualFold f reversedHash tspendHash); [|done]. cbn [negb].
  case_decide; [done |].
  destruct (slice_is_Some 64 66 rest) as (voteHex & -> & HvoteHex); [lia |].
  cbn [mbind option_bind].
  eexists. split; [done |].
  unfold vote_labels. repeat destruct (_ =? _); repeat constructor.
Qed.

Lemma parseVoteBitsForTSpend_empty (f : string → string → bool) (tspendHash : string) :
  parseVoteBitsForTSpend f "" tspendHash = Some "unknown".
Proof. done. Qed.

(** One turn of the loop over the outputs: the output is passed over, and
    then it carries no vote other than "unknown", or it carries a vote,
    which is returned. *)
Lemma parseTSpendVote_outputs_cons (f : string → string → bool) (output : json)
    (rest : list json) (tspendHash : string) :
  (parseTSpendVote_outputs f (output :: rest) tspendHash
     = parseTSpendVote_outputs f rest tspendHash ∧
   ∀ label, vote_output f output tspendHash label → label = "unknown") ∨
  (∃ label, label ≠ "unknown" ∧ label ∈ vote_labels ∧
     vote_output f output tspendHash label ∧
     parseTSpendVote_outputs f (output :: rest) tspendHash = Some label).
Proof.
  cbn [parseTSpendVote_outputs].
  destruct output as [| | | | |voutMap];
    try (left; split; [done | by intros ? (? & ? & ? & ? & _)]).
  cbn [as_object].
  destruct (voutMap !! "scriptPubKey") as [spk|] eqn:Hspk;
    [| left; split; [done | intros ? (? & ? & ? & [= <-] & ? & _); congruence]].
  destruct spk as [| | | | |scriptPubKey];
    try (left; split; [done | intros ? (? & ? & ? & [= <-] & ? & _); congruence]).
  cbn [as_object].
  destruct (decide (default "" (as_string (scriptPubKey !! "type")) ≠ "nulldata"))
    as [Hty|Hty].
  { left. split; [done |].
    intros ? (? & ? & ? & [= <-] & ? & Hty' & _). simplify_eq.
    rewrite Hty' in Hty. by destruct Hty. }
  apply dec_stable in Hty.
  assert (scriptPubKey !! "type" = Some (JStr "nulldata")) as Htype.
  { destruct (scriptPubKey !! "type") as [[]|]; simplify_eq/=; done. }
  destruct (scriptPubKey !! "hex") as [hex|] eqn:Hhex;
    [| left; split; [done |];
       intros ? (? & ? & ? & [= <-] & ? & _ & ? & _); simplify_eq].
  destruct hex as [| | |hexData| |];
    try (left; split; [done |];
         intros ? (? & ? & ? & [= <-] & ? & _ & ? & _); simplify_eq).
  cbn [as_string].
  destruct (decide (hexData = "")) as [->|Hne].
  { left. split; [done |].
    intros ? (? & ? & ? & [= <-] & ? & _ & ? & Hp). simplify_eq.
    rewrite parseVoteBitsForTSpend_empty in Hp. by simplify_eq. }
  destruct (parseVoteBitsForTSpend_label f hexData tspendHash) as (vote & Hvote & Hin).
  rewrite Hvote. cbn [mbind option_bind].
  destruct (decide (vote ≠ "unknown")) as [Hv|Hv].
  - right. exists vote. split_and!; [done | done | | done].
    by exists voutMap, scriptPubKey, hexData.
  - apply dec_stable in Hv. subst vote. left. split; [done |].
    intros ? (? & ? & ? & [= <-] & ? & _ & ? & Hp). simplify_eq. congruence.
Qed.

Lemma parseTSpendVote_outputs_first (f : string → string → bool)
    (vout : list json) (tspendHash label : string) :
  label ≠ "unknown" →
  parseTSpendVote_outputs f vout tspendHash = Some label ↔
  ∃ i output,
    vout !! i = Some output ∧ vote_output f output tspendHash label ∧
    ∀ j output' label', (j < i)%nat → vout !! j = Some output' →
      vote_output f output' tspendHash label' → label' = "unknown".
Proof.
  intros Hlabel. induction vout as [|output rest IH].
  - split; [intros [=]; congruence | by intros (i & ? & ? & _)].
  - destruct (parseTSpendVote_outputs_cons f output rest tspendHash)
      as [[-> Hskip]|(l & Hl & _ & Hout & ->)].
    + rewrite IH. split.
      * intros (i & o & Hi & Ho & Hmin). exists (S i), o. split_and!; [done.. |].
        intros [|j] o' l' Hj Ho' Hv; [simplify_eq/=; by eapply Hskip |].
        eapply (Hmin j); [lia | done..].
      * intros ([|i] & o & Hi & Ho & Hmin).
        { simplify_eq/=. by destruct Hlabel, (Hskip _ Ho). }
        exists i, o. split_and!; [done.. |].
        intros j o' l' Hj Ho'. apply (Hmin (S j)); [lia | done].
    + split.
      * intros [= ->]. exists 0%nat, output. split_and!; [done.. |]. lia.
      * intros ([|i] & o & Hi & Ho & Hmin).
        -- simplify_eq/=.
           destruct Hout as (? & ? & ? & [= ->] & ? & ? & ? & ?),
                    Ho as (? & ? & ? & [= ->] & ? & ? & ? & ?).
           by simplify_eq.
        -- destruct Hl. apply (Hmin 0%nat output l); [lia | done..].
Qed.

Lemma parseTSpendVote_outputs_label (f : string → string → bool)
    (vout : list json) (tspendHash : string) :
  ∃ label, parseTSpendVote_outputs f vout tspendHash = Some label ∧
           label ∈ vote_labels.
Proof.
  induction vout as [|output rest IH].
  - exists "unknown". split; [done | repeat constructor].
  - destruct (parseTSpendVote_outputs_cons f output rest tspendHash)
      as [[-> _]|(l & _ & Hin & _ & ->)]; [exact IH | by exists l].
Qed.

(** X5.  The per-transaction decoder never panics and returns one of the five
    labels, whatever the transaction holds. *)
Theorem parseTSpendVote_total (f : string → string → bool)
    (tx : gmap string json) (tspendHash : string) :
  ∃ label, parseTSpendVote f tx tspendHash = Some label ∧ label ∈ vote_labels.
Proof.
  assert (Hunk : ∃ label, Some "unknown" = Some label ∧ label ∈ vote_labels).
  { exists "unknown". split; [done | repeat constructor]. }
  unfold parseTSpendVote.
  destruct (as_array (tx !! "vout")) as [vout|]; [| done].
  case_decide; [done |]. apply parseTSpendVote_outputs_label.
Qed.

(** X6.  The vote of a transaction is the vote of its first output that
    carries one other than "unknown": a label other than "unknown" is
    returned exactly when the transaction has two outputs or more, some
    data-carrying output decodes to that label for the target hash, and
    no output before it decodes to anything but "unknown". *)
Theorem parseTSpendVote_first_vote (f : string → string → bool)
    (tx : gmap string json) (tspendHash label : string) :
  label ≠ "unknown" →
  parseTSpendVote f tx tspendHash = Some label ↔
  ∃ vout i output,
    tx !! "vout" = Some (JArr vout) ∧ (2 ≤ length vout)%nat ∧
    vout !! i = Some output ∧ vote_output f output tspendHash label ∧
    ∀ j output' label', (j < i)%nat → vout !! j = Some output' →
      vote_output f output' tspendHash label' → label' = "unknown".
Proof.
  intros Hlabel. unfold parseTSpendVote.
  destruct (tx !! "vout") as [[| | | |vout|]|] eqn:Hvout; cbn [as_array];
    try (split; [intros [=]; congruence | by intros (? & ? & ? & [=] & _)]).
  case_decide as Hlen.
  - split; [intros [=]; congruence |].
    intros (? & ? & ? & [= <-] & ? & _). lia.
  - rewrite parseTSpendVote_outputs_first by done. split.
    + intros (i & o & ?). exists vout, i, o. split_and!; [done | lia | tauto..].
    + intros (? & i & o & [= <-] & _ & ?). by exists i, o.
Qed.

Lemma parseTSpendVote_first_vote_witness :
  parseTSpendVote ascii_only (vote_tx sample_payload) sample_hash = Some "yes" ↔
  ∃ vout i output,
    vote_tx sample_payload !! "vout" = Some (JArr vout) ∧ (2 ≤ length vout)%nat ∧
    vout !! i = Some output ∧ vote_output ascii_only output sample_hash "yes" ∧
    ∀ j output' label', (j < i)%nat → vout !! j = Some output' →
      vote_output ascii_only output' sample_hash label' → label' = "unknown".
Proof.
  apply (parseTSpendVote_first_vote ascii_only (vote_tx sample_payload) sample_hash "yes").
  discriminate.
Defined.

(* ----------------------------------------------------------------- *)
(** *** Spend records *)

Lemma extract_output_spec (acc : Q * string) (v : json) :
  extract_output acc v
  = ((acc.1 + output_value v)%Q, default acc.2 (output_payee v)).
Proof.
  unfold extract_output, output_value, output_payee.
  destruct v as [| | | | |voutMap]; simpl; rewrite ?lookup_empty; try done.
  destruct (voutMap !! "scriptPubKey") as [[| | | | |spk]|]; simpl; try done.
  destruct (spk !! "addresses") as [[| | | |[|[] ?]|]|]; done.
Qed.

Lemma default_last_cons {A} (d a : A) (l : list A) :
  default d (last (a :: l)) = default a (last l).
Proof.
  revert d a. induction l as [|b l IH]; intros d a; [done |].
  change (last (a :: b :: l)) with (last (b :: l)). by rewrite !(IH _ b).
Qed.

Lemma foldl_extract_output (vout : list json) (acc : Q * string) :
  ((foldl extract_output acc vout).1
     == acc.1 + foldr Qplus 0 (output_value <$> vout))%Q ∧
  (foldl extract_output acc vout).2
    = default acc.2 (last (omap output_payee vout)).
Proof.
  revert acc. induction vout as [|v vout IH]; intros acc; cbn [foldl fmap list_fmap foldr omap list_omap].
  - split; [ring | done].
  - destruct (IH (extract_output acc v)) as [-> ->].
    rewrite extract_output_spec. cbn [fst snd]. split; [ring |].
    destruct (output_payee v) as [addr|]; cbn [default]; [| done].
    by rewrite default_last_cons.
Qed.

(** X7.  Both extractors report as amount the sum of the numeric "value"
    fields of the outputs, and as payee the first address of the last
    output that lists one (the empty string when none does); an output
    that is no object, or has no such fields, adds nothing.  A missing
    output list is an empty one. *)
Theorem extract_amount_payee (tx : gmap string json) (currentHeight : Z)
    (blockHeight : Z) (blockHash : string) (blockTime : Z) :
  let vout := default [] (as_array (tx !! "vout")) in
  let tspend := extractTSpendInfo tx currentHeight in
  let history := extractTSpendHistory tx blockHeight blockHash blockTime in
  (Amount tspend == foldr Qplus 0 (output_value <$> vout))%Q ∧
  Payee tspend = default "" (last (omap output_payee vout)) ∧
  hAmount history = Amount tspend ∧ hPayee history = Payee tspend ∧
  TxHash tspend = default "" (as_string (tx !! "txid")) ∧
  hTxHash history = TxHash tspend.
Proof.
  cbv zeta. unfold extractTSpendInfo, extractTSpendHistory.
  pose proof (foldl_extract_output (default [] (as_array (tx !! "vout"))) (0%Q, ""))
    as [Ha Hp].
  destruct (foldl extract_output _ _) as [amount payee].
  cbn [Amount Payee hAmount hPayee TxHash hTxHash fst snd] in *.
  split_and!; [| done..]. rewrite Ha. ring.
Qed.

(* ----------------------------------------------------------------- *)
(** *** More on the mempool probe *)

Lemma scanMempool_tx_spec (c : Ledger) (currentHeight : Z)
    (tspends : goslice TSpend) (txHash : string) :
  scanMempool_tx c currentHeight tspends txHash =
  match mempool_spend c currentHeight txHash with
  | Some t => SOf (elems tspends ++ [t])
  | None => tspends
  end.
Proof.
  unfold scanMempool_tx, mempool_spend.
  destruct (getTransaction c txHash) as [tx|]; [| done]. cbn [mbind option_bind].
  by destruct (isTreasurySpend tx).
Qed.

Lemma foldl_scanMempool_tx (c : Ledger) (currentHeight : Z) (keys : list string)
    (tspends : goslice TSpend) :
  let found := omap (mempool_spend c currentHeight) keys in
  foldl (scanMempool_tx c currentHeight) tspends keys =
  match found with [] => tspends | _ => SOf (elems tspends ++ found) end.
Proof.
  cbv zeta. revert tspends.
  induction keys as [|k keys IH]; intros tspends; cbn [foldl omap list_omap]; [done |].
  rewrite IH, scanMempool_tx_spec.
  destruct (mempool_spend c currentHeight k) as [t|]; [| done].
  cbn [elems]. destruct (omap _ keys); [done |]. by rewrite <- app_assoc.
Qed.

(** X8.  When the mempool can be listed, the probe reports no error and
    exactly the entries that can be fetched and pass the detector, each
    once, with the chain height it read (zero when that read failed);
    when there is none the list is nil, never empty and non-nil. *)
Theorem scanMempoolForTSpends_finds (c : Ledger) (mempoolMap : gmap string json) :
  getrawmempool c = Some (Some mempoolMap) →
  let currentHeight := default 0 (GetBlockCount c) in
  let probe := scanMempoolForTSpends (Some c) in
  probe.2 = None ∧
  (∀ t, t ∈ elems probe.1 ↔
        ∃ txHash tx, is_Some (mempoolMap !! txHash) ∧
          getTransaction c txHash = Some tx ∧ isTreasurySpend tx = true ∧
          t = extractTSpendInfo tx currentHeight) ∧
  length (elems probe.1)
    = length (omap (mempool_spend c currentHeight) (map_to_list mempoolMap).*1) ∧
  (elems probe.1 = [] → probe.1 = SNil).
Proof.
  intros Hmem. cbv zeta. unfold scanMempoolForTSpends. rewrite Hmem. cbn [fst snd].
  rewrite foldl_scanMempool_tx.
  set (h := default 0 (GetBlockCount c)).
  set (found := omap (mempool_spend c h) (map_to_list mempoolMap).*1).
  assert (Helems : elems match found with [] => SNil | _ => SOf (elems SNil ++ found) end
                   = found) by (by destruct found).
  rewrite Helems. split_and!; [done | | done | by destruct found].
  intros t. unfold found. rewrite list_elem_of_omap. split.
  - intros (k & Hk & Hs). unfold mempool_spend in Hs.
    destruct (getTransaction c k) as [tx|] eqn:Htx; [| done].
    cbn [mbind option_bind] in Hs.
    destruct (isTreasurySpend tx) eqn:Hspend; [| done]. injection Hs as <-.
    apply list_elem_of_fmap in Hk as ([k' v] & -> & Hkv).
    apply elem_of_map_to_list in Hkv. exists k', tx. eauto.
  - intros (k & tx & [v Hv] & Htx & Hspend & ->). exists k. split.
    + apply list_elem_of_fmap. exists (k, v). split; [done |].
      by apply elem_of_map_to_list.
    + unfold mempool_spend. rewrite Htx. cbn [mbind option_bind]. by rewrite Hspend.
Qed.

Lemma scanMempoolForTSpends_finds_witness :
  (scanMempoolForTSpends (Some unfetchable_mempool)).1 = SNil.
Proof.
  apply (scanMempoolForTSpends_finds unfetchable_mempool {[ "a" := JObj ∅ ]} eq_refl).
  vm_compute. reflexivity.
Defined.

(** X9.  [FetchTreasuryInfo] never fails: whatever the client does it returns
    a record and no error.  The balance is the treasury balance in atoms
    divided by 10^8 when the balance can be read and zero when it cannot
    (or there is no client), the historical list is always empty, and the
    totals are always zero. *)
Theorem FetchTreasuryInfo_never_fails (client : option Ledger) (now : Z) :
  let info := (FetchTreasuryInfo client now).1 in
  (FetchTreasuryInfo client now).2 = None ∧
  Balance info = match client ≫= GetTreasuryBalance with
                 | Some atoms => (inject_Z atoms / 100000000)%Q
                 | None => 0%Q
                 end ∧
  RecentTSpends info = SOf [] ∧ LastUpdate info = now ∧
  BalanceUSD info = 0%Q ∧ TotalAdded info = 0%Q ∧ TotalSpent info = 0%Q.
Proof.
  cbv zeta. unfold FetchTreasuryInfo, getTreasuryBalance.
  destruct (scanMempoolForTSpends client) as [tspends err].
  destruct client as [c|]; cbn [mbind option_bind]; [| done].
  by destruct (GetTreasuryBalance c).
Qed.

(* ----------------------------------------------------------------- *)
(** *** The scanner under every schedule *)

Lemma wrap64_add_l (a b : Z) : wrap64 (wrap64 a + b) = wrap64 (a + b).
Proof.
  unfold wrap64. f_equal.
  replace ((a + 2 ^ 63) `mod` 2 ^ 64 - 2 ^ 63 + b + 2 ^ 63)
    with ((a + 2 ^ 63) `mod` 2 ^ 64 + b) by lia.
  rewrite Zplus_mod_idemp_l. f_equal. lia.
Qed.

Lemma filter_length_insert {A} (P : A → bool) (l : list A) (n : nat) (x y : A) :
  l !! n = Some x →
  (length (List.filter P (<[n:=y]> l)) + (if P x then 1 else 0)
   = length (List.filter P l) + (if P y then 1 else 0))%nat.
Proof.
  revert n. induction l as [|a l IH]; intros [|n] Hn; simplify_eq/=.
  - destruct (P x), (P y); simpl; lia.
  - specialize (IH _ Hn). destruct (P a); simpl; lia.
Qed.

(** What one step of a scanner goroutine does to the shared state: the
    goroutine was active; it either goes on, leaving the running flag as
    it is, or ends and clears it; and it leaves results, buffer and
    counter as they are or appends one find to both lists and counts
    it. *)
Lemma scan_step_effect (client : option Ledger) (task task' : ScanTask)
    (st st' : ScanState) :
  scan_step client task st = Some (task', st') →
  scan_active task = true ∧
  ((scan_active task' = true ∧ isScanRunning st' = isScanRunning st) ∨
   (task' = ScanDone ∧ isScanRunning st' = false)) ∧
  ((scanResults st' = scanResults st ∧
    newTSpendBuffer st' = newTSpendBuffer st ∧
    tspendFoundCount st' = tspendFoundCount st) ∨
   (∃ x, scanResults st' = append (scanResults st) x ∧
         newTSpendBuffer st' = append (newTSpendBuffer st) x ∧
         tspendFoundCount st' = add64 (tspendFoundCount st) 1)).
Proof.
  intros H. destruct task as [s|h ch|h ch|h ch block [|txHash txs]|];
    cbn [scan_step] in H.
  - destruct client as [c|]; [| done]. cbn [mbind option_bind] in H.
    destruct (GetBlockCount c); simplify_eq; cbn; eauto 10.
  - destruct (h <=? ch); simplify_eq; cbn; eauto 10.
  - destruct client as [c|]; [| done]. cbn [mbind option_bind] in H.
    destruct (GetBlockHash c h ≫= getblock c); simplify_eq; cbn; eauto 10.
  - simplify_eq; cbn; eauto 10.
  - destruct client as [c|]; [| done]. cbn [mbind option_bind] in H.
    destruct (getTransaction c txHash) as [tx|]; [| simplify_eq; cbn; eauto 10].
    destruct (isTreasurySpend tx); simplify_eq; cbn; eauto 10.
  - done.
Qed.

Lemma scanner_step_inv (ev : ScanEvent) (sys sys' : ScanState * list ScanTask) :
  scanner_inv sys → scanner_step ev sys = Some sys' → scanner_inv sys'.
Proof.
  destruct sys as [st tasks]. intros (Hact & Hcount & delivered & Hbuf) Hstep.
  cbn [fst snd] in *. destruct ev as [s| |n client]; cbn [scanner_step] in Hstep.
  - unfold TriggerHistoricalScan in Hstep.
    destruct (isScanRunning st) eqn:Hrun; simplify_eq.
    + unfold scanner_inv. cbn [fst snd]. rewrite app_nil_r, Hrun. eauto.
    + unfold scanner_inv. cbn [fst snd isScanRunning tspendFoundCount scanResults
                              newTSpendBuffer elems].
      rewrite List.filter_app, length_app, Hact. split_and!; [done.. |].
      by exists [].
  - simplify_eq. unfold scanner_inv.
    cbn [fst snd GetScanProgress isScanRunning tspendFoundCount scanResults
         newTSpendBuffer elems].
    split_and!; [done.. |]. exists (elems (scanResults st)). by rewrite app_nil_r.
  - destruct (tasks !! n) as [task|] eqn:Hn; [| done]. cbn [mbind option_bind] in Hstep.
    destruct (scan_step client task st) as [[task' st']|] eqn:Hs; [| done].
    cbn [mbind option_bind] in Hstep. injection Hstep as <-.
    destruct (scan_step_effect _ _ _ _ _ Hs) as (Ha & Hflag & Hfind).
    pose proof (filter_length_insert scan_active tasks n task task' Hn) as Hlen.
    rewrite Ha in Hlen. unfold scanner_inv. cbn [fst snd]. split_and!.
    + destruct Hflag as [[Ha' ->]|[-> ->]].
      * rewrite Ha' in Hlen. lia.
      * cbn [scan_active] in Hlen. destruct (isScanRunning st); lia.
    + destruct Hfind as [(-> & _ & ->)|(x & -> & _ & ->)]; [done |].
      cbn [append elems]. rewrite length_app. cbn [length].
      rewrite Hcount. unfold add64. rewrite wrap64_add_l. f_equal. lia.
    + destruct Hfind as [(-> & -> & _)|(x & -> & -> & _)]; [by exists delivered |].
      exists delivered. cbn [append elems]. by rewrite Hbuf, app_assoc.
Qed.

Lemma scanner_run_inv (evs : list ScanEvent) (sys sys' : ScanState * list ScanTask) :
  scanner_inv sys → scanner_run evs sys = Some sys' → scanner_inv sys'.
Proof.
  revert sys. induction evs as [|ev evs IH]; intros sys Hinv Hrun; cbn in Hrun.
  - by simplify_eq.
  - destruct (scanner_step ev sys) as [sys1|] eqn:Hstep; [| done].
    eapply IH; [| exact Hrun]. by eapply scanner_step_inv.
Qed.

Lemma scanner_inv_init : scanner_inv (scan_init, []).
Proof. split_and!; [done.. |]. by exists []. Qed.

(** X10.  The scanner is single-flight under every schedule of triggers,
    progress reads and goroutine steps: while the running flag is set
    exactly one scanner goroutine is active, and while it is clear none
    is. *)
Theorem scanner_single_flight (evs : list ScanEvent) (st : ScanState)
    (tasks : list ScanTask) :
  scanner_run evs (scan_init, []) = Some (st, tasks) →
  length (List.filter scan_active tasks) = if isScanRunning st then 1%nat else 0%nat.
Proof.
  intros Hrun. by destruct (scanner_run_inv _ _ _ scanner_inv_init Hrun) as (? & _).
Qed.

Lemma scanner_single_flight_witness :
  length (List.filter scan_active [ScanDone]) = 0%nat.
Proof.
  apply (scanner_single_flight overshoot_events overshoot_state [ScanDone]).
  reflexivity.
Defined.

(** X11.  Under every schedule the found counter is the number of results (as
    an [int]), and the buffer of new finds is the tail of the results
    that no progress read has handed out yet. *)
Theorem scanner_found_count (evs : list ScanEvent) (st : ScanState)
    (tasks : list ScanTask) :
  scanner_run evs (scan_init, []) = Some (st, tasks) →
  tspendFoundCount st = wrap64 (Z.of_nat (length (elems (scanResults st)))) ∧
  ∃ delivered, elems (scanResults st) = delivered ++ elems (newTSpendBuffer st).
Proof.
  intros Hrun. by destruct (scanner_run_inv _ _ _ scanner_inv_init Hrun) as (_ & ?).
Qed.

Lemma scanner_found_count_witness :
  tspendFoundCount delivery_end.1 = wrap64 (Z.of_nat (length [spend_record])) ∧
  ∃ delivered, [spend_record] = delivered ++ [].
Proof.
  apply (scanner_found_count (EvTrigger 552449 :: delivery_events)
           delivery_end.1 delivery_end.2).
  vm_compute. reflexivity.
Defined.

(** X12.  Between two triggers no find is lost or handed out twice: over a run
    without a trigger, what the goroutines append to the results is, in
    the same order, what the progress reads hand out followed by what is
    left in the buffer (after what the buffer held before). *)
Theorem scanner_delivers_once (evs : list ScanEvent)
    (sys sys' : ScanState * list ScanTask) :
  forallb (λ ev, negb (is_trigger ev)) evs = true →
  scanner_run evs sys = Some sys' →
  ∃ new,
    elems (scanResults sys'.1) = elems (scanResults sys.1) ++ new ∧
    scanner_polls evs sys ++ elems (newTSpendBuffer sys'.1)
      = elems (newTSpendBuffer sys.1) ++ new.
Proof.
  revert sys. induction evs as [|ev evs IH]; intros [st tasks] Hev Hrun;
    cbn [scanner_run scanner_polls forallb] in *.
  - simplify_eq. exists []. by rewrite !app_nil_r.
  - apply andb_true_iff in Hev as [Hev1 Hev].
    destruct (scanner_step ev (st, tasks)) as [[st1 tasks1]|] eqn:Hstep; [| done].
    cbn [mbind option_bind] in Hrun.
    destruct (IH _ Hev Hrun) as (new & Hres & Hbuf). cbn [fst snd] in *.
    destruct ev as [s| |n client]; [done | |]; cbn [scanner_step] in Hstep.
    + simplify_eq.
      cbn [GetScanProgress fst snd NewTSpends copy_of elems scanResults
           newTSpendBuffer] in *.
      exists new. split; [done |]. by rewrite <- app_assoc, Hbuf.
    + destruct (tasks !! n) as [task|]; [| done]. cbn [mbind option_bind] in Hstep.
      destruct (scan_step client task st) as [[task' st']|] eqn:Hs; [| done].
      cbn [mbind option_bind] in Hstep. simplify_eq.
      destruct (scan_step_effect _ _ _ _ _ Hs)
        as (_ & _ & [(Hr & Hb & _)|(x & Hr & Hb & _)]).
      * exists new. rewrite Hr in Hres. rewrite Hb in Hbuf. done.
      * exists (x :: new). rewrite Hr in Hres. rewrite Hb in Hbuf.
        cbn [append elems] in *. rewrite <- !app_assoc in *. done.
Qed.

(* ----------------------------------------------------------------- *)
(** *** The percentage is never negative *)

Lemma scan_step_heights (client : option Ledger) (task task' : ScanTask)
    (st st' : ScanState) :
  match client with
  | Some c => match GetBlockCount c with Some tip => tip < 2 ^ 63 - 1 | None => True end
  | None => True
  end →
  task_in_range task → totalScanHeight st < 2 ^ 63 →
  TreasuryActivationHeight ≤ currentScanHeight st < 2 ^ 63 →
  scan_step client task st = Some (task', st') →
  task_in_range task' ∧ totalScanHeight st' < 2 ^ 63 ∧
  TreasuryActivationHeight ≤ currentScanHeight st' < 2 ^ 63.
Proof.
  unfold TreasuryActivationHeight.
  intros Hc Htask Htotal Hcur H.
  destruct task as [s|h ch|h ch|h ch block [|txHash txs]|];
    cbn [scan_step task_in_range] in *; unfold TreasuryActivationHeight in *.
  - destruct client as [c|]; [| done]. cbn [mbind option_bind] in H.
    destruct (GetBlockCount c) as [tip|]; simplify_eq;
      cbn [task_in_range totalScanHeight currentScanHeight];
      unfold TreasuryActivationHeight; lia.
  - destruct (Z.leb_spec h ch); simplify_eq;
      cbn [task_in_range totalScanHeight currentScanHeight];
      unfold TreasuryActivationHeight; lia.
  - destruct client as [c|]; [| done]. cbn [mbind option_bind] in H.
    assert (add64 h 1 = h + 1) as Hn by (apply wrap64_small; lia).
    destruct (GetBlockHash c h ≫= getblock c); simplify_eq;
      cbn [task_in_range]; unfold TreasuryActivationHeight; rewrite ?Hn; lia.
  - assert (add64 h 1 = h + 1) as Hn by (apply wrap64_small; lia).
    simplify_eq. cbn [task_in_range]. unfold TreasuryActivationHeight. rewrite Hn. lia.
  - destruct client as [c|]; [| done]. cbn [mbind option_bind] in H.
    destruct (getTransaction c txHash) as [tx|];
      [destruct (isTreasurySpend tx) |]; simplify_eq;
      cbn [task_in_range totalScanHeight currentScanHeight];
      unfold TreasuryActivationHeight; lia.
  - done.
Qed.

Lemma scanner_step_heights (ev : ScanEvent) (sys sys' : ScanState * list ScanTask) :
  event_in_range ev → heights_inv sys → scanner_step ev sys = Some sys' →
  heights_inv sys'.
Proof.
  destruct sys as [st tasks]. intros Hev (Htasks & Htotal & Hcur) Hstep.
  cbn [fst snd] in *. destruct ev as [s| |n client]; cbn [scanner_step] in Hstep.
  - unfold TriggerHistoricalScan in Hstep. cbn [event_in_range] in Hev.
    destruct (isScanRunning st); simplify_eq.
    + rewrite app_nil_r. done.
    + unfold heights_inv.
      cbn [fst snd totalScanHeight currentScanHeight]. split_and!; [| done |].
      * apply Forall_app. split; [done |]. apply Forall_singleton.
        cbn [task_in_range]. unfold TreasuryActivationHeight.
        destruct (Z.ltb_spec s 552448); lia.
      * right. unfold TreasuryActivationHeight.
        destruct (Z.ltb_spec s 552448); lia.
  - simplify_eq. done.
  - destruct (tasks !! n) as [task|] eqn:Hn; [| done]. cbn [mbind option_bind] in Hstep.
    destruct (scan_step client task st) as [[task' st']|] eqn:Hs; [| done].
    cbn [mbind option_bind] in Hstep. injection Hstep as <-.
    destruct Hcur as [[-> _]|Hcur]; [done |].
    destruct (scan_step_heights client task task' st st') as (Ht' & Htot' & Hcur');
      [by destruct client | by eapply Forall_lookup_1 | done.. |].
    unfold heights_inv. cbn [fst snd]. split_and!; [| done | by right].
    by apply Forall_insert.
Qed.

(** X13.  However triggers, progress reads and goroutine steps interleave, the
    percentage [GetScanProgress] reports is never negative (start heights
    being [int64] values and the chain heights read lying below the
    largest one). *)
Theorem scanner_progress_nonneg (evs : list ScanEvent) (st : ScanState)
    (tasks : list ScanTask) :
  Forall event_in_range evs →
  scanner_run evs (scan_init, []) = Some (st, tasks) →
  (0 <= Progress (GetScanProgress st).1)%Q.
Proof.
  intros Hevs Hrun.
  assert (heights_inv (st, tasks)) as (_ & Htotal & Hcur).
  { assert (heights_inv (scan_init, [])) as Hinit.
    { split_and!; [constructor | done | by left]. }
    revert Hinit Hrun. generalize (scan_init, @nil ScanTask).
    induction Hevs as [|ev evs Hev _ IH]; intros sys Hinv Hrun; cbn in Hrun.
    - by simplify_eq.
    - destruct (scanner_step ev sys) as [sys1|] eqn:Hstep; [| done].
      eapply IH; [| exact Hrun]. by eapply scanner_step_heights. }
  cbn [fst snd] in *. cbn [GetScanProgress Progress fst].
  unfold TreasuryActivationHeight in *.
  destruct (Z.gtb_spec (totalScanHeight st) 552448) as [Hgt|Hle]; [| done].
  destruct Hcur as [[_ ?]|Hcur]; [lia |].
  unfold float64_of_int, sub64. rewrite !wrap64_small by lia.
  apply Qmult_le_0_compat; [| done].
  apply Qle_shift_div_l.
  - change 0%Q with (inject_Z 0). rewrite <- Zlt_Qlt. lia.
  - rewrite Qmult_0_l. change 0%Q with (inject_Z 0). rewrite <- Zle_Qle. lia.
Qed.

Lemma scanner_progress_nonneg_witness :
  (0 <= Progress (GetScanProgress overshoot_state).1)%Q.
Proof.
  apply (scanner_progress_nonneg overshoot_events overshoot_state [ScanDone]);
    [| reflexivity].
  repeat constructor.
Defined.

(* ----------------------------------------------------------------- *)
(** *** A scan run to its end *)

Lemma scan_steps_add (client : option Ledger) (k1 k2 : nat) (x : ScanTask * ScanState) :
  scan_steps client (k1 + k2) x = scan_steps client k1 x ≫= scan_steps client k2.
Proof.
  revert x. induction k1 as [|k1 IH]; intros x; cbn [scan_steps Nat.add]; [done |].
  destruct (scan_step client x.1 x.2) as [y|]; cbn [mbind option_bind]; [apply IH | done].
Qed.

Lemma scan_steps_step (client : option Ledger) (k : nat) (x y z : ScanTask * ScanState) :
  scan_step client x.1 x.2 = Some y → scan_steps client k y = Some z →
  scan_steps client (S k) x = Some z.
Proof. intros Hx Hy. cbn [scan_steps]. by rewrite Hx. Qed.

Lemma scan_step_tx (c : Ledger) (h ch : Z) (block : Block) (txHash : string)
    (txs : list string) (run : bool) (cur total : Z) (n : nat)
    (r b : list TSpendHistory) :
  scan_step (Some c) (ScanTxs h ch block (txHash :: txs)) (scanning run cur total n r b)
  = Some (ScanTxs h ch block txs,
          match tx_find c block txHash with
          | Some x => scanning run cur total (S n) (r ++ [x]) (b ++ [x])
          | None => scanning run cur total n r b
          end).
Proof.
  cbn [scan_step mbind option_bind]. unfold tx_find.
  destruct (getTransaction c txHash) as [tx|]; cbn [mbind option_bind]; [| done].
  destruct (isTreasurySpend tx); [| done].
  unfold scanning, add64. cbn [isScanRunning currentScanHeight totalScanHeight
    tspendFoundCount scanResults newTSpendBuffer append elems].
  rewrite wrap64_add_l. do 4 f_equal. lia.
Qed.

(** The loop over the transactions of a block. *)
Lemma scan_txs_loop (c : Ledger) (h ch : Z) (block : Block) (txs : list string)
    (run : bool) (cur total : Z) (n : nat) (r b : list TSpendHistory) :
  let f := omap (tx_find c block) txs in
  ∃ k, scan_steps (Some c) k (ScanTxs h ch block txs, scanning run cur total n r b)
       = Some (ScanHeight (add64 h 1) ch,
               scanning run cur total (n + length f) (r ++ f) (b ++ f)).
Proof.
  cbv zeta. revert n r b. induction txs as [|txHash txs IH]; intros n r b.
  - exists 1%nat. cbn. by rewrite Nat.add_0_r, !app_nil_r.
  - cbn [omap list_omap].
    pose proof (scan_step_tx c h ch block txHash txs run cur total n r b) as Hstep.
    destruct (tx_find c block txHash) as [x|].
    + destruct (IH (S n) (r ++ [x]) (b ++ [x])) as [k Hk].
      exists (S k). eapply scan_steps_step; [exact Hstep | rewrite Hk].
      cbn [length]. rewrite <- !app_assoc. do 3 f_equal. lia.
    + destruct (IH n r b) as [k Hk]. exists (S k).
      eapply scan_steps_step; [exact Hstep | exact Hk].
Qed.

Lemma scan_step_height (client : option Ledger) (h ch : Z) (run : bool)
    (cur total : Z) (n : nat) (r b : list TSpendHistory) :
  scan_step client (ScanHeight h ch) (scanning run cur total n r b)
  = Some (if h <=? ch then (ScanBlock h ch, scanning run h total n r b)
          else (ScanDone, scanning false cur total n r b)).
Proof. cbn [scan_step]. by destruct (h <=? ch). Qed.

Lemma scan_step_block (c : Ledger) (h ch : Z) (st : ScanState) :
  scan_step (Some c) (ScanBlock h ch) st
  = Some (match GetBlockHash c h ≫= getblock c with
          | Some block => (ScanTxs h ch block (Tx block ++ STx block), st)
          | None => (ScanHeight (add64 h 1) ch, st)
          end).
Proof.
  cbn [scan_step mbind option_bind]. by destruct (GetBlockHash c h ≫= getblock c).
Qed.

(** The loop over the heights. *)
Lemma scan_heights_loop (c : Ledger) (ch : Z) (m : nat) (h : Z)
    (run : bool) (cur total : Z) (n : nat) (r b : list TSpendHistory) :
  ch < 2 ^ 63 - 1 → - 2 ^ 63 ≤ h → m = Z.to_nat (ch - h + 1) →
  let f := range_finds c h m in
  ∃ k, scan_steps (Some c) k (ScanHeight h ch, scanning run cur total n r b)
       = Some (ScanDone,
               scanning false (if m is O then cur else ch) total
                 (n + length f) (r ++ f) (b ++ f)).
Proof.
  cbv zeta. intros Hch. revert h cur n r b.
  induction m as [|m IH]; intros h cur n r b Hh Hm.
  - exists 1%nat. cbn [scan_steps fst snd range_finds length].
    rewrite scan_step_height, (proj2 (Z.leb_gt h ch)) by lia.
    cbn. by rewrite Nat.add_0_r, !app_nil_r.
  - cbn [range_finds].
    set (fb := block_finds c h).
    destruct (IH (h + 1) h (n + length fb)%nat (r ++ fb) (b ++ fb)) as [k Hk];
      [lia.. |].
    assert (Hnext : add64 h 1 = h + 1) by (apply wrap64_small; lia).
    assert (Hcur : (if m is O then h else ch) = ch) by (destruct m; lia).
    rewrite Hcur in Hk.
    assert (Hblock : ∃ k1,
      scan_steps (Some c) k1 (ScanBlock h ch, scanning run h total n r b)
      = Some (ScanHeight (h + 1) ch,
              scanning run h total (n + length fb) (r ++ fb) (b ++ fb))).
    { unfold fb, block_finds.
      pose proof (scan_step_block c h ch (scanning run h total n r b)) as Hstep.
      destruct (GetBlockHash c h ≫= getblock c) as [block|].
      - destruct (scan_txs_loop c h ch block (Tx block ++ STx block) run h total n r b)
          as [k1 Hk1].
        exists (S k1). eapply scan_steps_step; [exact Hstep |].
        by rewrite Hk1, Hnext.
      - exists 1%nat. cbn [scan_steps fst snd]. rewrite Hstep, Hnext.
        cbn. by rewrite Nat.add_0_r, !app_nil_r. }
    destruct Hblock as [k1 Hk1].
    exists (S (k1 + k)). eapply scan_steps_step.
    + cbn [fst snd]. rewrite scan_step_height, (proj2 (Z.leb_le h ch)) by lia. done.
    + rewrite scan_steps_add, Hk1. cbn [mbind option_bind].
      rewrite Hk. rewrite length_app, <- !app_assoc. do 3 f_equal. lia.
Qed.

(** X14.  A scan triggered while none is running, and run against a ledger of
    height [tip] that does not change, ends after finitely many steps
    with the running flag cleared; its results (and the buffer, no
    progress read having come between) are exactly the spends of the
    blocks from the start height, raised to the activation floor, up to
    [tip], in the order of the chain, and the counter is their number. *)
Theorem scan_runs_to_end (c : Ledger) (startHeight tip : Z) (st : ScanState) :
  isScanRunning st = false → GetBlockCount c = Some tip → tip < 2 ^ 63 - 1 →
  let start := Z.max startHeight TreasuryActivationHeight in
  let finds := range_finds c start (Z.to_nat (tip - start + 1)) in
  let '(err, st0, spawned) := TriggerHistoricalScan startHeight st in
  err = None ∧ spawned = Some start ∧
  ∃ k, scan_steps (Some c) k (ScanStart start, st0)
       = Some (ScanDone,
               {| isScanRunning := false;
                  currentScanHeight := Z.max start tip;
                  totalScanHeight := tip;
                  tspendFoundCount := wrap64 (Z.of_nat (length finds));
                  scanResults := SOf finds;
                  newTSpendBuffer := SOf finds |}).
Proof.
  intros Hidle Htip Hmax. cbv zeta. unfold TriggerHistoricalScan. rewrite Hidle.
  set (start := Z.max startHeight TreasuryActivationHeight).
  assert ((if startHeight <? TreasuryActivationHeight
           then TreasuryActivationHeight else startHeight) = start) as ->.
  { unfold start. destruct (Z.ltb_spec startHeight TreasuryActivationHeight); lia. }
  split; [done |]. split; [done |].
  assert (Hfloor : TreasuryActivationHeight ≤ start) by (unfold start; lia).
  clearbody start. unfold TreasuryActivationHeight in Hfloor.
  destruct (decide (start ≤ tip)) as [Hle|Hgt].
  - destruct (scan_heights_loop c tip (Z.to_nat (tip - start + 1)) start
                true start tip 0 [] []) as [k Hk]; [done | lia | done |].
    exists (S k). eapply scan_steps_step; [| rewrite Hk].
    + cbn [scan_step fst snd mbind option_bind]. by rewrite Htip.
    + unfold scanning. cbn [app Nat.add]. do 3 f_equal.
      destruct (Z.to_nat (tip - start + 1)) eqn:Hm; lia.
  - replace (Z.to_nat (tip - start + 1)) with 0%nat by lia.
    destruct (scan_heights_loop c tip 0 start true start tip 0 [] [])
      as [k Hk]; [done | lia | lia |].
    exists (S k). eapply scan_steps_step; [| rewrite Hk].
    + cbn [scan_step fst snd mbind option_bind]. by rewrite Htip.
    + unfold scanning. cbn [app Nat.add range_finds length]. do 3 f_equal. lia.
Qed.

Lemma scanner_delivers_once_witness :
  ∃ new,
    elems (scanResults delivery_end.1) = elems (scanResults delivery_start.1) ++ new ∧
    scanner_polls delivery_events delivery_start
      ++ elems (newTSpendBuffer delivery_end.1)
      = elems (newTSpendBuffer delivery_start.1) ++ new.
Proof.
  apply (scanner_delivers_once delivery_events delivery_start delivery_end);
    vm_compute; reflexivity.
Defined.

Lemma scan_runs_to_end_witness :
  ∃ k, scan_steps (Some spend_ledger) k
         (ScanStart 552448, scanning true 552448 0 0 [] [])
       = Some (ScanDone, scanning false 552449 552449 1 [spend_record] [spend_record]).
Proof.
  pose proof (scan_runs_to_end spend_ledger 0 552449 scan_init eq_refl eq_refl)
    as H.
  destruct H as (_ & _ & H); [lia |]. exact H.
Defined.

(* ----------------------------------------------------------------- *)
(** *** What the tally counts *)

Lemma Z_gtb_false (a b : Z) : a ≤ b → (a >? b) = false.
Proof. intros H. rewrite Z.gtb_ltb. apply Z.ltb_ge. lia. Qed.

Lemma wrap64_range (z : Z) : - 2 ^ 63 ≤ wrap64 z < 2 ^ 63.
Proof. unfold wrap64. pose proof (Z.mod_pos_bound (z + 2 ^ 63) (2 ^ 64)). lia. Qed.

Lemma parseTSpendVote_is_Some (f : string → string → bool)
    (tx : gmap string json) (tspendHash : string) :
  ∃ label, parseTSpendVote f tx tspendHash = Some label.
Proof.
  unfold parseTSpendVote.
  destruct (as_array (tx !! "vout")) as [vout|]; [| by eauto].
  case_decide; [by eauto |].
  destruct (parseTSpendVote_outputs_label f vout tspendHash) as (l & -> & _). eauto.
Qed.

Lemma votes_for_cons (f : string → string → bool) (c : Ledger)
    (txHash label stx : string) (stxs : list string) :
  votes_for f c txHash label (stx :: stxs)
  = (if bool_decide (stx_vote f c txHash stx = label) then 1 else 0)
    + votes_for f c txHash label stxs.
Proof.
  unfold votes_for. cbn [List.filter]. destruct (bool_decide _); cbn [length]; lia.
Qed.

Lemma votes_for_app (f : string → string → bool) (c : Ledger)
    (txHash label : string) (l k : list string) :
  votes_for f c txHash label (l ++ k)
  = votes_for f c txHash label l + votes_for f c txHash label k.
Proof. unfold votes_for. rewrite List.filter_app, length_app. lia. Qed.

Lemma count_stxs_cons (f : string → string → bool) (c : Ledger)
    (txHash stx : string) (stxs : list string) (yes no : Z) :
  count_stxs f c txHash (stx :: stxs) (yes, no) =
  if decide (stx_vote f c txHash stx = "yes")
  then count_stxs f c txHash stxs (add64 yes 1, no)
  else if decide (stx_vote f c txHash stx = "no")
  then count_stxs f c txHash stxs (yes, add64 no 1)
  else count_stxs f c txHash stxs (yes, no).
Proof.
  cbn [count_stxs]. unfold stx_vote.
  destruct (getTransaction c stx) as [tx|]; [| done].
  destruct (isVoteTransaction tx); [| done]. cbn [negb].
  by destruct (parseTSpendVote_is_Some f tx txHash) as [vote ->].
Qed.

(** The loop over the stake transactions of a block never panics, and
    adds to the two counters the number of transactions read as "yes" and
    as "no". *)
Lemma count_stxs_spec (f : string → string → bool) (c : Ledger) (txHash : string)
    (stxs : list string) (yes no : Z) :
  - 2 ^ 63 ≤ yes < 2 ^ 63 → - 2 ^ 63 ≤ no < 2 ^ 63 →
  count_stxs f c txHash stxs (yes, no)
  = Some (wrap64 (yes + votes_for f c txHash "yes" stxs),
          wrap64 (no + votes_for f c txHash "no" stxs)).
Proof.
  revert yes no. induction stxs as [|stx stxs IH]; intros yes no Hy Hn.
  - cbn. by rewrite !Z.add_0_r, !wrap64_small.
  - rewrite count_stxs_cons, !votes_for_cons.
    destruct (decide (stx_vote f c txHash stx = "yes")) as [Heq|Hyes].
    { rewrite Heq, IH by (done || apply wrap64_range). unfold add64.
      rewrite wrap64_add_l. rewrite bool_decide_eq_true_2 by done.
      rewrite (bool_decide_eq_false_2 ("yes" = "no")) by done.
      do 2 f_equal; f_equal; lia. }
    rewrite (bool_decide_eq_false_2 (_ = "yes")) by done.
    destruct (decide (stx_vote f c txHash stx = "no")) as [Heq|Hno].
    { rewrite IH by (done || apply wrap64_range). unfold add64.
      rewrite wrap64_add_l. rewrite bool_decide_eq_true_2 by done.
      do 2 f_equal; f_equal; lia. }
    rewrite (bool_decide_eq_false_2 (_ = "no")) by done.
    by rewrite IH.
Qed.

Lemma count_heights_spec (f : string → string → bool) (c : Ledger) (txHash : string)
    (n : nat) (height yes no : Z) :
  - 2 ^ 63 ≤ yes < 2 ^ 63 → - 2 ^ 63 ≤ no < 2 ^ 63 →
  count_heights f c txHash n height (yes, no)
  = Some (wrap64 (yes + votes_for f c txHash "yes" (range_stxs c height n)),
          wrap64 (no + votes_for f c txHash "no" (range_stxs c height n))).
Proof.
  revert height yes no. induction n as [|n IH]; intros height yes no Hy Hn.
  - cbn. by rewrite !Z.add_0_r, !wrap64_small.
  - cbn [count_heights range_stxs]. unfold count_block, block_stxs.
    rewrite !votes_for_app.
    destruct (GetBlockHash c height ≫= getblock c) as [block|].
    + rewrite count_stxs_spec by done. cbn [mbind option_bind].
      rewrite IH by apply wrap64_range. rewrite !wrap64_add_l.
      do 2 f_equal; f_equal; lia.
    + cbn [mbind option_bind]. rewrite IH by done.
      do 2 f_equal; f_equal; unfold votes_for; cbn; lia.
Qed.

Lemma countTSpendVotesInRange_is_Some (f : string → string → bool) (c : Ledger)
    (txHash : string) (startHeight endHeight : Z) :
  - 2 ^ 62 ≤ startHeight < 2 ^ 62 → - 2 ^ 62 ≤ endHeight < 2 ^ 62 →
  ∃ yesVotes noVotes,
    countTSpendVotesInRange f c txHash startHeight endHeight
    = Some (yesVotes, noVotes).
Proof.
  intros Hs He. unfold countTSpendVotesInRange, sub64.
  rewrite (wrap64_small (endHeight - startHeight)) by lia.
  rewrite (wrap64_small (endHeight - 3000)) by lia.
  rewrite decide_False by lia.
  rewrite count_heights_spec by lia. eauto.
Qed.

Lemma countTSpendVotesInRange_empty (f : string → string → bool) (c : Ledger)
    (txHash : string) (startHeight endHeight : Z) :
  - 2 ^ 62 ≤ startHeight < 2 ^ 62 → - 2 ^ 62 ≤ endHeight < 2 ^ 62 →
  endHeight < startHeight →
  countTSpendVotesInRange f c txHash startHeight endHeight = Some (0, 0).
Proof.
  intros Hs He Hlt. unfold countTSpendVotesInRange, sub64.
  rewrite (wrap64_small (endHeight - startHeight)) by lia.
  rewrite Z_gtb_false by lia. rewrite decide_False by lia.
  by replace (Z.to_nat (endHeight - startHeight + 1)) with 0%nat by lia.
Qed.


(* ----------------------------------------------------------------- *)
(** *** A tally goroutine run to its end *)

Lemma job_steps_app (f : string → string → bool) (client : option Ledger)
    (els1 els2 : list Q) (txHash : string) (bh : Z) (x : JobPc * Engine) :
  job_steps f client (els1 ++ els2) txHash bh x
  = job_steps f client els1 txHash bh x ≫= job_steps f client els2 txHash bh.
Proof.
  revert x. induction els1 as [|el els1 IH]; intros x; cbn [job_steps app]; [done |].
  destruct (job_step f client el txHash bh x.1 x.2) as [y|];
    cbn [mbind option_bind]; [apply IH | done].
Qed.

(** One turn of the loop of the goroutine: the counters advance as in
    [count_block], and only the progress entry of the hash is written. *)
Lemma job_step_loop (f : string → string → bool) (c : Ledger) (elapsed : Q)
    (txHash : string) (bh s en t height yes no : Z) (e : Engine) :
  height ≤ en → - 2 ^ 63 ≤ yes < 2 ^ 63 → - 2 ^ 63 ≤ no < 2 ^ 63 →
  ∃ yes' no' e',
    count_block f c txHash height (yes, no) = Some (yes', no') ∧
    job_step f (Some c) elapsed txHash bh (JobLoop s en t height yes no) e
      = Some (JobLoop s en t (add64 height 1) yes' no', e') ∧
    votingCache e' = votingCache e ∧ parsingJobs e' = parsingJobs e ∧
    threads e' = threads e ∧
    (voteParsingProgress e' = voteParsingProgress e ∨
     ∃ p, voteParsingProgress e' = <[txHash := p]> (voteParsingProgress e)).
Proof.
  intros Hh Hy Hn. cbn [job_step mbind option_bind]. unfold count_block.
  rewrite (proj2 (Z.leb_le height en)) by done.
  destruct (GetBlockHash c height ≫= getblock c) as [block|].
  - rewrite count_stxs_spec by done. cbn [mbind option_bind].
    eexists _, _, _. split; [done |]. split; [done |].
    destruct (_ || _); cbn; eauto 10.
  - eexists _, _, _. split; [done |]. split; [done |]. eauto 10.
Qed.

(** The loop of the goroutine over [m] heights. *)
Lemma job_steps_loop (f : string → string → bool) (c : Ledger) (txHash : string)
    (bh s en t : Z) (base : gmap string VoteParsingProgress) (m : nat) :
  en < 2 ^ 63 - 1 →
  ∀ (height yes no : Z) (e : Engine) (els : list Q),
    m = Z.to_nat (en - height + 1) → - 2 ^ 63 ≤ height →
    - 2 ^ 63 ≤ yes < 2 ^ 63 → - 2 ^ 63 ≤ no < 2 ^ 63 →
    length els = m →
    (∃ p, voteParsingProgress e = <[txHash := p]> base) →
    ∃ yes' no' e',
      count_heights f c txHash m height (yes, no) = Some (yes', no') ∧
      job_steps f (Some c) els txHash bh (JobLoop s en t height yes no, e)
        = Some (JobLoop s en t (height + Z.of_nat m) yes' no', e') ∧
      votingCache e' = votingCache e ∧ parsingJobs e' = parsingJobs e ∧
      threads e' = threads e ∧
      ∃ p, voteParsingProgress e' = <[txHash := p]> base.
Proof.
  intros Hen. induction m as [|m IH]; intros height yes no e els Hm Hh Hy Hn Hels Hp.
  - destruct els; [| done]. exists yes, no, e. cbn [count_heights job_steps].
    rewrite Z.add_0_r. done.
  - destruct els as [|el els]; [done |]. injection Hels as Hels.
    destruct (job_step_loop f c el txHash bh s en t height yes no e)
      as (y1 & n1 & e1 & Hblock & Hstep & Hc1 & Hj1 & Ht1 & Hp1); [lia | done..|].
    assert (Hy1 : - 2 ^ 63 ≤ y1 < 2 ^ 63 ∧ - 2 ^ 63 ≤ n1 < 2 ^ 63).
    { unfold count_block in Hblock.
      destruct (GetBlockHash c height ≫= getblock c) as [block|];
        [| by simplify_eq].
      rewrite count_stxs_spec in Hblock by done. simplify_eq.
      split; apply wrap64_range. }
    destruct Hy1 as [Hy1 Hn1].
    assert (Hp1' : ∃ p, voteParsingProgress e1 = <[txHash := p]> base).
    { destruct Hp as [p Hp]. destruct Hp1 as [->|[p1 ->]]; [by exists p |].
      exists p1. by rewrite Hp, insert_insert_eq. }
    assert (Hnext : add64 height 1 = height + 1) by (apply wrap64_small; lia).
    rewrite Hnext in Hstep.
    destruct (IH (height + 1) y1 n1 e1 els) as (y2 & n2 & e2 & Hcount & Hrun & Hc2 & Hj2 & Ht2 & Hp2);
      [lia | lia | done.. |].
    exists y2, n2, e2. cbn [count_heights job_steps fst snd].
    rewrite Hblock, Hstep. cbn [mbind option_bind]. rewrite Hcount, Hrun.
    split_and!; [done | do 3 f_equal; lia | congruence.. | done].
Qed.

(** X16.  For a block height between -2^62 and 2^62, a tally goroutine run
    against a ledger that does not change ends after one step per height
    of its window and four more, whatever the clock reads.  It counts the votes the synchronous
    [countTSpendVotesInRange] counts on the same window; it leaves the
    final tally in the cache and the finished progress record under the
    hash, removes the hash from the registry of running jobs, and touches
    no other entry. *)
Theorem job_runs_to_end (f : string → string → bool) (c : Ledger) (txHash : string)
    (blockHeight : Z) (e : Engine) :
  - 2 ^ 62 ≤ blockHeight < 2 ^ 62 →
  let '(votingStartBlock, votingEndBlock, totalBlocks) := async_window blockHeight in
  ∃ yesVotes noVotes,
    countTSpendVotesInRange f c txHash votingStartBlock votingEndBlock
      = Some (yesVotes, noVotes) ∧
    ∀ els, length els = (Z.to_nat (votingEndBlock - votingStartBlock + 1) + 4)%nat →
      job_steps f (Some c) els txHash blockHeight (JobStart, e)
      = Some (JobEnded,
              {| votingCache :=
                   <[txHash := async_final c votingStartBlock votingEndBlock
                                 totalBlocks yesVotes noVotes]> (votingCache e);
                 voteParsingProgress :=
                   <[txHash := progress_complete votingEndBlock totalBlocks
                                 yesVotes noVotes]> (voteParsingProgress e);
                 parsingJobs := delete txHash (parsingJobs e);
                 threads := threads e |}).
Proof.
  intros Hbh. unfold async_window, sub64, add64, TreasuryActivationHeight.
  rewrite (wrap64_small (blockHeight - 2880)) by lia.
  set (s := if blockHeight - 2880 <? 552448 then 552448 else blockHeight - 2880).
  assert (Hs : 552448 ≤ s ∧ blockHeight - 2880 ≤ s ∧
               (s = 552448 ∨ s = blockHeight - 2880)).
  { unfold s. destruct (Z.ltb_spec (blockHeight - 2880) 552448); lia. }
  clearbody s.
  rewrite (wrap64_small (blockHeight - s)), (wrap64_small (blockHeight - s + 1)) by lia.
  set (m := Z.to_nat (blockHeight - s + 1)).
  destruct (count_heights f c txHash m s (0, 0)) as [[yes no]|] eqn:Hcount;
    [| by rewrite count_heights_spec in Hcount by lia].
  exists yes, no. split.
  { unfold countTSpendVotesInRange, sub64.
    rewrite (wrap64_small (blockHeight - s)) by lia.
    rewrite Z_gtb_false by lia.
    by rewrite decide_False by lia. }
  intros els Hels.
  destruct els as [|el0 els]; [cbn in Hels; lia |].
  assert (∃ els1 el1 el2 el3, els = els1 ++ [el1; el2; el3] ∧ length els1 = m)
    as (els1 & el1 & el2 & el3 & -> & Hels1).
  { exists (take m els).
    assert (length (drop m els) = 3%nat) as Hd by (rewrite length_drop; cbn in Hels; lia).
    destruct (drop m els) as [|a [|b [|d [|]]]] eqn:Hdrop; try done.
    exists a, b, d. split; [by rewrite <- Hdrop, take_drop |].
    rewrite length_take. cbn in Hels. lia. }
  cbn [job_steps job_step fst snd mbind option_bind].
  unfold async_window, sub64, add64, TreasuryActivationHeight.
  rewrite (wrap64_small (blockHeight - 2880)) by lia.
  assert ((if blockHeight - 2880 <? 552448 then 552448 else blockHeight - 2880) = s)
    as -> by (destruct (Z.ltb_spec (blockHeight - 2880) 552448); lia).
  rewrite (wrap64_small (blockHeight - s)), (wrap64_small (blockHeight - s + 1)) by lia.
  rewrite Z_gtb_false by lia.
  cbn [mbind option_bind].
  match goal with |- context [set_progress e ?mp] => set (e0 := set_progress e mp) end.
  destruct (job_steps_loop f c txHash blockHeight s blockHeight
              (blockHeight - s + 1) (voteParsingProgress e) m ltac:(lia)
              s 0 0 e0 els1)
    as (yes' & no' & e1 & Hcount' & Hrun & Hc1 & Hj1 & Ht1 & p & Hp1);
    [done | lia | lia | lia | done | by eexists |].
  rewrite Hcount in Hcount'. injection Hcount' as <- <-.
  rewrite job_steps_app, Hrun.
  cbn [mbind option_bind job_steps job_step fst snd].
  rewrite (proj2 (Z.leb_gt _ _)) by lia.
  cbn [mbind option_bind job_steps job_step fst snd].
  f_equal. f_equal. destruct e1 as [cache1 prog1 jobs1 thr1].
  cbn [votingCache voteParsingProgress parsingJobs threads set_cache set_progress
       set_jobs] in *.
  subst. by rewrite insert_insert_eq.
Qed.

(* ----------------------------------------------------------------- *)
(** *** The synchronous tally *)

Lemma calculateTSpendVotes_unfold (f : string → string → bool) (c : Ledger)
    (txHash : string) (blockHeight expiry tip : Z) (inMempool : bool) :
  GetBlockCount c = Some tip →
  - 2 ^ 49 ≤ tip < 2 ^ 49 → - 2 ^ 49 ≤ blockHeight < 2 ^ 49 → 0 ≤ expiry < 2 ^ 32 →
  let '(s, en) := sync_window tip blockHeight expiry inMempool in
  - 2 ^ 49 ≤ s < 2 ^ 49 ∧ - 2 ^ 49 ≤ en < 2 ^ 49 ∧
  ∃ yesVotes noVotes,
    countTSpendVotesInRange f c txHash s en = Some (yesVotes, noVotes) ∧
    calculateTSpendVotes f (Some c) txHash blockHeight expiry inMempool
    = Some (Some {| VotingStartBlock := s; VotingEndBlock := en;
                    YesVotes := yesVotes; NoVotes := noVotes;
                    EligibleVotes := eligibleVotes_of (en - s);
                    VotesCast := add64 yesVotes noVotes;
                    QuorumRequired := Z.quot (eligibleVotes_of (en - s)) 5;
                    ApprovalRate := approvalRate_of yesVotes (add64 yesVotes noVotes);
                    TurnoutRate :=
                      turnoutRate_of (add64 yesVotes noVotes) (eligibleVotes_of (en - s));
                    QuorumAchieved :=
                      add64 yesVotes noVotes >=? Z.quot (eligibleVotes_of (en - s)) 5;
                    VotingComplete := negb inMempool; InMempool := inMempool;
                    VotingStartTime := (getBlockTimestamps c s en).1;
                    VotingEndTime := (getBlockTimestamps c s en).2 |},
            None).
Proof.
  intros Htip Ht Hb He. unfold sync_window, calculateTSpendVotes.
  rewrite Htip. unfold TreasuryActivationHeight, sub64.
  destruct inMempool.
  - rewrite (wrap64_small (tip - 2880)) by lia.
    assert ((if tip - 2880 <? 0 then 0 else tip - 2880) = Z.max 0 (tip - 2880)) as ->
      by (destruct (Z.ltb_spec (tip - 2880) 0); lia).
    set (s := Z.max 0 (tip - 2880)).
    assert (0 ≤ s < 2 ^ 49) by (unfold s; lia). clearbody s.
    split; [lia |]. split; [lia |].
    destruct (countTSpendVotesInRange_is_Some f c txHash s expiry)
      as (yes & no & Hc); [lia.. |]. rewrite Hc.
    exists yes, no. split; [done |]. cbn [mbind option_bind].
    rewrite (wrap64_small (expiry - s)) by lia.
    by destruct (getBlockTimestamps c s expiry).
  - rewrite (wrap64_small (blockHeight - 2880)) by lia.
    assert ((if blockHeight - 2880 <? 552448 then 552448 else blockHeight - 2880)
            = Z.max 552448 (blockHeight - 2880)) as ->
      by (destruct (Z.ltb_spec (blockHeight - 2880) 552448); lia).
    set (s := Z.max 552448 (blockHeight - 2880)).
    assert (552448 ≤ s < 2 ^ 49) by (unfold s; lia). clearbody s.
    split; [lia |]. split; [lia |].
    destruct (countTSpendVotesInRange_is_Some f c txHash s blockHeight)
      as (yes & no & Hc); [lia.. |]. rewrite Hc.
    exists yes, no. split; [done |]. cbn [mbind option_bind].
    rewrite (wrap64_small (blockHeight - s)) by lia.
    by destruct (getBlockTimestamps c s blockHeight).
Qed.


(** X18.  For a block height and a chain height between -2^49 and 2^49 and
    an expiry that is a [uint32]: when the voting period is empty (its
    end lies before its start: a mempool spend whose expiry is more than
    2880 blocks behind the chain tip, or a confirmed spend given a block
    height below the activation height) the synchronous tally counts
    nothing and reports the quorum as achieved: the required quorum is
    the negative length of the period. *)
Theorem calculateTSpendVotes_empty_window (f : string → string → bool) (c : Ledger)
    (txHash : string) (blockHeight expiry tip : Z) (inMempool : bool) :
  GetBlockCount c = Some tip →
  - 2 ^ 49 ≤ tip < 2 ^ 49 → - 2 ^ 49 ≤ blockHeight < 2 ^ 49 → 0 ≤ expiry < 2 ^ 32 →
  (sync_window tip blockHeight expiry inMempool).2
    < (sync_window tip blockHeight expiry inMempool).1 →
  ∃ info,
    calculateTSpendVotes f (Some c) txHash blockHeight expiry inMempool
      = Some (Some info, None) ∧
    YesVotes info = 0 ∧ NoVotes info = 0 ∧ VotesCast info = 0 ∧
    EligibleVotes info = (VotingEndBlock info - VotingStartBlock info) * 5 ∧
    QuorumRequired info = VotingEndBlock info - VotingStartBlock info ∧
    QuorumRequired info < 0 ∧ QuorumAchieved info = true ∧
    (TurnoutRate info == 0)%Q ∧ (ApprovalRate info == 0)%Q.
Proof.
  intros Hc Ht Hb He Hempty.
  pose proof (calculateTSpendVotes_unfold f c txHash blockHeight expiry tip inMempool
                Hc Ht Hb He) as H.
  destruct (sync_window tip blockHeight expiry inMempool) as [s en].
  cbn [fst snd] in Hempty.
  destruct H as (Hs & Hen & yes & no & Hcount & ->).
  rewrite countTSpendVotesInRange_empty in Hcount by lia.
  injection Hcount as <- <-.
  eexists. split; [done |].
  cbn [YesVotes NoVotes VotesCast EligibleVotes QuorumRequired QuorumAchieved
       TurnoutRate ApprovalRate VotingEndBlock VotingStartBlock].
  rewrite eligibleVotes_of_small by lia. rewrite Z.quot_mul by lia.
  unfold turnoutRate_of, approvalRate_of.
  change (add64 0 0) with 0.
  rewrite (Z_gtb_false ((en - s) * 5) 0) by lia.
  split_and!; try done; lia.
Qed.

(* ----------------------------------------------------------------- *)
(** *** The tally engine under every schedule *)

(** X19.  For every [int64] block height from -2^63 + 552448 up (where no
    subtraction wraps around) the window of the asynchronous tally is at
    most 2881 blocks long, so that the limit of 3000 blocks on its scan
    range does not apply: the loop starts at the start of the voting
    period. *)
Theorem async_scan_limit_never_applies (f : string → string → bool) (c : Ledger)
    (elapsed : Q) (txHash : string) (blockHeight : Z) (e : Engine) :
  - 2 ^ 63 + TreasuryActivationHeight ≤ blockHeight < 2 ^ 63 →
  let '(votingStartBlock, votingEndBlock, totalBlocks) := async_window blockHeight in
  votingStartBlock = Z.max TreasuryActivationHeight (blockHeight - 2880) ∧
  votingEndBlock = blockHeight ∧
  totalBlocks = votingEndBlock - votingStartBlock + 1 ∧ totalBlocks ≤ 2881 ∧
  ∃ e', job_step f (Some c) elapsed txHash blockHeight JobStart e
        = Some (JobLoop votingStartBlock votingEndBlock totalBlocks
                  votingStartBlock 0 0, e').
Proof.
  intros Hbh. cbn [job_step].
  unfold async_window, sub64, add64, TreasuryActivationHeight in *.
  rewrite (wrap64_small (blockHeight - 2880)) by lia.
  set (s := if blockHeight - 2880 <? 552448 then 552448 else blockHeight - 2880).
  assert (Hs : s = Z.max 552448 (blockHeight - 2880))
    by (unfold s; destruct (Z.ltb_spec (blockHeight - 2880) 552448); lia).
  clearbody s.
  rewrite (wrap64_small (blockHeight - s)), (wrap64_small (blockHeight - s + 1)) by lia.
  rewrite Z_gtb_false by lia.
  split_and!; [lia.. |]. by eexists.
Qed.

Lemma call_step_maps (f : string → string → bool) (client : option Ledger)
    (h : string) (bh exp : Z) (inM : bool) (pc pc' : CallPc) (e e' : Engine)
    (spawned : list Thread) :
  call_step f client h bh exp inM pc e = Some (pc', e', spawned) →
  votingCache e' = votingCache e ∧ voteParsingProgress e' = voteParsingProgress e ∧
  threads e' = threads e ∧
  ((parsingJobs e' = parsingJobs e ∧ spawned = []) ∨
   (inM = false ∧ parsingJobs e' = <[h := true]> (parsingJobs e) ∧
    spawned = [Job h bh JobStart])).
Proof.
  intros H. destruct pc; cbn [call_step] in H.
  - destruct (negb inM); [destruct (votingCache e !! h) |];
      injection H as <- <- <-; (split_and!; [done.. | by left]).
  - injection H as <- <- <-. split_and!; [done.. | by left].
  - destruct (voteParsingProgress e !! h);
      injection H as <- <- <-; (split_and!; [done.. | by left]).
  - destruct (negb inM && negb isJobRunning) eqn:Hb.
    + destruct inM; [done |]. injection H as <- <- <-.
      split_and!; [done.. | by right].
    + destruct (calculateTSpendVotes f client h bh exp inM) as [[info err]|];
        [| done].
      cbn [mbind option_bind] in H.
      destruct err; injection H as <- <- <-; (split_and!; [done.. | by left]).
  - done.
Qed.

Lemma job_step_maps (f : string → string → bool) (client : option Ledger)
    (elapsed : Q) (h : string) (bh : Z) (pc pc' : JobPc) (e e' : Engine) :
  job_step f client elapsed h bh pc e = Some (pc', e') →
  threads e' = threads e ∧
  (votingCache e' = votingCache e ∨ ∃ v, votingCache e' = <[h := v]> (votingCache e)) ∧
  (voteParsingProgress e' = voteParsingProgress e ∨
   ∃ p, voteParsingProgress e' = <[h := p]> (voteParsingProgress e)).
Proof.
  intros H. destruct pc; cbn [job_step] in H.
  - destruct client; simplify_eq; cbn; eauto 10.
    revert H. unfold async_window. cbv zeta. intros H. simplify_eq. cbn. eauto 10.
  - destruct client as [c|]; [| done]. cbn [mbind option_bind] in H.
    destruct (height <=? votingEndBlock).
    + destruct (GetBlockHash c height ≫= getblock c) as [block|].
      * destruct (count_stxs f c h (STx block) (yesVotes, noVotes))
          as [[yes no]|]; [| done]. cbn [mbind option_bind] in H.
        destruct ((height `rem` 50 =? 0) || (height =? votingEndBlock));
          simplify_eq; cbn; eauto 10.
      * simplify_eq. eauto 10.
    + simplify_eq. cbn. eauto 10.
  - simplify_eq. cbn. eauto 10.
  - simplify_eq. cbn. eauto 10.
  - done.
Qed.

Lemma is_Some_insert_keep {V} (m : gmap string V) (h k : string) (v : V) :
  is_Some (m !! k) → is_Some (<[h := v]> m !! k).
Proof.
  intros Hk. destruct (decide (h = k)) as [->|Hne].
  - rewrite lookup_insert_eq. eauto.
  - by rewrite lookup_insert_ne.
Qed.

(** X20.  Nothing is ever evicted: under every schedule of calls and goroutine
    steps, a hash that has an entry in the result cache or in the
    progress map keeps one (it may be overwritten). *)
Theorem engine_never_evicts (f : string → string → bool) (evs : list EngineEvent)
    (e e' : Engine) :
  engine_run f evs e = Some e' →
  (∀ h, is_Some (votingCache e !! h) → is_Some (votingCache e' !! h)) ∧
  (∀ h, is_Some (voteParsingProgress e !! h) →
        is_Some (voteParsingProgress e' !! h)).
Proof.
  revert e. induction evs as [|ev evs IH]; intros e Hrun; cbn [engine_run] in Hrun.
  - by simplify_eq.
  - destruct (engine_step f ev e) as [e1|] eqn:Hstep; [| done].
    cbn [mbind option_bind] in Hrun.
    destruct (IH _ Hrun) as (Hc & Hp).
    assert ((∀ h, is_Some (votingCache e !! h) → is_Some (votingCache e1 !! h)) ∧
            (∀ h, is_Some (voteParsingProgress e !! h) →
                  is_Some (voteParsingProgress e1 !! h))) as (Hc1 & Hp1).
    { destruct ev as [h bh exp inM|n client elapsed]; cbn [engine_step] in Hstep.
      - by simplify_eq.
      - destruct (threads e !! n) as [[h bh exp inM pc|h bh pc]|]; [| | done];
          cbn [mbind option_bind] in Hstep.
        + destruct (call_step f client h bh exp inM pc e) as [[[pc' e2] sp]|] eqn:Hcall;
            [| done].
          cbn [mbind option_bind] in Hstep. simplify_eq.
          destruct (call_step_maps _ _ _ _ _ _ _ _ _ _ _ Hcall) as (Hc' & Hp' & _ & _).
          cbn [votingCache voteParsingProgress threads set_threads].
          by rewrite Hc', Hp'.
        + destruct (job_step f client elapsed h bh pc e) as [[pc' e2]|] eqn:Hjob;
            [| done].
          cbn [mbind option_bind] in Hstep. simplify_eq.
          destruct (job_step_maps _ _ _ _ _ _ _ _ _ Hjob) as (_ & Hcache & Hprog).
          cbn [votingCache voteParsingProgress threads set_threads].
          split.
          * destruct Hcache as [->|[v ->]]; [done |].
            intros k. apply is_Some_insert_keep.
          * destruct Hprog as [->|[p ->]]; [done |].
            intros k. apply is_Some_insert_keep. }
    split; by eauto.
Qed.

(** X21.  A call for a spend in the mempool leaves the engine as it is: it
    writes no cache entry, registers no job and starts no goroutine,
    whatever it returns. *)
Theorem mempool_call_changes_nothing (f : string → string → bool)
    (client : option Ledger) (fuel : nat) (h : string) (bh exp : Z) (pc pc' : CallPc)
    (e e' : Engine) (spawned : list Thread) :
  call_complete f fuel client h bh exp true pc e = Some (pc', e', spawned) →
  e' = e ∧ spawned = [].
Proof.
  revert pc e spawned. induction fuel as [|fuel IH]; intros pc e spawned H.
  - destruct pc; cbn in H; by simplify_eq.
  - destruct pc; cbn [call_complete] in H; try by simplify_eq.
    all: match type of H with
         | context [call_step ?f ?c ?h ?bh ?exp ?inM ?pc ?e] =>
             destruct (call_step f c h bh exp inM pc e) as [[[pc1 e1] sp1]|] eqn:Hstep;
               [| done]
         end.
    all: cbn [mbind option_bind] in H.
    all: match type of H with
         | context [call_complete ?f ?n ?c ?h ?bh ?exp ?inM ?pc ?e] =>
             destruct (call_complete f n c h bh exp inM pc e)
               as [[[pc2 e2] sp2]|] eqn:Hrest; [| done]
         end.
    all: cbn [mbind option_bind] in H; simplify_eq.
    all: destruct (IH _ _ _ Hrest) as [-> ->].
    all: destruct (call_step_maps _ _ _ _ _ _ _ _ _ _ _ Hstep)
           as (Hc & Hp & Ht & [[Hj ->]|[? _]]); [| done].
    all: split; [| done].
    all: destruct e, e1; cbn in *; by subst.
Qed.


(** X22.  A first call for a confirmed spend that is neither cached nor
    registered does not count anything itself and does not use the
    client: it registers the hash, starts one goroutine and returns a
    placeholder (not complete, no votes, a start block that is not raised
    to the activation height).  Without a dcrd client that goroutine ends
    in two steps, writes neither a result nor progress, and removes the
    hash from the registry, so that the next call starts over. *)
Theorem tally_without_client (f : string → string → bool) (client : option Ledger)
    (h : string) (bh exp : Z) (e : Engine) (el1 el2 : Q) :
  votingCache e !! h = None → parsingJobs e !! h ≠ Some true →
  serial_run f [SerialCall h bh exp false client] e
  = Some {| votingCache := votingCache e;
            voteParsingProgress := voteParsingProgress e;
            parsingJobs := <[h := true]> (parsingJobs e);
            threads := threads e ++
              [Call h bh exp false (CallReturned (Some (tally_placeholder bh)) None);
               Job h bh JobStart] |} ∧
  serial_run f
    [SerialCall h bh exp false client;
     SerialJob (S (length (threads e))) None el1;
     SerialJob (S (length (threads e))) None el2] e
  = Some {| votingCache := votingCache e;
            voteParsingProgress := voteParsingProgress e;
            parsingJobs := delete h (parsingJobs e);
            threads := threads e ++
              [Call h bh exp false (CallReturned (Some (tally_placeholder bh)) None);
               Job h bh JobEnded] |}.
Proof.
  intros Hcache Hjobs.
  assert (Hcall : serial_step f (SerialCall h bh exp false client) e
    = Some {| votingCache := votingCache e;
              voteParsingProgress := voteParsingProgress e;
              parsingJobs := <[h := true]> (parsingJobs e);
              threads := threads e ++
                [Call h bh exp false (CallReturned (Some (tally_placeholder bh)) None);
                 Job h bh JobStart] |}).
  { cbn [serial_step call_complete call_step negb]. rewrite Hcache.
    cbn [mbind option_bind call_complete call_step].
    assert (default false (parsingJobs e !! h) = false) as ->
      by (by destruct (parsingJobs e !! h) as [[]|]).
    cbn [mbind option_bind call_complete call_step negb andb]. done. }
  split; [cbn [serial_run]; by rewrite Hcall |].
  cbn [serial_run]. rewrite Hcall. cbn [mbind option_bind serial_step threads].
  assert (Hn : ∀ (t1 t2 : Thread),
    (threads e ++ [t1; t2]) !! S (length (threads e)) = Some t2).
  { intros t1 t2. rewrite lookup_app_r by lia.
    by replace (S (length (threads e)) - length (threads e))%nat with 1%nat by lia. }
  assert (Hins : ∀ (t1 t2 t3 : Thread),
    <[S (length (threads e)) := t3]> (threads e ++ [t1; t2]) = threads e ++ [t1; t3]).
  { intros t1 t2 t3. rewrite insert_app_r_alt by lia.
    by replace (S (length (threads e)) - length (threads e))%nat with 1%nat by lia. }
  rewrite (Hn _ (Job h bh JobStart)). cbn [engine_step threads mbind option_bind].
  rewrite (Hn _ (Job h bh JobStart)).
  cbn [mbind option_bind job_step set_threads threads votingCache voteParsingProgress
       parsingJobs].
  rewrite !Hins, !(Hn _ (Job h bh JobCleanup)).
  cbn [mbind option_bind job_step set_threads set_jobs threads votingCache
       voteParsingProgress parsingJobs].
  by rewrite Hins, delete_insert_eq.
Qed.

(* ----------------------------------------------------------------- *)
(** *** Closed instances *)



Lemma calculateTSpendVotes_empty_window_witness :
  ∃ info,
    calculateTSpendVotes ascii_only (Some (ledger_at 560000)) sample_hash 0 100 true
      = Some (Some info, None) ∧
    YesVotes info = 0 ∧ NoVotes info = 0 ∧ VotesCast info = 0 ∧
    EligibleVotes info = (VotingEndBlock info - VotingStartBlock info) * 5 ∧
    QuorumRequired info = VotingEndBlock info - VotingStartBlock info ∧
    QuorumRequired info < 0 ∧ QuorumAchieved info = true ∧
    (TurnoutRate info == 0)%Q ∧ (ApprovalRate info == 0)%Q.
Proof.
  apply (calculateTSpendVotes_empty_window ascii_only (ledger_at 560000) sample_hash
           0 100 560000 true); [reflexivity | lia | lia | lia | cbn; lia].
Defined.

Lemma job_runs_to_end_witness :
  ∃ yesVotes noVotes,
    countTSpendVotesInRange ascii_only (floor_ledger true) sample_hash 552448 552448
      = Some (yesVotes, noVotes) ∧
    ∀ els, length els = 5%nat →
      job_steps ascii_only (Some (floor_ledger true)) els sample_hash 552448
        (JobStart, engine_init)
      = Some (JobEnded,
              {| votingCache :=
                   {[ sample_hash :=
                        async_final (floor_ledger true) 552448 552448 1 yesVotes noVotes ]};
                 voteParsingProgress :=
                   {[ sample_hash := progress_complete 552448 1 yesVotes noVotes ]};
                 parsingJobs := delete sample_hash ∅;
                 threads := [] |}).
Proof.
  pose proof (job_runs_to_end ascii_only (floor_ledger true) sample_hash 552448
                engine_init) as H.
  cbv beta iota zeta in H. apply H. lia.
Defined.

Lemma async_scan_limit_never_applies_witness :
  ∃ e', job_step ascii_only (Some example_ledger) 0 sample_hash 560000 JobStart engine_init
        = Some (JobLoop 557120 560000 2881 557120 0 0, e').
Proof.
  pose proof (async_scan_limit_never_applies ascii_only example_ledger 0 sample_hash
                560000 engine_init) as H.
  apply H. unfold TreasuryActivationHeight. lia.
Defined.

Lemma engine_never_evicts_witness :
  votingCache evict_start !! sample_hash = Some (tally_of 1) ∧
  is_Some (voteParsingProgress evict_start !! sample_hash) ∧
  is_Some (votingCache evict_end !! sample_hash) ∧
  is_Some (voteParsingProgress evict_end !! sample_hash).
Proof.
  assert (Hcache : votingCache evict_start !! sample_hash = Some (tally_of 1))
    by (vm_compute; reflexivity).
  assert (Hprogress : is_Some (voteParsingProgress evict_start !! sample_hash))
    by (eexists; vm_compute; reflexivity).
  destruct (engine_never_evicts ascii_only second_job_events evict_start evict_end)
    as [Hc Hp]; [vm_compute; reflexivity |].
  split_and!; [done | done | apply Hc; by eexists | by apply Hp].
Defined.

Lemma mempool_call_changes_nothing_witness :
  engine_init = engine_init ∧ @nil Thread = [].
Proof.
  apply (mempool_call_changes_nothing ascii_only (Some (ledger_at 560000)) 4 sample_hash
           0 560100 CallStart mempool_call_pc engine_init engine_init []).
  vm_compute. reflexivity.
Defined.

Lemma tally_without_client_witness :
  serial_run ascii_only
    [SerialCall sample_hash 552448 0 false None;
     SerialJob 1 None 0%Q; SerialJob 1 None 0%Q] engine_init
  = Some {| votingCache := ∅; voteParsingProgress := ∅;
            parsingJobs := delete sample_hash ∅;
            threads :=
              [Call sample_hash 552448 0 false
                 (CallReturned (Some (tally_placeholder 552448)) None);
               Job sample_hash 552448 JobEnded] |}.
Proof.
  apply (tally_without_client ascii_only None sample_hash 552448 0 engine_init 0%Q 0%Q);
    [reflexivity | discriminate].
Defined.

(* ----------------------------------------------------------------- *)
(** *** The wallet loader *)

Lemma OpenWalletWithRetry_loop_spec (clients : nat → option WalletLoader)
    (publicPass : string) (maxRetries : Z) (k : nat) :
  ∀ (fuel i : nat),
    Z.of_nat (i + k) < maxRetries → (k < fuel)%nat →
    (∀ j, (j < k)%nat → (attempt clients publicPass (i + j)).1 ≠ None) →
    (attempt clients publicPass (i + k)).1 = None ∨ Z.of_nat (i + k) = maxRetries - 1 →
    OpenWalletWithRetry_loop clients publicPass maxRetries fuel i
    = (match (attempt clients publicPass (i + k)).1 with
       | None => None
       | Some msg =>
           Some ("failed to open wallet after " +:+ itoa maxRetries
                 +:+ " attempts: " +:+ msg)
       end,
       flat_map (λ j, (attempt clients publicPass j).2 ++ [Sleep 2000]) (seq i k)
         ++ (attempt clients publicPass (i + k)).2).
Proof.
  induction k as [|k IH]; intros fuel i Hmax Hfuel Hfail Hlast.
  - destruct fuel as [|fuel]; [lia |]. rewrite Nat.add_0_r in *.
    cbn [OpenWalletWithRetry_loop seq flat_map app]. unfold attempt in *.
    destruct (OpenWallet (clients i) publicPass) as [[msg|] effects]; [| done].
    cbn [fst snd] in *. destruct Hlast as [|Hlast]; [done |].
    by rewrite (proj2 (Z.ltb_ge _ _)) by lia.
  - destruct fuel as [|fuel]; [lia |].
    cbn [OpenWalletWithRetry_loop seq flat_map].
    pose proof (Hfail 0%nat ltac:(lia)) as H0. rewrite Nat.add_0_r in H0.
    unfold attempt in H0 |- * at 2.
    destruct (OpenWallet (clients i) publicPass) as [[msg|] effects]; [| done].
    rewrite (proj2 (Z.ltb_lt _ _)) by lia.
    rewrite (IH fuel (S i)); [| lia | lia | | ].
    + replace (S i + k)%nat with (i + S k)%nat by lia.
      cbn [snd]. by rewrite <- !app_assoc.
    + intros j Hj. replace (S i + j)%nat with (i + S j)%nat by lia.
      apply Hfail. lia.
    + by replace (S i + k)%nat with (i + S k)%nat by lia.
Qed.

Lemma first_success (clients : nat → option WalletLoader) (publicPass : string)
    (n : nat) :
  (∃ k, (k < n)%nat ∧ (attempt clients publicPass k).1 = None ∧
        ∀ j, (j < k)%nat → (attempt clients publicPass j).1 ≠ None) ∨
  (∀ j, (j < n)%nat → (attempt clients publicPass j).1 ≠ None).
Proof.
  induction n as [|n [(k & Hk & Hok & Hmin)|Hall]].
  - right. intros j Hj. lia.
  - left. exists k. split; [lia | done].
  - destruct ((attempt clients publicPass n).1) as [msg|] eqn:Hn.
    + right. intros j Hj. destruct (decide (j = n)) as [->|]; [by rewrite Hn |].
      apply Hall. lia.
    + left. exists n. split; [lia |]. split; [done |]. intros j Hj. by apply Hall.
Qed.

(** X23.  [OpenWalletWithRetry] reports success exactly when one of the first
    [maxRetries] attempts succeeds, or when [maxRetries] is zero or
    negative: it then returns no error without a single attempt. *)
Theorem OpenWalletWithRetry_succeeds (clients : nat → option WalletLoader)
    (publicPass : string) (maxRetries : Z) :
  ((OpenWalletWithRetry clients publicPass maxRetries).1 = None ↔
   maxRetries ≤ 0 ∨
   ∃ i, Z.of_nat i < maxRetries ∧ (attempt clients publicPass i).1 = None) ∧
  (maxRetries ≤ 0 → OpenWalletWithRetry clients publicPass maxRetries = (None, [])).
Proof.
  unfold OpenWalletWithRetry.
  destruct (decide (maxRetries ≤ 0)) as [Hle|Hgt].
  { replace (Z.to_nat maxRetries) with 0%nat by lia. cbn. split; [| done].
    split; [by left | done]. }
  split; [| lia].
  destruct (first_success clients publicPass (Z.to_nat maxRetries))
    as [(k & Hk & Hok & Hmin)|Hall].
  - rewrite (OpenWalletWithRetry_loop_spec clients publicPass maxRetries k);
      [| cbn; lia | lia | done | by left].
    cbn [Nat.add fst]. rewrite Hok. split; [| done].
    intros _. right. exists k. split; [lia | done].
  - rewrite (OpenWalletWithRetry_loop_spec clients publicPass maxRetries
               (Z.to_nat maxRetries - 1));
      [| cbn; lia | lia | intros j Hj; apply Hall; cbn; lia | right; cbn; lia].
    cbn [Nat.add fst].
    pose proof (Hall (Z.to_nat maxRetries - 1)%nat ltac:(lia)) as Hlast.
    destruct ((attempt clients publicPass (Z.to_nat maxRetries - 1)).1) as [msg|];
      [| done].
    split; [done |]. intros [?|(i & Hi & Hok)]; [lia |].
    destruct (Hall i); [lia | done].
Qed.

(** X24.  [OpenWalletWithRetry] stops at the first attempt that succeeds, or at
    the last one allowed, and pauses two seconds after every attempt
    before that one: its effects are those of the attempts made, each
    failed one but the last followed by the pause, and its error, if any,
    is the error of the last attempt behind the number of attempts. *)
Theorem OpenWalletWithRetry_attempts (clients : nat → option WalletLoader)
    (publicPass : string) (maxRetries : Z) (k : nat) :
  Z.of_nat k < maxRetries →
  (∀ j, (j < k)%nat → (attempt clients publicPass j).1 ≠ None) →
  (attempt clients publicPass k).1 = None ∨ Z.of_nat k = maxRetries - 1 →
  OpenWalletWithRetry clients publicPass maxRetries
  = (match (attempt clients publicPass k).1 with
     | None => None
     | Some msg =>
         Some ("failed to open wallet after " +:+ itoa maxRetries
               +:+ " attempts: " +:+ msg)
     end,
     flat_map (λ j, (attempt clients publicPass j).2 ++ [Sleep 2000]) (seq 0 k)
       ++ (attempt clients publicPass k).2).
Proof.
  intros Hk Hfail Hlast. unfold OpenWalletWithRetry.
  apply (OpenWalletWithRetry_loop_spec clients publicPass maxRetries k
           (Z.to_nat maxRetries) 0); [cbn; lia | lia | done | done].
Qed.

Lemma OpenWalletWithRetry_attempts_witness :
  OpenWalletWithRetry third_time_lucky "pass" 5
  = (None,
     [Sleep 2000; RpcOpenWallet "pass"; Sleep 2000;
      RpcOpenWallet "pass"; GoRpcSync false; Sleep 100]).
Proof.
  apply (OpenWalletWithRetry_attempts third_time_lucky "pass" 5 2).
  - lia.
  - intros [|[|j]] Hj; [done | done | lia].
  - by left.
Defined.


Lemma hex_byte (a b : Z) : 0 ≤ a < 16 → 0 ≤ b < 16 → Z.lor (Z.shiftl a 4) b = 16 * a + b.
Proof.
  intros Ha Hb.
  assert (∀ x y, (0 <= x < 16)%nat → (0 <= y < 16)%nat →
            Z.lor (Z.shiftl (Z.of_nat x) 4) (Z.of_nat y) = 16 * Z.of_nat x + Z.of_nat y) as H.
  { intros x y Hx Hy.
    do 16 (destruct x as [|x]; [do 16 (destruct y as [|y]; [reflexivity |]); lia |]).
    lia. }
  specialize (H (Z.to_nat a) (Z.to_nat b)). rewrite !Z2Nat.id in H by lia.
  apply H; lia.
Qed.

(** [hex.DecodeString] succeeds exactly on the strings of an even number
    of hexadecimal digits, and gives the bytes they denote. *)
Lemma hex_DecodeString_ok (s : string) (bs : list Z) :
  hex_DecodeString s = (bs, None) ↔ hex_decode s = Some bs.
Proof.
  revert bs. induction s as [|a|a b s IH] using string_pair_ind; intros bs.
  - cbn. split; intros; by simplify_eq.
  - cbn. destruct (hexval a); split; intros; by simplify_eq.
  - cbn [hex_DecodeString hex_decode].
    destruct (hexval a) as [x|] eqn:Hx; [| split; intros; by simplify_eq].
    destruct (hexval b) as [y|] eqn:Hy; [| split; intros; by simplify_eq].
    cbn [mbind option_bind].
    rewrite hex_byte by (by eapply hexval_range).
    destruct (hex_DecodeString s) as [bs' err]. split.
    + intros [= <- ->]. by rewrite (proj1 (IH bs') eq_refl).
    + destruct (hex_decode s) as [bs''|]; [| done]. cbn [mbind option_bind].
      intros [= <-]. by injection (proj2 (IH bs'') eq_refl) as -> ->.
Qed.

(** X25.  The wallet is asked to create a wallet only on a request that can be
    decoded, with the passphrases of the request, a private passphrase
    that is not empty, and the non-empty byte string that the seed of the
    request denotes in hexadecimal; the handler answers 200 exactly when
    the wallet took the request, and the goroutine that syncs the wallet
    with dcrd is started exactly then. *)
Theorem CreateWalletHandler_validates (text : ascii → string)
    (client : option WalletLoader) (req : option CreateWalletRequest) :
  let '(resp, effects) := CreateWalletHandler text client req in
  (∀ publicPass privatePass seed,
     RpcCreateWallet publicPass privatePass seed ∈ effects →
     ∃ r, req = Some r ∧ publicPass = PublicPassphrase r ∧
          privatePass = PrivatePassphrase r ∧ privatePass ≠ "" ∧
          hex_decode (SeedHex r) = Some seed ∧ seed ≠ []) ∧
  (resp = Json 200 (true, "Wallet created successfully") ↔
   ∃ c r seed, client = Some c ∧ req = Some r ∧ PrivatePassphrase r ≠ "" ∧
     SeedHex r ≠ "" ∧ hex_decode (SeedHex r) = Some seed ∧
     rpc_CreateWallet c (PublicPassphrase r) (PrivatePassphrase r) seed = None) ∧
  (GoRpcSync false ∈ effects ↔ resp = Json 200 (true, "Wallet created successfully")).
Proof.
  unfold CreateWalletHandler.
  destruct req as [r|]; [| split_and!; [by intros ? ? ? ?%elem_of_nil
                                        | split; [done | by intros (? & ? & ? & ? & ? & _)]
                                        | split; [by intros ?%elem_of_nil | done]]].
  destruct (decide (PrivatePassphrase r = "")) as [Hpriv|Hpriv].
  { split_and!; [by intros ? ? ? ?%elem_of_nil
                | split; [done | by intros (? & ? & ? & ? & [= <-] & ? & _)]
                | split; [by intros ?%elem_of_nil | done]]. }
  destruct (decide (SeedHex r = "")) as [Hseed|Hseed].
  { split_and!; [by intros ? ? ? ?%elem_of_nil
                | split; [done | by intros (? & ? & ? & ? & [= <-] & ? & ? & _)]
                | split; [by intros ?%elem_of_nil | done]]. }
  unfold CreateNewWallet.
  destruct client as [c|];
    [| split_and!; [by intros ? ? ? ?%elem_of_nil
                   | split; [done | by intros (? & ? & ? & ? & _)]
                   | split; [by intros ?%elem_of_nil | done]]].
  destruct (hex_DecodeString (SeedHex r)) as [seedBytes [herr|]] eqn:Hdec.
  { split_and!; [by intros ? ? ? ?%elem_of_nil | | split; [by intros ?%elem_of_nil | done]].
    split; [done |].
    intros (? & ? & seed & [= <-] & [= <-] & _ & _ & Hs%hex_DecodeString_ok & _).
    congruence. }
  apply hex_DecodeString_ok in Hdec.
  assert (seedBytes ≠ []) as Hne.
  { intros ->. destruct (SeedHex r) as [|a [|b s]]; [done | done |].
    apply hex_decode_cons in Hdec as (? & ? & ? & _ & _ & _ & ?). done. }
  destruct (rpc_CreateWallet c (PublicPassphrase r) (PrivatePassphrase r) seedBytes)
    as [err|] eqn:Hrpc.
  - split_and!.
    + intros pub priv seed [= -> -> ->]%list_elem_of_singleton. by exists r.
    + split; [done |].
      intros (? & ? & seed & [= <-] & [= <-] & _ & _ & Hs & Hok). congruence.
    + split; [| done]. by intros [=]%list_elem_of_singleton.
  - split_and!.
    + intros pub priv seed Hin. apply elem_of_cons in Hin as [[= -> -> ->]|Hin].
      * by exists r.
      * apply elem_of_cons in Hin as [|Hin]; [done |].
        by apply list_elem_of_singleton in Hin.
    + split; [| done]. intros _. by exists c, r, seedBytes.
    + split; [done |]. intros _. apply elem_of_cons. right. apply elem_of_cons. by left.
Qed.


(** X26.  The handler that opens the wallet answers 200 exactly when the
    wallet opens or says that it is already opened, and the goroutine
    that syncs the wallet with dcrd is started exactly then; every other
    failure of the wallet is answered 401 with the wallet's message, and
    a body that cannot be decoded 400 without a call of the wallet. *)
Theorem OpenWalletHandler_outcome (client : option WalletLoader) (req : option string) :
  let '(resp, effects) := OpenWalletHandler client req in
  (resp = Json 200 (true, "Wallet opened successfully") ↔
   ∃ c publicPass, client = Some c ∧ req = Some publicPass ∧
     (rpc_OpenWallet c publicPass = None ∨
      ∃ msg, rpc_OpenWallet c publicPass = Some msg ∧
             Contains msg "already opened" = true)) ∧
  (GoRpcSync false ∈ effects ↔ resp = Json 200 (true, "Wallet opened successfully")) ∧
  (∀ c publicPass msg,
     client = Some c → req = Some publicPass →
     rpc_OpenWallet c publicPass = Some msg → Contains msg "already opened" = false →
     resp = Json 401 (false, "failed to open wallet: " +:+ msg)) ∧
  (req = None → resp = HttpError 400 "Invalid request body" ∧ effects = []).
Proof.
  unfold OpenWalletHandler, OpenWallet.
  destruct req as [pub|].
  2:{ split_and!; [split; [done | by intros (? & ? & _ & ? & _)]
                  | split; [by intros ?%elem_of_nil | done] | done | done]. }
  destruct client as [c|].
  2:{ split_and!; [split; [done | by intros (? & ? & ? & _)]
                  | split; [by intros ?%elem_of_nil | done] | done | done]. }
  destruct (rpc_OpenWallet c pub) as [msg|] eqn:Hrpc.
  - destruct (Contains msg "already opened") eqn:Hc.
    + split_and!; [| | intros; simplify_eq; congruence | done].
      * split; [| done]. intros _. exists c, pub. split_and!; [done.. |]. eauto.
      * split; [done |]. intros _. apply elem_of_cons. right. apply elem_of_cons. by left.
    + split_and!; [| | intros; by simplify_eq | done].
      * split; [done |].
        intros (? & ? & [= <-] & [= <-] & [?|(? & ? & ?)]); congruence.
      * split; [| done]. by intros [=]%list_elem_of_singleton.
  - split_and!; [| | intros; simplify_eq | done].
    + split; [| done]. intros _. exists c, pub. eauto.
    + split; [done |]. intros _. apply elem_of_cons. right. apply elem_of_cons. by left.
Qed.

(** X27.  The seed service is never asked for a seed of zero words: a request
    whose body cannot be decoded, or that names no length or the length
    zero, asks for 33 words, every other request for the length it
    names; and the service is called at most once. *)
Theorem GenerateSeedHandler_length (client : option SeedService) (req : option Z) :
  let '(resp, effects) := GenerateSeedHandler client req in
  let asked := match req with
               | None => 33
               | Some n => if n =? 0 then 33 else n
               end in
  asked ≠ 0 ∧
  effects = (if client is Some _ then [RpcGenerateRandomSeed asked] else []) ∧
  match client with
  | None => resp = HttpError 500 "seed service client not initialized"
  | Some c =>
      match rpc_GenerateRandomSeed c asked with
      | inl err => resp = HttpError 500 ("failed to generate seed: " +:+ err)
      | inr seed => resp = Json 200 (Some seed)
      end
  end.
Proof.
  unfold GenerateSeedHandler, GenerateSeed.
  assert ((if default 33 req =? 0 then 33 else default 33 req)
          = match req with None => 33 | Some n => if n =? 0 then 33 else n end) as Heq.
  { by destruct req. }
  destruct client as [c|]; [| split_and!; [| done..]].
  - rewrite Heq.
    destruct (rpc_GenerateRandomSeed c _) eqn:Hrpc; cbv zeta; rewrite ?Hrpc;
      (split_and!; [| done..]); destruct req as [n|]; try done;
      destruct (Z.eqb_spec n 0); done.
  - destruct req as [n|]; [| done]. destruct (Z.eqb_spec n 0); done.
Qed.
